(** * Signalling server of the video-call backend: registry, lifecycle, relay

    Shallow embedding of [src/index.js] (the Socket.IO handlers
    [join-room], [offer], [answer], [ice-candidate], [disconnect]) together
    with the part of the [Room] collection those handlers query, and the
    soft-delete update of [src/routes/rooms.js].

    The server state is threaded explicitly: every handler is a function
    from the state before the event to the state after it and the list of
    observable actions it performed, in program order. *)

From stdpp Require Import gmap strings list fin_maps sorting.
From Stdlib Require QArith Qround.

Open Scope string_scope.
Open Scope list_scope.

#[local] Set Warnings "-clear-no-such-hyp".

(** ** JavaScript values that cross the wire *)

(** [userName] and the signalling bodies are whatever the client put in
    [data]; the server never looks inside.  [JUndefined] is the value of a
    property that was never assigned. *)
Inductive JSValue : Type :=
  | JUndefined
  | JString (s : string).

Global Instance JSValue_eq_dec : EqDecision JSValue.
Proof. solve_decision. Defined.

(** [if (x)] on a string: only the empty string is falsy. *)
Definition truthy (s : string) : bool :=
  match s with
  | EmptyString => false
  | String _ _ => true
  end.

(** ** ECMAScript [Map], insertion ordered *)

Module JSMap.
Section Defs.
Context {V : Type}.

(** [m.set(k, v)]: an existing key keeps its position, a new key goes last. *)
Fixpoint set (k : string) (v : V) (m : list (string * V)) : list (string * V) :=
  match m with
  | [] => [(k, v)]
  | (k', v') :: m' =>
      if decide (k' = k) then (k, v) :: m' else (k', v') :: set k v m'
  end.

(** [m.delete(k)]: the entry under [k] goes, if there is one (keys of a
    [Map] are unique, and [set] keeps them so). *)
Definition delete (k : string) (m : list (string * V)) : list (string * V) :=
  filter (λ kv, kv.1 ≠ k) m.

(** [m.size] *)
Definition size (m : list (string * V)) : nat := length m.

(** [Array.from(m.values())] *)
Definition values (m : list (string * V)) : list V := m.*2.

End Defs.
End JSMap.

(** ** Data model *)

(** The object stored per member, [{ userName, socketId: socket.id }]. *)
Record Participant : Type := {
  userName : JSValue;
  socketId : string;
}.

Global Instance Participant_eq_dec : EqDecision Participant.
Proof. solve_decision. Defined.

(** The ad-hoc fields the handlers keep on the [socket] object, and whether
    the socket is still in the namespace ([socket.connected]). *)
Record Socket : Type := {
  socket_roomId : option string;     (* [socket.roomId], [None] until set *)
  socket_userName : JSValue;         (* [socket.userName] *)
  socket_connected : bool;
}.

(** The fields of a [Room] document the signalling layer can observe
    ([src/unnamed/part_000]: [isActive] defaults to true, [participants]
    to 0).  Documents are keyed by [_id]. *)
Record RoomDoc : Type := {
  isActive : bool;
  participants : nat;
}.

(** [router.delete('/:roomId')], lines 345-347 of [src/routes/rooms.js]:
    the document is kept and flagged. *)
Definition room_soft_delete (room : RoomDoc) : RoomDoc :=
  {| isActive := false; participants := participants room |}.

(** Outbound events with their payload objects.  A property that the
    object literal does not mention is [None]. *)
Inductive Event : Type :=
  | EvError (message : string)
  | EvRoomUsers (users : list Participant)
  | EvUserJoined (userName : JSValue) (socketId : string)
  | EvUserLeft (socketId : string) (userName : option JSValue)
  | EvOffer (offer : JSValue) (senderSocketId : string) (senderUserName : JSValue)
  | EvAnswer (answer : JSValue) (senderSocketId : string)
  | EvIceCandidate (candidate : JSValue) (senderSocketId : string).

Global Instance Event_eq_dec : EqDecision Event.
Proof. solve_decision. Defined.

(** Calls on the [Room] model. *)
Inductive DbCall : Type :=
  | FindById (id : string)
  | FindByIdAndUpdate (id : string) (participants : nat)
  | FindByIdAndDelete (id : string).

Global Instance DbCall_eq_dec : EqDecision DbCall.
Proof. solve_decision. Defined.

(** What a handler does besides changing the state, in program order. *)
Inductive Action : Type :=
  | Deliver (to : string) (ev : Event)   (* the event reaches socket [to] *)
  | Db (call : DbCall)
  | ConsoleLog (msg : string)
  | ConsoleError (msg : string)
  | Unhandled.                           (* the async handler rejects *)

Global Instance Action_eq_dec : EqDecision Action.
Proof. solve_decision. Defined.

(** The server: [activeRooms] (room id to a [Map] from socket id to
    participant), the socket objects, the Socket.IO adapter (the rooms each
    socket id sits in) and the [Room] collection.  [userSockets] is
    declared in the source and never read or written. *)
Record State : Type := {
  activeRooms : gmap string (list (string * Participant));
  sockets : gmap string Socket;
  adapter : gmap string (list string);
  Room : gmap string RoomDoc;
}.

Definition initial (db : gmap string RoomDoc) : State :=
  {| activeRooms := ∅; sockets := ∅; adapter := ∅; Room := db |}.

Definition with_activeRooms (f : gmap string (list (string * Participant)) →
                                 gmap string (list (string * Participant)))
    (st : State) : State :=
  {| activeRooms := f (activeRooms st); sockets := sockets st;
     adapter := adapter st; Room := Room st |}.

Definition with_sockets (f : gmap string Socket → gmap string Socket)
    (st : State) : State :=
  {| activeRooms := activeRooms st; sockets := f (sockets st);
     adapter := adapter st; Room := Room st |}.

Definition with_adapter (f : gmap string (list string) → gmap string (list string))
    (st : State) : State :=
  {| activeRooms := activeRooms st; sockets := sockets st;
     adapter := f (adapter st); Room := Room st |}.

Definition with_Room (f : gmap string RoomDoc → gmap string RoomDoc)
    (st : State) : State :=
  {| activeRooms := activeRooms st; sockets := sockets st;
     adapter := adapter st; Room := f (Room st) |}.

(** [socket.roomId = roomId; socket.userName = userName] *)
Definition set_joined (roomId : string) (userName : JSValue) (sock : Socket) : Socket :=
  {| socket_roomId := Some roomId;
     socket_userName := userName;
     socket_connected := socket_connected sock |}.

(** The socket object once its transport has closed: its own fields stay. *)
Definition set_closed (sock : Socket) : Socket :=
  {| socket_roomId := socket_roomId sock;
     socket_userName := socket_userName sock;
     socket_connected := false |}.

(** [{ participants: n }] applied by [findByIdAndUpdate]. *)
Definition set_participants (n : nat) (room : RoomDoc) : RoomDoc :=
  {| isActive := isActive room; participants := n |}.

(** ** Socket.IO primitives *)

Definition is_connected (st : State) (id : string) : bool :=
  match sockets st !! id with
  | Some sock => socket_connected sock
  | None => false
  end.

Definition in_adapter_room (st : State) (id room : string) : bool :=
  match adapter st !! id with
  | Some rooms => bool_decide (room ∈ rooms)
  | None => false
  end.

(** [socket.join(room)]: the room set of the socket gains [room]. *)
Definition socket_join (id room : string) (st : State) : State :=
  with_adapter (λ a,
    let rooms := default [] (a !! id) in
    <[id := if bool_decide (room ∈ rooms) then rooms else rooms ++ [room]]> a) st.

(** [socket.leave(room)] *)
Definition socket_leave (id room : string) (st : State) : State :=
  with_adapter (alter (filter (λ r, r ≠ room)) id) st.

(** [socket.emit(ev, payload)]: written to the socket's own connection; a
    closed connection drops the packet. *)
Definition socket_emit (st : State) (id : string) (ev : Event) : list Action :=
  if is_connected st id then [Deliver id ev] else [].

(** The sockets reached by [socket.to(room)]: every socket of the
    namespace sitting in adapter room [room], the sender excepted. *)
Definition recipients (st : State) (sender room : string) : list string :=
  filter (λ id, id ≠ sender ∧ in_adapter_room st id room = true
                ∧ is_connected st id = true)
         (map_to_list (adapter st)).*1.

(** [socket.to(room).emit(ev, payload)] *)
Definition socket_to_emit (st : State) (sender room : string) (ev : Event)
    : list Action :=
  (λ id, Deliver id ev) <$> recipients st sender room.

(** ** Handlers of [io.on('connection', ...)] *)

(** A new socket: its id is fresh, it has no [roomId], no [userName], and
    Socket.IO puts it in the room named by its own id. *)
Definition on_connection (id : string) (st : State) : State * list Action :=
  match sockets st !! id with
  | Some _ => (st, [])
  | None =>
      (with_adapter (<[id := [id]]>)
         (with_sockets (<[id := {| socket_roomId := None;
                                   socket_userName := JUndefined;
                                   socket_connected := true |}]>) st),
       [ConsoleLog "User connected"])
  end.

(** Lines 66-79: leave any previous room. *)
Definition leave_previous_room (id : string) (sock : Socket) (st : State)
    : State * list Action :=
  match socket_roomId sock with
  | Some previousRoom =>
      if truthy previousRoom then
        let st := socket_leave id previousRoom st in
        match activeRooms st !! previousRoom with
        | Some roomUsers =>
            let roomUsers := JSMap.delete id roomUsers in
            if decide (JSMap.size roomUsers = 0) then
              (with_activeRooms (delete previousRoom) st, [])
            else
              (with_activeRooms (<[previousRoom := roomUsers]>) st,
               socket_to_emit st id previousRoom (EvUserLeft id None))
        | None => (st, [])
        end
      else (st, [])
  | None => (st, [])
  end.

(** Lines 82-92: join the adapter room, set the socket fields, add the
    participant to [activeRooms]. The new member list is returned as the
    handler's [roomUsers]. *)
Definition add_user (id roomId : string) (userName : JSValue) (st : State)
    : State * list (string * Participant) :=
  let st := socket_join id roomId st in
  let st := with_sockets (alter (set_joined roomId userName) id) st in
  let roomUsers := default [] (activeRooms st !! roomId) in
  let roomUsers := JSMap.set id {| userName := userName; socketId := id |} roomUsers in
  (with_activeRooms (<[roomId := roomUsers]>) st, roomUsers).

(** Lines 66-112, once [Room.findById] has returned a document. *)
Definition join_found (update_throws : bool) (id : string) (sock : Socket)
    (roomId : string) (userName : JSValue) (st : State) : State * list Action :=
  let '(st, leaving) := leave_previous_room id sock st in
  let '(st, roomUsers) := add_user id roomId userName st in
  let usersInRoom := JSMap.values roomUsers in
  let roster := socket_emit st id (EvRoomUsers usersInRoom) in
  let joined := socket_to_emit st id roomId (EvUserJoined userName id) in
  let update := Db (FindByIdAndUpdate roomId (JSMap.size roomUsers)) in
  if update_throws then
    (st, leaving ++ roster ++ joined ++ [update]
           ++ [ConsoleError "Error joining room:"]
           ++ socket_emit st id (EvError "Failed to join room"))
  else
    (with_Room (alter (set_participants (JSMap.size roomUsers)) roomId) st,
     leaving ++ roster ++ joined ++ [update]).

(** [socket.on('join-room', async (data) => ...)] with
    [data = { roomId, userName }].  [find_throws] and [update_throws] say
    whether the two awaited [Room] calls reject. *)
Definition on_join_room (find_throws update_throws : bool) (id roomId : string)
    (userName : JSValue) (st : State) : State * list Action :=
  match sockets st !! id with
  | None => (st, [])
  | Some sock =>
      if find_throws then
        (st, [Db (FindById roomId); ConsoleError "Error joining room:"]
               ++ socket_emit st id (EvError "Failed to join room"))
      else
        match Room st !! roomId with
        | None =>
            (st, [Db (FindById roomId)]
                   ++ socket_emit st id (EvError "Room not found"))
        | Some room =>
            let '(st, acts) := join_found update_throws id sock roomId userName st in
            (st, Db (FindById roomId) :: acts)
        end
  end.

(** Lines 116-139: the three directed relays. *)
Definition on_offer (id targetSocketId : string) (offer : JSValue) (st : State)
    : State * list Action :=
  match sockets st !! id with
  | None => (st, [])
  | Some sock =>
      (st, socket_to_emit st id targetSocketId
             (EvOffer offer id (socket_userName sock)))
  end.

Definition on_answer (id targetSocketId : string) (answer : JSValue) (st : State)
    : State * list Action :=
  match sockets st !! id with
  | None => (st, [])
  | Some sock => (st, socket_to_emit st id targetSocketId (EvAnswer answer id))
  end.

Definition on_ice_candidate (id targetSocketId : string) (candidate : JSValue)
    (st : State) : State * list Action :=
  match sockets st !! id with
  | None => (st, [])
  | Some sock =>
      (st, socket_to_emit st id targetSocketId (EvIceCandidate candidate id))
  end.

(** [socket.on('disconnect', async () => ...)], lines 156-181.
    [db_throws] says whether the awaited [Room] call rejects; the handler
    has no [try], so the rejection escapes. *)
Definition on_disconnect (db_throws : bool) (id : string) (st : State)
    : State * list Action :=
  match sockets st !! id with
  | None => (st, [])
  | Some sock =>
      let log := ConsoleLog "User disconnected" in
      match socket_roomId sock with
      | Some roomId =>
          if truthy roomId then
            match activeRooms st !! roomId with
            | Some roomUsers =>
                let roomUsers := JSMap.delete id roomUsers in
                if decide (JSMap.size roomUsers = 0) then
                  let st := with_activeRooms (delete roomId) st in
                  if db_throws then
                    (st, [log; Db (FindByIdAndDelete roomId); Unhandled])
                  else
                    (with_Room (delete roomId) st,
                     [log; Db (FindByIdAndDelete roomId)])
                else
                  let st := with_activeRooms (<[roomId := roomUsers]>) st in
                  let leaving := socket_to_emit st id roomId
                                (EvUserLeft id (Some (socket_userName sock))) in
                  let update := Db (FindByIdAndUpdate roomId (JSMap.size roomUsers)) in
                  if db_throws then
                    (st, [log] ++ leaving ++ [update; Unhandled])
                  else
                    (with_Room (alter (set_participants (JSMap.size roomUsers)) roomId) st,
                     [log] ++ leaving ++ [update])
            | None => (st, [log])
            end
          else (st, [log])
      | None => (st, [log])
      end
  end.

(** The transport closing: Socket.IO takes the socket out of every adapter
    room and out of the namespace before it fires [disconnect]. *)
Definition transport_close (id : string) (st : State) : State :=
  with_adapter (delete id) (with_sockets (alter set_closed id) st).

Definition disconnect (db_throws : bool) (id : string) (st : State)
    : State * list Action :=
  on_disconnect db_throws id (transport_close id st).

(** [Socket#_onclose] of Socket.IO, through which every close notification
    of a socket goes: a socket that is no longer connected returns at
    once; a connected one leaves the namespace and its [disconnect]
    listener runs.  The listener thus runs once per socket. *)
Definition socket_onclose (db_throws : bool) (id : string) (st : State)
    : State * list Action :=
  if is_connected st id then disconnect db_throws id st else (st, []).

(** ** Runs *)

Inductive Op : Type :=
  | Connection (id : string)
  | JoinRoom (find_throws update_throws : bool) (id roomId : string)
             (userName : JSValue)
  | Offer (id targetSocketId : string) (offer : JSValue)
  | Answer (id targetSocketId : string) (answer : JSValue)
  | IceCandidate (id targetSocketId : string) (candidate : JSValue)
  | Disconnect (db_throws : bool) (id : string).

Definition step (op : Op) (st : State) : State * list Action :=
  match op with
  | Connection id => on_connection id st
  | JoinRoom ft ut id roomId userName => on_join_room ft ut id roomId userName st
  | Offer id target offer => on_offer id target offer st
  | Answer id target answer => on_answer id target answer st
  | IceCandidate id target candidate => on_ice_candidate id target candidate st
  | Disconnect dt id => disconnect dt id st
  end.

(** Events are handled one at a time, each against the state the previous
    one left. *)
Fixpoint run (ops : list Op) (st : State) : State * list Action :=
  match ops with
  | [] => (st, [])
  | op :: ops =>
      let '(st, acts) := step op st in
      let '(st, acts') := run ops st in
      (st, acts ++ acts')
  end.

(** ** Observations *)

(** The participants the registry holds for a room; none when the room
    has no entry. *)
Definition room_users (st : State) (roomId : string) : list (string * Participant) :=
  default [] (activeRooms st !! roomId).

Definition occupancy (st : State) (roomId : string) : nat :=
  JSMap.size (room_users st roomId).

Definition in_room (st : State) (id roomId : string) : Prop :=
  id ∈ (room_users st roomId).*1.

(** The calls on the [Room] model among some actions, in order. *)
Definition db_calls (acts : list Action) : list DbCall :=
  omap (λ a, match a with Db call => Some call | _ => None end) acts.

(** The events handed to socket [id] among some actions, in order. *)
Definition delivered_to (id : string) (acts : list Action) : list Event :=
  omap (λ a, match a with
             | Deliver to ev => if decide (to = id) then Some ev else None
             | _ => None
             end) acts.

(** The keys of the collection can only go away: the handlers update and
    delete documents, they never create one. *)
Definition db_shrinks (db db' : gmap string RoomDoc) : Prop :=
  ∀ roomId, is_Some (db' !! roomId) → is_Some (db !! roomId).

(** The registry part of a leave: lines 69-78 and 160-169 do the same
    thing to [activeRooms]. *)
Definition registry_remove (id roomId : string)
    (reg : gmap string (list (string * Participant)))
    : gmap string (list (string * Participant)) :=
  match reg !! roomId with
  | Some roomUsers =>
      let roomUsers := JSMap.delete id roomUsers in
      if decide (JSMap.size roomUsers = 0) then delete roomId reg
      else <[roomId := roomUsers]> reg
  | None => reg
  end.

(** The registry part of lines 87-92. *)
Definition registry_add (id roomId : string) (userName : JSValue)
    (reg : gmap string (list (string * Participant)))
    : gmap string (list (string * Participant)) :=
  <[roomId := JSMap.set id {| userName := userName; socketId := id |}
                (default [] (reg !! roomId))]> reg.

(** The room a socket object would leave: its [roomId] when that is set
    and truthy. *)
Definition leaving_room (sock : Socket) : option string :=
  match socket_roomId sock with
  | Some roomId => if truthy roomId then Some roomId else None
  | None => None
  end.

Definition registry_leave (id : string) (sock : Socket)
    (reg : gmap string (list (string * Participant)))
    : gmap string (list (string * Participant)) :=
  match leaving_room sock with
  | Some roomId => registry_remove id roomId reg
  | None => reg
  end.

Definition reg_in_room (reg : gmap string (list (string * Participant)))
    (id roomId : string) : Prop :=
  id ∈ (default [] (reg !! roomId)).*1.

(** ** Invariants *)

(** No room entry of [activeRooms] is empty. *)
Definition rooms_nonempty (reg : gmap string (list (string * Participant))) : Prop :=
  ∀ roomId roomUsers, reg !! roomId = Some roomUsers → roomUsers ≠ [].

(** Every [_id] of the collection is a truthy string (an ObjectId in
    hexadecimal). *)
Definition ids_truthy (db : gmap string RoomDoc) : Prop :=
  ∀ roomId, is_Some (db !! roomId) → truthy roomId = true.

(** A member of a room is a socket whose [roomId] names that room; a
    socket of the namespace whose [roomId] is set is a member of it. *)
Record membership_inv (st : State) : Prop := {
  inv_member_field : ∀ id roomId, in_room st id roomId →
    ∃ sock, sockets st !! id = Some sock
            ∧ socket_roomId sock = Some roomId ∧ truthy roomId = true;
  inv_field_member : ∀ id sock roomId, sockets st !! id = Some sock →
    socket_connected sock = true → socket_roomId sock = Some roomId →
    in_room st id roomId;
  inv_ids : ids_truthy (Room st);
}.

(** ** The three directed relays, uniformly *)

Inductive Relay : Type := RelayOffer | RelayAnswer | RelayIceCandidate.

Definition on_relay (k : Relay) (id targetSocketId : string) (payload : JSValue)
    (st : State) : State * list Action :=
  match k with
  | RelayOffer => on_offer id targetSocketId payload st
  | RelayAnswer => on_answer id targetSocketId payload st
  | RelayIceCandidate => on_ice_candidate id targetSocketId payload st
  end.

(** The event a relay builds from the body and the sender's own fields. *)
Definition relayed (k : Relay) (payload : JSValue) (id : string) (sock : Socket)
    : Event :=
  match k with
  | RelayOffer => EvOffer payload id (socket_userName sock)
  | RelayAnswer => EvAnswer payload id
  | RelayIceCandidate => EvIceCandidate payload id
  end.

(** A socket receives what is sent to adapter room [room] by [sender]. *)
Definition reached (st : State) (sender room id : string) : Prop :=
  id ≠ sender ∧ is_connected st id = true ∧ in_adapter_room st id room = true.

(** The server once the in-memory part of a join (lines 66-92) is done. *)
Definition joined_state (id : string) (sock : Socket) (roomId : string)
    (userName : JSValue) (st : State) : State :=
  (add_user id roomId userName (leave_previous_room id sock st).1).1.

(** The same server with another registry and other [roomId] fields:
    [roomIds] gives the field of each socket. *)
Definition set_roomId (roomId : option string) (sock : Socket) : Socket :=
  {| socket_roomId := roomId;
     socket_userName := socket_userName sock;
     socket_connected := socket_connected sock |}.

Definition with_membership (reg : gmap string (list (string * Participant)))
    (roomIds : string → option string) (st : State) : State :=
  {| activeRooms := reg;
     sockets := map_imap (λ id sock, Some (set_roomId (roomIds id) sock)) (sockets st);
     adapter := adapter st;
     Room := Room st |}.

(** ** Statements of the specification, as it words them *)

(** The roster sent to a joiner leaves the joiner out. *)
Definition roster_excludes_joiner (id roomId : string) (userName : JSValue)
    (st : State) : Prop :=
  ∀ users,
    Deliver id (EvRoomUsers users)
      ∈ (on_join_room false false id roomId userName st).2 →
    ∀ p, p ∈ users → socketId p ≠ id.

(** A connection sits in at most one room, and its [roomId] field names
    that room, or is absent when no room holds it. *)
Definition field_matches_registry (st : State) (id : string) : Prop :=
  (∀ r1 r2, in_room st id r1 → in_room st id r2 → r1 = r2)
  ∧ ∀ sock, sockets st !! id = Some sock →
      match socket_roomId sock with
      | Some roomId => in_room st id roomId
      | None => ∀ roomId, ¬ in_room st id roomId
      end.

(** An invocation that is a no-op: no registry mutation, no peer
    notification, no call on the collection, no error. *)
Definition is_noop (st : State) (outcome : State * list Action) : Prop :=
  activeRooms outcome.1 = activeRooms st
  ∧ (∀ to ev, Deliver to ev ∉ outcome.2)
  ∧ (∀ call, Db call ∉ outcome.2)
  ∧ Unhandled ∉ outcome.2.

(** After the disconnect of a connection, a second close notification
    and a redundant leave (the leave of lines 66-79 run for the socket the
    disconnect has already taken out of its room) are both no-ops. *)
Definition repeated_leave_is_noop (st : State) (id : string) : Prop :=
  ∀ db_throws db_throws' sock,
    let st1 := (socket_onclose db_throws id st).1 in
    sockets st1 !! id = Some sock →
    is_noop st1 (socket_onclose db_throws' id st1)
    ∧ is_noop st1 (leave_previous_room id sock st1).

(** A failing occupancy update is logged and nothing else: the membership
    stays and the joiner is told of no failure. *)
Definition update_failure_only_logged (id roomId : string) (userName : JSValue)
    (st : State) : Prop :=
  let '(st_ok, _) := on_join_room false false id roomId userName st in
  let '(st_ko, acts) := on_join_room false true id roomId userName st in
  activeRooms st_ko = activeRooms st_ok
  ∧ ∀ message, Deliver id (EvError message) ∉ acts.

(** A directed relay reaches its target when the target is a live
    connection, and reaches nobody otherwise. *)
Definition relay_reaches_live_target_only (k : Relay) (id targetSocketId : string)
    (payload : JSValue) (st : State) : Prop :=
  ∀ sock, sockets st !! id = Some sock →
    let acts := (on_relay k id targetSocketId payload st).2 in
    (is_connected st targetSocketId = true →
       Deliver targetSocketId (relayed k payload id sock) ∈ acts)
    ∧ (is_connected st targetSocketId = false → acts = []).

(** ** Concrete runs *)

Module Scenario.

Definition alice : JSValue := JString "Alice".
Definition bob : JSValue := JString "Bob".
Definition sdp : JSValue := JString "v=0 o=- 46117317 2 IN IP4 127.0.0.1".

(** A document as the schema defaults make it. *)
Definition fresh_room : RoomDoc := {| isActive := true; participants := 0 |}.

(** Rooms [abc], [x] and [y] exist; [gone] was soft-deleted through the
    REST route. *)
Definition rooms : gmap string RoomDoc :=
  <["abc" := fresh_room]> (<["x" := fresh_room]> (<["y" := fresh_room]>
  (<["gone" := room_soft_delete fresh_room]> ∅))).

(** [A] and [B] are connected and in no room. *)
Definition lobby : State :=
  (run [Connection "A"; Connection "B"] (initial rooms)).1.

(** [A] is alone in [x]; [B] is connected. *)
Definition alone_in_x : State :=
  (run [JoinRoom false false "A" "x" alice] lobby).1.

(** [A] then [B] joined [abc]. *)
Definition two_in_abc : State :=
  (run [JoinRoom false false "A" "abc" alice;
        JoinRoom false false "B" "abc" bob] lobby).1.

(** [A] is in [abc] and [B] in [x]. *)
Definition apart : State :=
  (run [JoinRoom false false "A" "abc" alice;
        JoinRoom false false "B" "x" alice] lobby).1.

(** [A] joined [abc] and its transport closed. *)
Definition after_disconnect : State :=
  (run [JoinRoom false false "A" "abc" alice; Disconnect false "A"] lobby).1.

(** [A] moved from [x] to [y] and then left. *)
Definition busy_day : list Op :=
  [Connection "A"; Connection "B";
   JoinRoom false false "A" "x" alice; JoinRoom false false "B" "x" bob;
   JoinRoom false false "A" "y" alice; Disconnect false "B"].

End Scenario.

(** ** Screen sharing *)

(** Lines 142-153.  The two notices go to [socket.to(socket.roomId)];
    neither handler touches the server state. *)
Inductive ScreenShareEvent : Type :=
  | EvScreenShareStarted (socketId : string) (userName : JSValue)
  | EvScreenShareStopped (socketId : string).

(** [socket.to(room)] when [room] may be [undefined]: the adapter holds no
    room of that name, so nobody is reached. *)
Definition room_recipients (st : State) (sender : string) (room : option string)
    : list string :=
  match room with
  | Some room => recipients st sender room
  | None => []
  end.

(** [socket.on('screen-share-started', ...)]: the sockets reached, each
    with the event it is handed. *)
Definition on_screen_share_started (id : string) (st : State)
    : list (string * ScreenShareEvent) :=
  match sockets st !! id with
  | None => []
  | Some sock =>
      (λ to, (to, EvScreenShareStarted id (socket_userName sock)))
        <$> room_recipients st id (socket_roomId sock)
  end.

(** [socket.on('screen-share-stopped', ...)] *)
Definition on_screen_share_stopped (id : string) (st : State)
    : list (string * ScreenShareEvent) :=
  match sockets st !! id with
  | None => []
  | Some sock =>
      (λ to, (to, EvScreenShareStopped id))
        <$> room_recipients st id (socket_roomId sock)
  end.

(** ** Well-formed servers *)

(** What every run keeps true of the registry, the socket objects and the
    adapter together: the membership invariant; no empty room; one record
    per socket id in a room; a record stored under a socket id carries
    that id and the [userName] the socket object holds; a connected
    member of a room sits in the adapter room of the same name; and an
    adapter room a socket sits in is its own or that of a room it is a
    member of. *)
Record server_inv (st : State) : Prop := {
  inv_membership : membership_inv st;
  inv_nonempty : rooms_nonempty (activeRooms st);
  inv_unique : ∀ roomId, NoDup (room_users st roomId).*1;
  inv_records : ∀ roomId id p, (id, p) ∈ room_users st roomId →
    socketId p = id
    ∧ ∃ sock, sockets st !! id = Some sock ∧ userName p = socket_userName sock;
  inv_adapter_member : ∀ id roomId, is_connected st id = true →
    in_room st id roomId → in_adapter_room st id roomId = true;
  inv_adapter_only : ∀ id roomId, in_adapter_room st id roomId = true →
    roomId = id ∨ in_room st id roomId;
}.

(** A successful join as a function on one room's participant list: the
    joiner leaves the list of the room it was in and goes last in the
    list of the room it joins. *)
Definition users_after_join (id : string) (sock : Socket) (roomId : string)
    (userName : JSValue) (r : string) (users : list (string * Participant))
    : list (string * Participant) :=
  let users :=
    if decide (leaving_room sock = Some r) then JSMap.delete id users else users in
  if decide (r = roomId)
  then JSMap.set id {| userName := userName; socketId := id |} users
  else users.

(** A disconnect, likewise. *)
Definition users_after_leave (id : string) (sock : Socket) (r : string)
    (users : list (string * Participant)) : list (string * Participant) :=
  if decide (leaving_room sock = Some r) then JSMap.delete id users else users.

Global Instance in_room_dec st id roomId : Decision (in_room st id roomId).
Proof. unfold in_room. apply _. Defined.

(** The socket on whose behalf an event is handled. *)
Definition op_socket (op : Op) : string :=
  match op with
  | Connection id => id
  | JoinRoom _ _ id _ _ => id
  | Offer id _ _ => id
  | Answer id _ _ => id
  | IceCandidate id _ _ => id
  | Disconnect _ id => id
  end.

(** ** More concrete runs *)

Module Tour.

(** [A] and [B] connect and join [abc]; [C] connects and stays out. *)
Definition meet : list Op :=
  [Connection "A"; Connection "B"; Connection "C";
   JoinRoom false false "A" "abc" Scenario.alice;
   JoinRoom false false "B" "abc" Scenario.bob].

(** After [meet], [B] moves on to [x]. *)
Definition meet_and_part : list Op :=
  meet ++ [JoinRoom false false "B" "x" Scenario.bob].

(** Only [A] connects and joins [x]. *)
Definition solo : list Op :=
  [Connection "A"; Connection "B"; JoinRoom false false "A" "x" Scenario.alice].

End Tour.

(** * The REST routes on rooms

    [src/routes/rooms.js] over the [Room] schema of [src/unnamed/part_000]:
    the token middleware, the two listings, the lookup "for joining" and
    the soft delete.  The collection is a list of documents in natural
    order; [jwt.verify] and the ObjectId cast are taken as given. *)

Module Api.

(** ** [String.prototype.replace] with a string pattern *)

(** What is left of [s] after a leading [pat]. *)
Fixpoint strip (pat s : string) : option string :=
  match pat with
  | EmptyString => Some s
  | String a pat' =>
      match s with
      | String b s' => if decide (a = b) then strip pat' s' else None
      | EmptyString => None
      end
  end.

(** [s.replace(pat, rep)]: the first occurrence of [pat] only. *)
Fixpoint replace_first (pat rep s : string) : string :=
  match strip pat s with
  | Some rest => rep +:+ rest
  | None =>
      match s with
      | EmptyString => EmptyString
      | String c s' => String c (replace_first pat rep s')
      end
  end.

(** [s.includes(pat)] *)
Fixpoint occurs (pat s : string) : bool :=
  match strip pat s with
  | Some _ => true
  | None =>
      match s with
      | EmptyString => false
      | String _ s' => occurs pat s'
      end
  end.

(** [req.header('Authorization')?.replace('Bearer ', '')] *)
Definition bearer (authorization : option string) : option string :=
  replace_first "Bearer " EmptyString <$> authorization.

(** [!token] *)
Definition no_token (token : option string) : bool :=
  match token with
  | Some t => negb (truthy t)
  | None => true
  end.

(** ** Documents *)

Record Settings : Type := {
  allowScreenShare : bool;
  allowChat : bool;
  allowRecording : bool;
  muteOnJoin : bool;
  videoOffOnJoin : bool;
}.

(** A [Room] document; times are milliseconds. *)
Record RoomRecord : Type := {
  _id : string;
  roomId : string;
  name : string;
  description : string;
  host : string;
  isPublic : bool;
  password : option string;
  maxParticipants : Z;
  participants : nat;
  settings : Settings;
  isActive : bool;
  endedAt : option nat;
  createdAt : nat;
  updatedAt : nat;
}.

Record UserRecord : Type := {
  username : string;
  email : string;
}.

(** The two collections; users are keyed by [_id]. *)
Record Db : Type := {
  rooms : list RoomRecord;
  users : gmap string UserRecord;
}.

(** [Room.findOne(filter)]: the first match in natural order. *)
Definition findOne (P : RoomRecord → Prop) `{∀ r, Decision (P r)}
    (l : list RoomRecord) : option RoomRecord :=
  head (filter P l).

(** [room.save()] of a document read from the collection. *)
Definition save (room : RoomRecord) (l : list RoomRecord) : list RoomRecord :=
  (λ r, if decide (_id r = _id room) then room else r) <$> l.

(** [.sort({ createdAt: -1 })] *)
Definition newer_first (a b : RoomRecord) : Prop := (createdAt b ≤ createdAt a)%nat.

Global Instance newer_first_dec : RelDecision newer_first.
Proof. intros a b. unfold newer_first. apply _. Defined.

(** What the signalling layer sees of the collection: documents by
    [_id], with their [isActive] and [participants]. *)
Definition signalling_view (db : Db) : gmap string RoomDoc :=
  list_to_map ((λ r, (_id r, Build_RoomDoc (isActive r) (participants r)))
                 <$> rooms db).

(** ** Tokens and users *)

(** [jwt.verify(token, secret)]: it throws, or returns a payload whose
    [userId] may be missing. *)
Inductive Decoded : Type :=
  | BadToken
  | Payload (userId : option string).

(** The outcome of a lookup by id. *)
Inductive Lookup (A : Type) : Type :=
  | Throws
  | Null
  | Doc (a : A).
Arguments Throws {A}.
Arguments Null {A}.
Arguments Doc {A} a.

(** [User.findById(id)]: an id that does not cast to an ObjectId throws,
    [undefined] finds nothing. *)
Definition User_findById (valid_id : string → bool) (db : Db) (id : option string)
    : Lookup (string * UserRecord) :=
  match id with
  | None => Null
  | Some id =>
      if valid_id id then
        match users db !! id with
        | Some user => Doc (id, user)
        | None => Null
        end
      else Throws
  end.

(** ** Responses *)

Record HostJson : Type := {
  h_id : string;
  h_username : string;
}.

(** The formatted room of the three reading routes; a key a route does
    not send is [None]. *)
Record RoomJson : Type := {
  j_id : string;
  j_roomId : string;
  j_name : string;
  j_description : string;
  j_host : HostJson;
  j_isPublic : option bool;
  j_maxParticipants : Z;
  j_participants : nat;
  j_settings : Settings;
  j_roomUrl : string;
  j_createdAt : nat;
  j_isActive : option bool;
  j_requiresAuth : option bool;
}.

Record Pagination : Type := {
  currentPage : positive;
  totalPages : Z;
  totalRooms : nat;
  hasNext : bool;
}.

Inductive Body : Type :=
  | Message (message : string)
  | RoomBody (room : RoomJson)
  | RoomsBody (rooms : list RoomJson) (pagination : option Pagination).

Record Response : Type := {
  status : nat;
  body : Body;
}.

(** The virtual [roomUrl]. *)
Definition roomUrl (room : RoomRecord) : string := "/room/" +:+ roomId room.

(** [.populate('host', 'username email')] followed by the reads
    [room.host._id] and [room.host.username]: a host that is no longer in
    the collection populates as [null] and the read throws. *)
Definition populated_host (db : Db) (room : RoomRecord) : option HostJson :=
  (λ user, {| h_id := host room; h_username := username user |})
    <$> users db !! host room.

Definition format (isPublic_key isActive_key requiresAuth_key : bool)
    (db : Db) (room : RoomRecord) : option RoomJson :=
  (λ h, {| j_id := _id room;
           j_roomId := roomId room;
           j_name := name room;
           j_description := description room;
           j_host := h;
           j_isPublic := if isPublic_key then Some (isPublic room) else None;
           j_maxParticipants := maxParticipants room;
           j_participants := participants room;
           j_settings := settings room;
           j_roomUrl := roomUrl room;
           j_createdAt := createdAt room;
           j_isActive := if isActive_key then Some (isActive room) else None;
           j_requiresAuth :=
             if requiresAuth_key then Some (negb (isPublic room)) else None |})
    <$> populated_host db room.

(** ** The middleware, lines 9-35 *)

Inductive Auth : Type :=
  | Unauthorized (message : string)
  | Next (user : string).

Definition authenticateToken (verify : string → Decoded) (valid_id : string → bool)
    (authorization : option string) (db : Db) : Auth :=
  let token := bearer authorization in
  if no_token token then Unauthorized "Access token required"
  else
    match verify (default EmptyString token) with
    | BadToken => Unauthorized "Invalid token"
    | Payload userId =>
        match User_findById valid_id db userId with
        | Doc (id, _) => Next id
        | Null => Unauthorized "Invalid token"
        | Throws => Unauthorized "Invalid token"
        end
    end.

(** ** [GET /my-rooms], lines 111-148 *)

(** The handler once the middleware has set [req.user]; [db_throws] says
    whether the awaited [Room.find] rejects. *)
Definition my_rooms (db_throws : bool) (user : string) (db : Db) : Response :=
  let failed :=
    {| status := 500; body := Message "Server error while fetching rooms" |} in
  if db_throws then failed
  else
    let found :=
      merge_sort newer_first
        (filter (λ r, host r = user ∧ isActive r = true) (rooms db)) in
    match mapM (format true true false db) found with
    | Some formattedRooms =>
        {| status := 200; body := RoomsBody formattedRooms None |}
    | None => failed
    end.

(** ** [GET /room/:roomId], lines 151-212 *)

(** [db_throws] says whether the awaited [Room.findOne] rejects; the
    rejection lands in the outer [catch]. *)
Definition get_room (db_throws : bool) (verify : string → Decoded)
    (valid_id : string → bool) (authorization : option string) (id : string)
    (db : Db) : Response :=
  let failed :=
    {| status := 500; body := Message "Server error while fetching room" |} in
  if db_throws then failed
  else
    match findOne (λ r, roomId r = id ∧ isActive r = true) (rooms db) with
    | None => {| status := 404; body := Message "Room not found" |}
    | Some room =>
        let refused :=
          if isPublic room then None
          else
            let token := bearer authorization in
            if no_token token then
              Some "Authentication required for private room"
            else
              match verify (default EmptyString token) with
              | BadToken => Some "Invalid authentication token"
              | Payload userId =>
                  match User_findById valid_id db userId with
                  | Throws => Some "Invalid authentication token"
                  | _ => None
                  end
              end in
        match refused with
        | Some message => {| status := 401; body := Message message |}
        | None =>
            match format true false true db room with
            | Some formatted => {| status := 200; body := RoomBody formatted |}
            | None => failed
            end
        end
    end.

(** ** [GET /public], lines 215-267 *)

(** The documents the query matches, in the order of the sort; among
    equal [createdAt]s the order is the one this sort leaves. *)
Definition public_rooms (db : Db) : list RoomRecord :=
  merge_sort newer_first
    (filter (λ r, isPublic r = true ∧ isActive r = true) (rooms db)).

(** [.skip(skip).limit(limit)] *)
Definition window (skip limit : nat) (found : list RoomRecord) : list RoomRecord :=
  take limit (drop skip found).

(** A query value as the handler reads it, twice: arithmetic ([page - 1],
    [* limit], [/ limit]) coerces the string to a number, [parseInt]
    reads its leading integer, and the two may differ (['1e1'] is 10 to
    the first and 1 to the second; an absent value is the default number,
    the same to both).  Both readings are taken to be positive integers. *)
Record QueryValue : Type := {
  as_number : positive;
  as_integer : positive;
}.

(** A value written as a plain decimal integer. *)
Definition plain (n : positive) : QueryValue :=
  {| as_number := n; as_integer := n |}.

(** [find_throws] and [count_throws] say whether the awaited [Room.find]
    and [Room.countDocuments] reject. *)
Definition get_public (find_throws count_throws : bool) (page limit : QueryValue)
    (db : Db) : Response :=
  let failed :=
    {| status := 500;
       body := Message "Server error while fetching public rooms" |} in
  let skip :=
    ((Pos.to_nat (as_number page) - 1) * Pos.to_nat (as_number limit))%nat in
  if find_throws then failed
  else
    let rooms := window skip (Pos.to_nat (as_integer limit)) (public_rooms db) in
    if count_throws then failed
    else
      let totalRooms :=
        length (filter (λ r, isPublic r = true ∧ isActive r = true)
                  (Api.rooms db)) in
      match mapM (format false false false db) rooms with
      | Some formattedRooms =>
          {| status := 200;
             body := RoomsBody formattedRooms
                       (Some {| currentPage := as_integer page;
                                totalPages :=
                                  Qround.Qceiling
                                    (QArith_base.Qmake (Z.of_nat totalRooms)
                                       (as_number limit));
                                totalRooms := totalRooms;
                                hasNext :=
                                  bool_decide
                                    (skip + length rooms < totalRooms)%nat |}) |}
      | None => failed
      end.

(** ** [DELETE /:roomId], lines 330-359 *)

(** [room.isActive = false; room.endedAt = new Date()], and the
    [updatedAt] that [timestamps] maintains. *)
Definition ended (now : nat) (room : RoomRecord) : RoomRecord :=
  {| _id := _id room; roomId := roomId room; name := name room;
     description := description room; host := host room;
     isPublic := isPublic room; password := password room;
     maxParticipants := maxParticipants room;
     participants := participants room; settings := settings room;
     isActive := false; endedAt := Some now;
     createdAt := createdAt room; updatedAt := now |}.

(** The handler once the middleware has set [req.user]; [db_throws] says
    whether an awaited model call rejects. *)
Definition delete_room (db_throws : bool) (now : nat) (user id : string) (db : Db)
    : Db * Response :=
  if db_throws then
    (db, {| status := 500; body := Message "Server error while deleting room" |})
  else
    match findOne (λ r, roomId r = id ∧ host r = user) (rooms db) with
    | None =>
        (db, {| status := 404;
                body := Message "Room not found or you are not the host" |})
    | Some room =>
        ({| rooms := save (ended now room) (rooms db); users := users db |},
         {| status := 200; body := Message "Room deleted successfully" |})
    end.

(** The whole route: middleware, then handler. *)
Definition route_delete (verify : string → Decoded) (valid_id : string → bool)
    (db_throws : bool) (now : nat) (authorization : option string) (id : string)
    (db : Db) : Db * Response :=
  match authenticateToken verify valid_id authorization db with
  | Unauthorized message => (db, {| status := 401; body := Message message |})
  | Next user => delete_room db_throws now user id db
  end.

Definition route_my_rooms (db_throws : bool) (verify : string → Decoded)
    (valid_id : string → bool) (authorization : option string) (db : Db)
    : Response :=
  match authenticateToken verify valid_id authorization db with
  | Unauthorized message => {| status := 401; body := Message message |}
  | Next user => my_rooms db_throws user db
  end.

(** The unique index on [roomId], and the primary key. *)
Definition keys_unique (db : Db) : Prop :=
  NoDup (roomId <$> rooms db) ∧ NoDup (_id <$> rooms db).

End Api.

(** The rooms a response lists. *)
Definition listed (response : Api.Response) : list Api.RoomJson :=
  match Api.body response with
  | Api.RoomsBody rooms _ => rooms
  | _ => []
  end.

(** ** A small deployment *)

Module Site.

Definition defaults : Api.Settings :=
  {| Api.allowScreenShare := true; Api.allowChat := true;
     Api.allowRecording := false; Api.muteOnJoin := false;
     Api.videoOffOnJoin := false |}.

Definition room (id uuid title owner : string) (public : bool)
    (secret : option string) (created : nat) : Api.RoomRecord :=
  {| Api._id := id; Api.roomId := uuid; Api.name := title;
     Api.description := EmptyString; Api.host := owner;
     Api.isPublic := public; Api.password := secret;
     Api.maxParticipants := 10; Api.participants := 0;
     Api.settings := defaults; Api.isActive := true; Api.endedAt := None;
     Api.createdAt := created; Api.updatedAt := created |}.

Definition standup : Api.RoomRecord :=
  room "65a000000000000000000001" "uuid-standup" "Standup" "ann" true None 100.
Definition board : Api.RoomRecord :=
  room "65a000000000000000000002" "uuid-board" "Board" "ann" false (Some "s3cret") 200.
Definition lounge : Api.RoomRecord :=
  room "65a000000000000000000003" "uuid-lounge" "Lounge" "bob" true None 300.
(** A public room whose host has been removed from the users. *)
Definition orphan : Api.RoomRecord :=
  room "65a000000000000000000004" "uuid-orphan" "Orphan" "zed" true None 50.

Definition people : gmap string Api.UserRecord :=
  <["ann" := {| Api.username := "ann"; Api.email := "ann@example.org" |}]>
  (<["bob" := {| Api.username := "bob"; Api.email := "bob@example.org" |}]> ∅).

Definition db : Api.Db :=
  {| Api.rooms := [standup; board; lounge]; Api.users := people |}.

Definition db_with_orphan : Api.Db :=
  {| Api.rooms := [standup; orphan; lounge]; Api.users := people |}.

(** Tokens: one per user, one that verifies for a user that is gone, and
    nothing else verifies. *)
Definition verify (token : string) : Api.Decoded :=
  if decide (token = "token-ann") then Api.Payload (Some "ann")
  else if decide (token = "token-bob") then Api.Payload (Some "bob")
  else if decide (token = "token-zed") then Api.Payload (Some "zed")
  else Api.BadToken.

Definition valid_id (id : string) : bool := bool_decide (id ≠ "not an id").

(** The pagination block of a response, if it has one. *)
Definition pagination_of (response : Api.Response) : Api.Pagination :=
  match Api.body response with
  | Api.RoomsBody _ (Some pagination) => pagination
  | _ => {| Api.currentPage := 1; Api.totalPages := 0;
            Api.totalRooms := 0; Api.hasNext := false |}
  end.

End Site.

(** Closing a closed goal by running the definitions. *)
Ltac by_evaluation :=
  first [ vm_compute; reflexivity
        | discriminate
        | eapply bool_decide_unpack; vm_compute; exact I ].

(** * Facts *)

(** ** [Map] operations *)

Section JSMapFacts.
Context {V : Type}.
Implicit Types (m : list (string * V)) (k : string) (v : V).

Lemma elem_of_keys_delete k k' m :
  k' ∈ (JSMap.delete k m).*1 ↔ k' ∈ m.*1 ∧ k' ≠ k.
Proof.
  unfold JSMap.delete. rewrite !list_elem_of_fmap. split.
  - intros [[a b] [-> [Hne Hin]%list_elem_of_filter]]. split; [|done].
    by exists (a, b).
  - intros [[[a b] [-> Hin]] Hne]. exists (a, b). split; [done|].
    by apply list_elem_of_filter.
Qed.

Lemma elem_of_keys_set k v k' m :
  k' ∈ (JSMap.set k v m).*1 ↔ k' ∈ m.*1 ∨ k' = k.
Proof.
  induction m as [|[a b] m IH]; simpl.
  - rewrite list_elem_of_singleton. split; [by right|].
    intros [H| ->]; [by apply elem_of_nil in H|done].
  - case_decide as Hk; simpl.
    + subst a. rewrite !elem_of_cons. tauto.
    + rewrite !elem_of_cons, IH. tauto.
Qed.

Lemma elem_of_set k v m : (k, v) ∈ JSMap.set k v m.
Proof.
  induction m as [|[a b] m IH]; simpl.
  - by apply list_elem_of_singleton.
  - case_decide; [apply list_elem_of_here | by apply list_elem_of_further].
Qed.

Lemma set_not_nil k v m : JSMap.set k v m ≠ [].
Proof. destruct m as [|[a b] m]; simpl; [done|]. by case_decide. Qed.

Lemma elem_of_values_set k v m : v ∈ JSMap.values (JSMap.set k v m).
Proof.
  unfold JSMap.values. apply list_elem_of_fmap. exists (k, v).
  split; [done | apply elem_of_set].
Qed.

Lemma delete_nil_keys k k' m : JSMap.delete k m = [] → k' ∈ m.*1 → k' = k.
Proof.
  intros Hnil Hin. destruct (decide (k' = k)) as [|Hne]; [done|].
  assert (k' ∈ (JSMap.delete k m).*1) as H by (by apply elem_of_keys_delete).
  rewrite Hnil in H. by apply elem_of_nil in H.
Qed.

Lemma delete_absent k m : k ∉ m.*1 → JSMap.delete k m = m.
Proof.
  intros Hk. unfold JSMap.delete. induction m as [|[a b] m IH]; [done|].
  rewrite filter_cons. simpl in *. rewrite not_elem_of_cons in Hk.
  destruct Hk as [Hne Hk]. rewrite decide_True by done.
  by rewrite IH.
Qed.

Lemma size_0_nil m : JSMap.size m = 0 ↔ m = [].
Proof. unfold JSMap.size. by destruct m. Qed.

End JSMapFacts.

(** ** The registry *)

Section Registry.
Implicit Types (reg : gmap string (list (string * Participant))).

Lemma reg_in_room_remove reg id roomId s r :
  reg_in_room (registry_remove id roomId reg) s r
  ↔ reg_in_room reg s r ∧ ¬ (s = id ∧ r = roomId).
Proof.
  unfold reg_in_room, registry_remove.
  destruct (reg !! roomId) as [roomUsers|] eqn:Hreg; simpl.
  - case_decide as Hsize.
    + apply size_0_nil in Hsize.
      destruct (decide (r = roomId)) as [->|Hr].
      * rewrite lookup_delete_eq, Hreg. simpl. split.
        { intros H. by apply elem_of_nil in H. }
        intros [Hin Hne]. exfalso. apply Hne. split; [|done].
        by eapply delete_nil_keys.
      * rewrite lookup_delete_ne by done. naive_solver.
    + destruct (decide (r = roomId)) as [->|Hr].
      * rewrite lookup_insert_eq, Hreg. simpl.
        rewrite elem_of_keys_delete. naive_solver.
      * rewrite lookup_insert_ne by done. naive_solver.
  - split; [|naive_solver]. intros H. split; [done|].
    intros [-> ->]. rewrite Hreg in H. simpl in H. by apply elem_of_nil in H.
Qed.

Lemma reg_in_room_add reg id roomId userName s r :
  reg_in_room (registry_add id roomId userName reg) s r
  ↔ reg_in_room reg s r ∨ (s = id ∧ r = roomId).
Proof.
  unfold reg_in_room, registry_add.
  destruct (decide (r = roomId)) as [->|Hr].
  - rewrite lookup_insert_eq. simpl. rewrite elem_of_keys_set. naive_solver.
  - rewrite lookup_insert_ne by done. naive_solver.
Qed.

Lemma rooms_nonempty_remove reg id roomId :
  rooms_nonempty reg → rooms_nonempty (registry_remove id roomId reg).
Proof.
  intros Hne r users. unfold registry_remove.
  destruct (reg !! roomId) as [roomUsers|] eqn:Hreg; [|apply Hne].
  simpl. case_decide as Hsize.
  - rewrite lookup_delete_Some. intros [_ H]. by eapply Hne.
  - rewrite lookup_insert_Some. intros [[_ <-]|[_ H]]; [|by eapply Hne].
    intros Hnil. apply Hsize. by apply size_0_nil.
Qed.

Lemma rooms_nonempty_add reg id roomId userName :
  rooms_nonempty reg → rooms_nonempty (registry_add id roomId userName reg).
Proof.
  intros Hne r users. unfold registry_add.
  rewrite lookup_insert_Some. intros [[_ <-]|[_ H]]; [|by eapply Hne].
  apply set_not_nil.
Qed.

Lemma rooms_nonempty_empty : rooms_nonempty ∅.
Proof. intros r users. by rewrite lookup_empty. Qed.

End Registry.

(** ** What each handler does to the state *)

Section Handlers.
Implicit Types (st : State) (sock : Socket) (id roomId : string).

Lemma db_shrinks_refl db : db_shrinks db db.
Proof. by intros r. Qed.

Lemma db_shrinks_alter db f roomId : db_shrinks db (alter f roomId db).
Proof.
  intros r [doc H]. apply lookup_alter_Some in H.
  destruct H as [(_ & doc' & H & _)|[_ H]]; eauto.
Qed.

Lemma db_shrinks_delete db roomId : db_shrinks db (delete roomId db).
Proof. intros r [doc H]. apply lookup_delete_Some in H. naive_solver. Qed.

Lemma ids_truthy_shrinks db db' :
  db_shrinks db db' → ids_truthy db → ids_truthy db'.
Proof. intros Hs Ht r H. by apply Ht, Hs. Qed.

Lemma leave_previous_room_state id sock st :
  let st' := (leave_previous_room id sock st).1 in
  activeRooms st' = registry_leave id sock (activeRooms st)
  ∧ sockets st' = sockets st ∧ Room st' = Room st.
Proof.
  unfold leave_previous_room, registry_leave, leaving_room, registry_remove.
  destruct (socket_roomId sock) as [p|]; [|done].
  destruct (truthy p); [|done]. simpl.
  destruct (activeRooms st !! p) as [roomUsers|]; [|done].
  by case_decide.
Qed.

Lemma add_user_state id roomId userName st :
  let st' := (add_user id roomId userName st).1 in
  activeRooms st' = registry_add id roomId userName (activeRooms st)
  ∧ sockets st' = alter (set_joined roomId userName) id (sockets st)
  ∧ Room st' = Room st.
Proof. done. Qed.

Lemma join_found_state update_throws id sock roomId userName st :
  let st' := (join_found update_throws id sock roomId userName st).1 in
  activeRooms st'
  = registry_add id roomId userName (registry_leave id sock (activeRooms st))
  ∧ sockets st' = alter (set_joined roomId userName) id (sockets st)
  ∧ db_shrinks (Room st) (Room st').
Proof.
  unfold join_found.
  pose proof (leave_previous_room_state id sock st) as (Hreg & Hsock & Hdb).
  destruct (leave_previous_room id sock st) as [st1 leaving].
  cbn [fst] in Hreg, Hsock, Hdb.
  pose proof (add_user_state id roomId userName st1) as (Hreg2 & Hsock2 & Hdb2).
  destruct (add_user id roomId userName st1) as [st2 roomUsers].
  cbn [fst] in Hreg2, Hsock2, Hdb2.
  rewrite Hreg in Hreg2. rewrite Hsock in Hsock2. rewrite Hdb in Hdb2.
  destruct update_throws; cbn [fst]; split_and!; try done.
  - rewrite Hdb2. apply db_shrinks_refl.
  - cbn. rewrite Hdb2. apply db_shrinks_alter.
Qed.

Lemma on_disconnect_state db_throws id sock st :
  sockets st !! id = Some sock →
  let st' := (on_disconnect db_throws id st).1 in
  activeRooms st' = registry_leave id sock (activeRooms st)
  ∧ sockets st' = sockets st
  ∧ adapter st' = adapter st
  ∧ db_shrinks (Room st) (Room st').
Proof.
  intros Hsock. unfold on_disconnect, registry_leave, leaving_room, registry_remove.
  rewrite Hsock.
  destruct (socket_roomId sock) as [p|];
    [|split_and!; auto using db_shrinks_refl].
  destruct (truthy p); [|split_and!; auto using db_shrinks_refl].
  destruct (activeRooms st !! p) as [roomUsers|];
    [|split_and!; auto using db_shrinks_refl].
  simpl. case_decide; destruct db_throws; simpl;
    split_and!; try done;
    auto using db_shrinks_refl, db_shrinks_alter, db_shrinks_delete.
Qed.

End Handlers.

(** ** Invariants of a run *)

Section Invariants.
Implicit Types (st : State) (sock : Socket) (id roomId : string).

Lemma reg_in_room_leave reg id sock s r :
  reg_in_room (registry_leave id sock reg) s r
  ↔ reg_in_room reg s r ∧ ¬ (s = id ∧ leaving_room sock = Some r).
Proof.
  unfold registry_leave. destruct (leaving_room sock) as [p|].
  - rewrite reg_in_room_remove. naive_solver.
  - naive_solver.
Qed.

Lemma rooms_nonempty_leave reg id sock :
  rooms_nonempty reg → rooms_nonempty (registry_leave id sock reg).
Proof.
  unfold registry_leave. destruct (leaving_room sock); [|done].
  apply rooms_nonempty_remove.
Qed.

Lemma leaving_room_Some sock roomId :
  leaving_room sock = Some roomId
  ↔ socket_roomId sock = Some roomId ∧ truthy roomId = true.
Proof.
  unfold leaving_room. destruct (socket_roomId sock) as [p|].
  - destruct (truthy p) eqn:Hp; split.
    + by intros [= <-].
    + by intros [[= <-] _].
    + done.
    + intros [[= <-] Ht]. congruence.
  - split; [done | by intros [? _]].
Qed.

Lemma on_join_room_cases find_throws update_throws id roomId userName st :
  (on_join_room find_throws update_throws id roomId userName st).1 = st
  ∨ ∃ sock room, sockets st !! id = Some sock ∧ Room st !! roomId = Some room
      ∧ find_throws = false
      ∧ (on_join_room find_throws update_throws id roomId userName st).1
        = (join_found update_throws id sock roomId userName st).1.
Proof.
  unfold on_join_room. destruct (sockets st !! id) as [sock|]; [|by left].
  destruct find_throws; [by left|].
  destruct (Room st !! roomId) as [room|]; [|by left].
  right. exists sock, room. split_and!; try done.
  by destruct (join_found update_throws id sock roomId userName st).
Qed.

Lemma step_rooms_nonempty op st :
  rooms_nonempty (activeRooms st) → rooms_nonempty (activeRooms (step op st).1).
Proof.
  intros Hne. destruct op as [id|ft ut id roomId userName|id t o|id t a|id t c|dt id];
    simpl.
  - unfold on_connection. by destruct (sockets st !! id).
  - destruct (on_join_room_cases ft ut id roomId userName st)
      as [->|(sock & room & _ & _ & _ & ->)]; [done|].
    destruct (join_found_state ut id sock roomId userName st) as (-> & _ & _).
    by apply rooms_nonempty_add, rooms_nonempty_leave.
  - unfold on_offer. by destruct (sockets st !! id).
  - unfold on_answer. by destruct (sockets st !! id).
  - unfold on_ice_candidate. by destruct (sockets st !! id).
  - unfold disconnect.
    destruct (sockets (transport_close id st) !! id) as [sock|] eqn:Hsock.
    + destruct (on_disconnect_state dt id sock _ Hsock) as (-> & _ & _ & _).
      by apply rooms_nonempty_leave.
    + unfold on_disconnect. by rewrite Hsock.
Qed.

(** An invariant of every step is an invariant of every run. *)
Lemma run_invariant (P : State → Prop) :
  (∀ op st, P st → P (step op st).1) →
  ∀ ops st, P st → P (run ops st).1.
Proof.
  intros Hstep ops. induction ops as [|op ops IH]; intros st HP; simpl; [done|].
  specialize (Hstep op st HP). destruct (step op st) as [st' acts].
  specialize (IH st' Hstep). by destruct (run ops st').
Qed.

Lemma run_rooms_nonempty ops st :
  rooms_nonempty (activeRooms st) → rooms_nonempty (activeRooms (run ops st).1).
Proof.
  apply (run_invariant (λ st, rooms_nonempty (activeRooms st))).
  apply step_rooms_nonempty.
Qed.

Lemma membership_inv_join update_throws id sock room roomId userName st :
  sockets st !! id = Some sock → Room st !! roomId = Some room →
  membership_inv st →
  membership_inv (join_found update_throws id sock roomId userName st).1.
Proof.
  intros Hsock Hroom [I1 I2 I3].
  destruct (join_found_state update_throws id sock roomId userName st)
    as (Hreg & Hsocks & Hdb).
  assert (truthy roomId = true) as Htr by (apply I3; eauto).
  split.
  - intros s r. unfold in_room, room_users. rewrite Hreg, Hsocks.
    fold (reg_in_room (registry_add id roomId userName
            (registry_leave id sock (activeRooms st))) s r).
    rewrite reg_in_room_add, reg_in_room_leave.
    intros [[Hin Hnot]|[-> ->]].
    + destruct (I1 s r Hin) as (sock' & Hs & Hfield & Ht).
      destruct (decide (s = id)) as [->|Hne].
      * exfalso. apply Hnot. split; [done|]. apply leaving_room_Some.
        rewrite Hsock in Hs. by simplify_eq.
      * exists sock'. by rewrite lookup_alter_ne.
    + exists (set_joined roomId userName sock).
      rewrite lookup_alter_eq, Hsock. done.
  - intros s sock' r. unfold in_room, room_users. rewrite Hreg, Hsocks.
    fold (reg_in_room (registry_add id roomId userName
            (registry_leave id sock (activeRooms st))) s r).
    rewrite reg_in_room_add, reg_in_room_leave.
    destruct (decide (s = id)) as [->|Hne].
    + rewrite lookup_alter_eq, Hsock. simpl. intros [= <-] _ [= <-]. by right.
    + rewrite lookup_alter_ne by done. intros Hs Hc Hf. left. split.
      * by eapply I2.
      * naive_solver.
  - by eapply ids_truthy_shrinks.
Qed.

Lemma membership_inv_step op st :
  membership_inv st → membership_inv (step op st).1.
Proof.
  intros Hinv.
  destruct op as [id|ft ut id roomId userName|id t o|id t a|id t c|dt id]; simpl.
  - unfold on_connection. destruct (sockets st !! id) as [sock|] eqn:Hsock; [done|].
    destruct Hinv as [I1 I2 I3]. split; simpl.
    + intros s r Hin. destruct (I1 s r Hin) as (sock' & Hs & Hrest).
      exists sock'. rewrite lookup_insert_ne; [done|]. congruence.
    + intros s sock' r. destruct (decide (s = id)) as [->|Hne].
      * rewrite lookup_insert_eq. by intros [= <-].
      * rewrite lookup_insert_ne by done. apply I2.
    + done.
  - destruct (on_join_room_cases ft ut id roomId userName st)
      as [->|(sock & room & Hsock & Hroom & _ & ->)]; [done|].
    by eapply membership_inv_join.
  - unfold on_offer. by destruct (sockets st !! id).
  - unfold on_answer. by destruct (sockets st !! id).
  - unfold on_ice_candidate. by destruct (sockets st !! id).
  - unfold disconnect. destruct Hinv as [I1 I2 I3].
    destruct (sockets st !! id) as [sock|] eqn:Hsock.
    + assert (sockets (transport_close id st) !! id = Some (set_closed sock)) as Hc.
      { simpl. by rewrite lookup_alter_eq, Hsock. }
      destruct (on_disconnect_state dt id _ _ Hc) as (Hreg & Hsocks & _ & Hdb).
      change (registry_leave id (set_closed sock)) with (registry_leave id sock) in Hreg.
      simpl in Hreg, Hsocks, Hdb.
      split.
      * intros s r. unfold in_room, room_users. rewrite Hreg, Hsocks.
        fold (reg_in_room (registry_leave id sock (activeRooms st)) s r).
        rewrite reg_in_room_leave. intros [Hin Hnot].
        destruct (I1 s r Hin) as (sock' & Hs & Hfield & Ht).
        destruct (decide (s = id)) as [->|Hne].
        { exfalso. apply Hnot. split; [done|]. apply leaving_room_Some.
          rewrite Hsock in Hs. by simplify_eq. }
        exists sock'. by rewrite lookup_alter_ne.
      * intros s sock' r. unfold in_room, room_users. rewrite Hreg, Hsocks.
        fold (reg_in_room (registry_leave id sock (activeRooms st)) s r).
        rewrite reg_in_room_leave.
        destruct (decide (s = id)) as [->|Hne].
        { rewrite lookup_alter_eq, Hsock. simpl. by intros [= <-]. }
        rewrite lookup_alter_ne by done. intros Hs Hcn Hf. split.
        { by eapply I2. }
        naive_solver.
      * by eapply ids_truthy_shrinks.
    + assert (sockets (transport_close id st) !! id = None) as Hc.
      { simpl. by rewrite lookup_alter_eq, Hsock. }
      unfold on_disconnect. rewrite Hc. simpl.
      assert (alter set_closed id (sockets st) = sockets st) as Halt.
      { apply map_eq. intros k. destruct (decide (k = id)) as [->|Hne].
        - by rewrite lookup_alter_eq, Hsock.
        - by rewrite lookup_alter_ne. }
      split; simpl.
      * intros s r Hin. rewrite Halt. by apply I1.
      * intros s sock' r. rewrite Halt. apply I2.
      * done.
Qed.

Lemma membership_inv_initial db : ids_truthy db → membership_inv (initial db).
Proof.
  intros Hdb. split; simpl; [| |done].
  - intros s r. unfold in_room, room_users. simpl. rewrite lookup_empty.
    intros H. by apply elem_of_nil in H.
  - intros s sock r. by rewrite lookup_empty.
Qed.

Lemma run_membership_inv ops st : membership_inv st → membership_inv (run ops st).1.
Proof. apply (run_invariant membership_inv), membership_inv_step. Qed.

End Invariants.

(** ** Emission *)

Section Emission.
Implicit Types (st : State) (sock : Socket) (id room : string).

Lemma elem_of_recipients st sender room id :
  id ∈ recipients st sender room ↔ reached st sender room id.
Proof.
  unfold recipients, reached. rewrite list_elem_of_filter. split.
  - intros [(Hne & Hroom & Hconn) _]. done.
  - intros (Hne & Hconn & Hroom). split; [done|].
    unfold in_adapter_room in Hroom.
    destruct (adapter st !! id) as [rooms|] eqn:Had; [|done].
    apply list_elem_of_fmap. exists (id, rooms). split; [done|].
    by apply elem_of_map_to_list.
Qed.

Lemma elem_of_socket_to_emit st sender room ev a :
  a ∈ socket_to_emit st sender room ev
  ↔ ∃ id, a = Deliver id ev ∧ reached st sender room id.
Proof.
  unfold socket_to_emit. rewrite list_elem_of_fmap.
  by setoid_rewrite elem_of_recipients.
Qed.

Lemma socket_to_emit_nil st sender room ev :
  (∀ id, ¬ reached st sender room id) → socket_to_emit st sender room ev = [].
Proof.
  intros Hnone. destruct (socket_to_emit st sender room ev) as [|a l] eqn:E; [done|].
  assert (a ∈ socket_to_emit st sender room ev) as Ha.
  { rewrite E. apply list_elem_of_here. }
  apply elem_of_socket_to_emit in Ha as (id & _ & Hr). by destruct (Hnone id).
Qed.

Lemma on_relay_eq k id target payload st sock :
  sockets st !! id = Some sock →
  on_relay k id target payload st
  = (st, socket_to_emit st id target (relayed k payload id sock)).
Proof.
  intros Hsock. destruct k; simpl;
    unfold on_offer, on_answer, on_ice_candidate; by rewrite Hsock.
Qed.

Lemma on_relay_state k id target payload st :
  (on_relay k id target payload st).1 = st.
Proof.
  destruct k; simpl; unfold on_offer, on_answer, on_ice_candidate;
    by destruct (sockets st !! id).
Qed.

End Emission.

(** * The signalling relay *)

Section RelayClaims.
Implicit Types (st : State) (sock : Socket) (id target : string) (k : Relay).

Lemma is_connected_with_membership reg roomIds st id :
  is_connected (with_membership reg roomIds st) id = is_connected st id.
Proof.
  unfold is_connected, with_membership. simpl. rewrite map_lookup_imap.
  by destruct (sockets st !! id).
Qed.

Lemma recipients_with_membership reg roomIds st sender room :
  recipients (with_membership reg roomIds st) sender room
  = recipients st sender room.
Proof.
  unfold recipients. apply list_filter_iff. intros x.
  by rewrite is_connected_with_membership.
Qed.

(** C9, as the code has it.  A directed relay ([offer], [answer],
    [ice-candidate]) from socket [id] with target string [target] changes
    nothing on the server and hands the body, unchanged and tagged with
    [id], to exactly the sockets of the namespace other than [id] that sit
    in the adapter room named [target].  So a live target other than the
    sender, sitting in the room of its own id, receives it; when no such
    socket sits in that room nothing is delivered at all; and the sender
    itself never receives anything, neither an error nor an
    acknowledgement. *)
Theorem directed_relay_reaches_adapter_room k id target payload st sock :
  sockets st !! id = Some sock →
  let '(st', acts) := on_relay k id target payload st in
  st' = st
  ∧ (∀ a, a ∈ acts ↔
       ∃ B, a = Deliver B (relayed k payload id sock) ∧ reached st id target B)
  ∧ (target ≠ id → is_connected st target = true →
     in_adapter_room st target target = true →
     Deliver target (relayed k payload id sock) ∈ acts)
  ∧ ((∀ B, ¬ reached st id target B) → acts = [])
  ∧ (∀ ev, Deliver id ev ∉ acts).
Proof.
  intros Hsock. rewrite (on_relay_eq _ _ _ _ _ _ Hsock). split_and!.
  - done.
  - intros a. apply elem_of_socket_to_emit.
  - intros Hne Hconn Hroom. apply elem_of_socket_to_emit.
    exists target. by split.
  - apply socket_to_emit_nil.
  - intros ev [B [[= <- _] (Hne & _)]]%elem_of_socket_to_emit. done.
Qed.

Lemma directed_relay_reaches_adapter_room_witness :
  sockets Scenario.two_in_abc !! "A"
  = Some {| socket_roomId := Some "abc"; socket_userName := Scenario.alice;
            socket_connected := true |}
  ∧ Deliver "B" (EvOffer Scenario.sdp "A" Scenario.alice)
      ∈ (on_relay RelayOffer "A" "B" Scenario.sdp Scenario.two_in_abc).2.
Proof.
  assert (sockets Scenario.two_in_abc !! "A"
          = Some {| socket_roomId := Some "abc"; socket_userName := Scenario.alice;
                    socket_connected := true |}) as Hsock by (vm_compute; reflexivity).
  split; [exact Hsock|].
  pose proof (directed_relay_reaches_adapter_room RelayOffer "A" "B" Scenario.sdp
                Scenario.two_in_abc _ Hsock) as H.
  destruct (on_relay RelayOffer "A" "B" Scenario.sdp Scenario.two_in_abc)
    as [st' acts].
  destruct H as (_ & _ & H & _).
  apply H; [discriminate | vm_compute; reflexivity | vm_compute; reflexivity].
Defined.

(** C9 as worded fails: a target string that is no connection at all but
    the id of a room reaches the members of that room. *)
Lemma relay_to_room_id_reaches_members :
  ¬ relay_reaches_live_target_only RelayOffer "A" "abc" Scenario.sdp
      Scenario.two_in_abc.
Proof.
  intros H.
  destruct (H {| socket_roomId := Some "abc"; socket_userName := Scenario.alice;
                 socket_connected := true |}) as [_ Hdead];
    [vm_compute; reflexivity|].
  specialize (Hdead ltac:(vm_compute; reflexivity)).
  vm_compute in Hdead. discriminate Hdead.
Qed.

(** The same relay, evaluated: [B] is handed an offer addressed to [abc]. *)
Example relay_to_room_id_trace :
  (on_relay RelayOffer "A" "abc" Scenario.sdp Scenario.two_in_abc).2
  = [Deliver "B" (EvOffer Scenario.sdp "A" Scenario.alice)].
Proof. vm_compute. reflexivity. Qed.

(** A relay addressed to the sender's own id reaches nobody. *)
Example relay_to_self_trace :
  (on_relay RelayOffer "A" "A" Scenario.sdp Scenario.two_in_abc).2 = [].
Proof. vm_compute. reflexivity. Qed.

(** C10.  The relay handlers consult neither [activeRooms] nor any
    [roomId]: a live target other than the sender that sits in the adapter
    room of its own id is handed the message whatever rooms the two
    sockets are or are not in, and replacing the registry by any other
    registry and every socket's [roomId] by any other value leaves what
    the relay does unchanged. *)
Theorem relay_has_no_membership_check k id target payload st sock :
  sockets st !! id = Some sock →
  target ≠ id →
  is_connected st target = true →
  in_adapter_room st target target = true →
  Deliver target (relayed k payload id sock)
    ∈ (on_relay k id target payload st).2
  ∧ ∀ reg roomIds,
      (on_relay k id target payload (with_membership reg roomIds st)).2
      = (on_relay k id target payload st).2.
Proof.
  intros Hsock Hne Hconn Hroom. split.
  - rewrite (on_relay_eq _ _ _ _ _ _ Hsock). simpl.
    apply elem_of_socket_to_emit. exists target. by split.
  - intros reg roomIds.
    assert (sockets (with_membership reg roomIds st) !! id
            = Some (set_roomId (roomIds id) sock)) as Hsock'.
    { simpl. by rewrite map_lookup_imap, Hsock. }
    rewrite (on_relay_eq _ _ _ _ _ _ Hsock), (on_relay_eq _ _ _ _ _ _ Hsock').
    simpl. unfold socket_to_emit. rewrite recipients_with_membership.
    by destruct k.
Qed.

Lemma relay_has_no_membership_check_witness :
  Deliver "B" (EvAnswer Scenario.sdp "A")
    ∈ (on_relay RelayAnswer "A" "B" Scenario.sdp Scenario.lobby).2
  ∧ ∀ reg roomIds,
      (on_relay RelayAnswer "A" "B" Scenario.sdp
         (with_membership reg roomIds Scenario.lobby)).2
      = (on_relay RelayAnswer "A" "B" Scenario.sdp Scenario.lobby).2.
Proof.
  apply (relay_has_no_membership_check RelayAnswer "A" "B" Scenario.sdp
           Scenario.lobby
           {| socket_roomId := None; socket_userName := JUndefined;
              socket_connected := true |}).
  - vm_compute. reflexivity.
  - discriminate.
  - vm_compute. reflexivity.
  - vm_compute. reflexivity.
Defined.

(** Never joined, in different rooms, in the same room: the same delivery. *)
Example relay_same_in_every_membership :
  (on_relay RelayAnswer "A" "B" Scenario.sdp Scenario.lobby).2
  = [Deliver "B" (EvAnswer Scenario.sdp "A")]
  ∧ (on_relay RelayAnswer "A" "B" Scenario.sdp Scenario.apart).2
    = [Deliver "B" (EvAnswer Scenario.sdp "A")]
  ∧ (on_relay RelayAnswer "A" "B" Scenario.sdp Scenario.two_in_abc).2
    = [Deliver "B" (EvAnswer Scenario.sdp "A")].
Proof. vm_compute. done. Qed.

End RelayClaims.

(** * Joining *)

Section JoinClaims.
Implicit Types (st : State) (sock : Socket) (id roomId : string).

Lemma join_found_unfold update_throws id sock roomId userName st :
  let st2 := joined_state id sock roomId userName st in
  let roomUsers := room_users st2 roomId in
  let common :=
    (leave_previous_room id sock st).2
    ++ socket_emit st2 id (EvRoomUsers (JSMap.values roomUsers))
    ++ socket_to_emit st2 id roomId (EvUserJoined userName id)
    ++ [Db (FindByIdAndUpdate roomId (JSMap.size roomUsers))] in
  join_found update_throws id sock roomId userName st
  = if update_throws then
      (st2, common ++ [ConsoleError "Error joining room:"]
              ++ socket_emit st2 id (EvError "Failed to join room"))
    else
      (with_Room (alter (set_participants (JSMap.size roomUsers)) roomId) st2,
       common).
Proof.
  unfold join_found, joined_state.
  destruct (leave_previous_room id sock st) as [st1 leaving]. cbn [fst snd].
  unfold add_user at 1. cbn [fst snd].
  assert (room_users (add_user id roomId userName st1).1 roomId
          = JSMap.set id {| userName := userName; socketId := id |}
              (default [] (activeRooms st1 !! roomId))) as ->.
  { unfold room_users, add_user. cbn. by rewrite lookup_insert_eq. }
  unfold add_user. cbn [fst snd].
  destruct update_throws; [|done].
  f_equal. by rewrite <- !app_assoc.
Qed.

Lemma on_join_room_found update_throws id sock room roomId userName st :
  sockets st !! id = Some sock → Room st !! roomId = Some room →
  on_join_room false update_throws id roomId userName st
  = ((join_found update_throws id sock roomId userName st).1,
     Db (FindById roomId)
       :: (join_found update_throws id sock roomId userName st).2).
Proof.
  intros Hsock Hroom. unfold on_join_room. rewrite Hsock, Hroom.
  by destruct (join_found update_throws id sock roomId userName st).
Qed.

Lemma leave_previous_room_acts id sock st a :
  a ∈ (leave_previous_room id sock st).2 →
  ∃ to, a = Deliver to (EvUserLeft id None).
Proof.
  unfold leave_previous_room.
  destruct (socket_roomId sock) as [p|]; [|by intros ?%elem_of_nil].
  destruct (truthy p); [|by intros ?%elem_of_nil]. cbn zeta.
  destruct (activeRooms (socket_leave id p st) !! p) as [roomUsers|];
    [|by intros ?%elem_of_nil].
  case_decide; [by intros ?%elem_of_nil|]. cbn [snd].
  intros (to & -> & _)%elem_of_socket_to_emit. by exists to.
Qed.

Lemma joined_state_components id sock roomId userName st :
  let st2 := joined_state id sock roomId userName st in
  activeRooms st2
  = registry_add id roomId userName (registry_leave id sock (activeRooms st))
  ∧ sockets st2 = alter (set_joined roomId userName) id (sockets st)
  ∧ Room st2 = Room st.
Proof.
  unfold joined_state.
  destruct (leave_previous_room_state id sock st) as (Hreg & Hsock & Hdb).
  destruct (add_user_state id roomId userName (leave_previous_room id sock st).1)
    as (Hreg2 & Hsock2 & Hdb2).
  cbn zeta. by rewrite Hreg2, Hsock2, Hdb2, Hreg, Hsock, Hdb.
Qed.

Lemma joined_state_connected id sock roomId userName st :
  sockets st !! id = Some sock →
  is_connected (joined_state id sock roomId userName st) id = socket_connected sock.
Proof.
  intros Hsock. unfold is_connected.
  destruct (joined_state_components id sock roomId userName st) as (_ & -> & _).
  by rewrite lookup_alter_eq, Hsock.
Qed.

Lemma joined_state_room_users id sock roomId userName st :
  room_users (joined_state id sock roomId userName st) roomId
  = JSMap.set id {| userName := userName; socketId := id |}
      (default [] (registry_leave id sock (activeRooms st) !! roomId)).
Proof.
  unfold room_users.
  destruct (joined_state_components id sock roomId userName st) as (-> & _ & _).
  unfold registry_add. by rewrite lookup_insert_eq.
Qed.

(** C1, as the code has it.  When a connected socket joins a room that
    [Room.findById] finds, the one [room-users] event of the join goes to
    the joiner, carries the room's whole member list as it stands after
    the joiner's own insert, and so contains the joiner's own record; this
    holds whether or not the occupancy update then fails. *)
Theorem join_roster_includes_joiner update_throws id roomId userName st sock room :
  sockets st !! id = Some sock →
  socket_connected sock = true →
  Room st !! roomId = Some room →
  let '(st', acts) := on_join_room false update_throws id roomId userName st in
  let usersInRoom := JSMap.values (room_users st' roomId) in
  Deliver id (EvRoomUsers usersInRoom) ∈ acts
  ∧ {| userName := userName; socketId := id |} ∈ usersInRoom
  ∧ ∀ to users, Deliver to (EvRoomUsers users) ∈ acts →
      to = id ∧ users = usersInRoom.
Proof.
  intros Hsock Hconn Hroom.
  rewrite (on_join_room_found _ _ _ _ _ _ _ Hsock Hroom).
  rewrite join_found_unfold. cbn zeta.
  set (st2 := joined_state id sock roomId userName st).
  assert (is_connected st2 id = true) as Hc.
  { unfold st2. by rewrite joined_state_connected. }
  unfold socket_emit. rewrite Hc.
  assert ({| userName := userName; socketId := id |}
            ∈ JSMap.values (room_users st2 roomId)) as Hself.
  { unfold st2. rewrite joined_state_room_users. apply elem_of_values_set. }
  assert (∀ tail to users,
    (∀ a, a ∈ tail → ∀ to' users', a ≠ Deliver to' (EvRoomUsers users')) →
    Deliver to (EvRoomUsers users)
      ∈ Db (FindById roomId)
          :: ((leave_previous_room id sock st).2
              ++ [Deliver id (EvRoomUsers (JSMap.values (room_users st2 roomId)))]
              ++ socket_to_emit st2 id roomId (EvUserJoined userName id)
              ++ [Db (FindByIdAndUpdate roomId (JSMap.size (room_users st2 roomId)))])
             ++ tail →
    to = id ∧ users = JSMap.values (room_users st2 roomId)) as Honly.
  { intros tail to users Htail.
    rewrite elem_of_cons, !elem_of_app, list_elem_of_singleton.
    intros [?|[[Hl|[Hr|[Hj|Hu]]]|Ht]]; try done.
    - apply leave_previous_room_acts in Hl as [? ?]. done.
    - by simplify_eq.
    - apply elem_of_socket_to_emit in Hj as (? & ? & _). done.
    - apply list_elem_of_singleton in Hu. done.
    - by destruct (Htail _ Ht to users). }
  destruct update_throws; cbn [fst snd].
  - split_and!.
    + rewrite elem_of_cons, !elem_of_app, list_elem_of_singleton. tauto.
    + done.
    + intros to users Hin. eapply Honly; [|rewrite app_comm_cons; exact Hin].
      intros a Ha to' users'. rewrite elem_of_app in Ha.
      rewrite !list_elem_of_singleton in Ha. by destruct Ha as [->| ->].
  - split_and!.
    + rewrite elem_of_cons, !elem_of_app, list_elem_of_singleton. tauto.
    + done.
    + intros to users Hin. apply (Honly []); [by intros a ?%elem_of_nil|].
      by rewrite app_nil_r.
Qed.

Lemma join_roster_includes_joiner_witness :
  sockets Scenario.two_in_abc !! "B"
  = Some {| socket_roomId := Some "abc"; socket_userName := Scenario.bob;
            socket_connected := true |}
  ∧ Room Scenario.two_in_abc !! "y" = Some Scenario.fresh_room
  ∧ let '(st', acts) :=
      on_join_room false false "B" "y" Scenario.bob Scenario.two_in_abc in
    Deliver "B" (EvRoomUsers (JSMap.values (room_users st' "y"))) ∈ acts
    ∧ {| userName := Scenario.bob; socketId := "B" |}
        ∈ JSMap.values (room_users st' "y")
    ∧ ∀ to users, Deliver to (EvRoomUsers users) ∈ acts →
        to = "B" ∧ users = JSMap.values (room_users st' "y").
Proof.
  assert (sockets Scenario.two_in_abc !! "B"
          = Some {| socket_roomId := Some "abc"; socket_userName := Scenario.bob;
                    socket_connected := true |}) as Hsock
    by (vm_compute; reflexivity).
  assert (Room Scenario.two_in_abc !! "y" = Some Scenario.fresh_room) as Hroom
    by (vm_compute; reflexivity).
  split_and!; [exact Hsock | exact Hroom |].
  exact (join_roster_includes_joiner false "B" "y" Scenario.bob
           Scenario.two_in_abc _ _ Hsock eq_refl Hroom).
Defined.

(** C1 as worded fails on the first join of a room: the roster is the
    joiner alone. *)
Lemma first_joiner_listed_in_own_roster :
  ¬ roster_excludes_joiner "A" "abc" Scenario.alice Scenario.lobby.
Proof.
  intros H.
  apply (H [{| userName := Scenario.alice; socketId := "A" |}])
    with (p := {| userName := Scenario.alice; socketId := "A" |}).
  - vm_compute. apply list_elem_of_further, list_elem_of_here.
  - apply list_elem_of_here.
  - reflexivity.
Qed.

Example first_join_trace :
  (on_join_room false false "A" "abc" Scenario.alice Scenario.lobby).2
  = [Db (FindById "abc");
     Deliver "A" (EvRoomUsers [{| userName := Scenario.alice; socketId := "A" |}]);
     Db (FindByIdAndUpdate "abc" 1)].
Proof. vm_compute. reflexivity. Qed.

End JoinClaims.

(** * Joining: rooms that are missing, and updates that fail *)

Section JoinErrors.
Implicit Types (st : State) (sock : Socket) (id roomId : string).

(** A join against an id the collection does not hold changes nothing and
    tells the requester alone. *)
Lemma join_absent_room_rejected update_throws id roomId userName st :
  Room st !! roomId = None →
  is_connected st id = true →
  on_join_room false update_throws id roomId userName st
  = (st, [Db (FindById roomId); Deliver id (EvError "Room not found")]).
Proof.
  intros Hroom Hconn. unfold on_join_room, socket_emit. rewrite Hroom, Hconn.
  unfold is_connected in Hconn. by destruct (sockets st !! id).
Qed.

(** A lookup that throws changes nothing either. *)
Lemma join_lookup_failure_rejected update_throws id roomId userName st :
  (on_join_room true update_throws id roomId userName st).1 = st.
Proof. unfold on_join_room. by destruct (sockets st !! id). Qed.

(** C4 at a soft-deleted room.  [gone] carries [isActive = false], yet the
    join goes through: [A] becomes its participant, receives a roster and
    no error, and the document's count is updated. *)
Theorem join_soft_deleted_room_proceeds :
  Room Scenario.lobby !! "gone" = Some {| isActive := false; participants := 0 |}
  ∧ let '(st', acts) :=
      on_join_room false false "A" "gone" Scenario.alice Scenario.lobby in
    acts = [Db (FindById "gone");
            Deliver "A"
              (EvRoomUsers [{| userName := Scenario.alice; socketId := "A" |}]);
            Db (FindByIdAndUpdate "gone" 1)]
    ∧ room_users st' "gone"
      = [("A", {| userName := Scenario.alice; socketId := "A" |})]
    ∧ sockets st' !! "A"
      = Some {| socket_roomId := Some "gone"; socket_userName := Scenario.alice;
                socket_connected := true |}
    ∧ Room st' !! "gone" = Some {| isActive := false; participants := 1 |}.
Proof. vm_compute. done. Qed.

(** C8, as the code has it.  When the occupancy update of a join throws,
    the registry, the socket objects and the adapter are exactly what a
    successful join leaves, the collection is untouched, and the handler
    does what the successful join does and then logs the error and emits
    [error { message: 'Failed to join room' }] on the joiner's socket: a
    connected joiner receives it. *)
Theorem update_failure_keeps_membership_and_reports
    id roomId userName st sock room :
  sockets st !! id = Some sock →
  Room st !! roomId = Some room →
  let '(st_ok, acts_ok) := on_join_room false false id roomId userName st in
  let '(st_ko, acts_ko) := on_join_room false true id roomId userName st in
  activeRooms st_ko = activeRooms st_ok
  ∧ sockets st_ko = sockets st_ok
  ∧ adapter st_ko = adapter st_ok
  ∧ Room st_ko = Room st
  ∧ acts_ko = acts_ok ++ [ConsoleError "Error joining room:"]
                      ++ socket_emit st_ko id (EvError "Failed to join room")
  ∧ (socket_connected sock = true →
     Deliver id (EvError "Failed to join room") ∈ acts_ko).
Proof.
  intros Hsock Hroom.
  rewrite !(on_join_room_found _ _ _ _ _ _ _ Hsock Hroom).
  rewrite !join_found_unfold. cbn zeta. cbn [fst snd].
  split_and!; try done.
  - by destruct (joined_state_components id sock roomId userName st) as (_ & _ & ->).
  - intros Hconn. unfold socket_emit at 2.
    rewrite joined_state_connected, Hconn by done.
    rewrite elem_of_cons, !elem_of_app, !list_elem_of_singleton. tauto.
Qed.

Lemma update_failure_keeps_membership_and_reports_witness :
  sockets Scenario.lobby !! "A"
  = Some {| socket_roomId := None; socket_userName := JUndefined;
            socket_connected := true |}
  ∧ Room Scenario.lobby !! "abc" = Some Scenario.fresh_room
  ∧ let '(st_ok, acts_ok) :=
      on_join_room false false "A" "abc" Scenario.alice Scenario.lobby in
    let '(st_ko, acts_ko) :=
      on_join_room false true "A" "abc" Scenario.alice Scenario.lobby in
    activeRooms st_ko = activeRooms st_ok
    ∧ sockets st_ko = sockets st_ok
    ∧ adapter st_ko = adapter st_ok
    ∧ Room st_ko = Room Scenario.lobby
    ∧ acts_ko = acts_ok ++ [ConsoleError "Error joining room:"]
                        ++ socket_emit st_ko "A" (EvError "Failed to join room")
    ∧ (true = true → Deliver "A" (EvError "Failed to join room") ∈ acts_ko).
Proof.
  assert (sockets Scenario.lobby !! "A"
          = Some {| socket_roomId := None; socket_userName := JUndefined;
                    socket_connected := true |}) as Hsock
    by (vm_compute; reflexivity).
  assert (Room Scenario.lobby !! "abc" = Some Scenario.fresh_room) as Hroom
    by (vm_compute; reflexivity).
  split_and!; [exact Hsock | exact Hroom |].
  exact (update_failure_keeps_membership_and_reports "A" "abc" Scenario.alice
           Scenario.lobby _ _ Hsock Hroom).
Defined.

(** C8 as worded fails: the joiner is told the join failed. *)
Lemma update_failure_reported_to_joiner :
  ¬ update_failure_only_logged "A" "abc" Scenario.alice Scenario.lobby.
Proof.
  unfold update_failure_only_logged.
  destruct (on_join_room false false "A" "abc" Scenario.alice Scenario.lobby)
    as [st_ok acts_ok].
  destruct (on_join_room false true "A" "abc" Scenario.alice Scenario.lobby)
    as [st_ko acts] eqn:E.
  intros [_ H]. apply (H "Failed to join room").
  assert (acts = (on_join_room false true "A" "abc" Scenario.alice Scenario.lobby).2)
    as -> by (by rewrite E).
  vm_compute. do 4 apply list_elem_of_further. apply list_elem_of_here.
Qed.

Example update_failure_trace :
  (on_join_room false true "A" "abc" Scenario.alice Scenario.lobby).2
  = [Db (FindById "abc");
     Deliver "A" (EvRoomUsers [{| userName := Scenario.alice; socketId := "A" |}]);
     Db (FindByIdAndUpdate "abc" 1);
     ConsoleError "Error joining room:";
     Deliver "A" (EvError "Failed to join room")]
  ∧ room_users (on_join_room false true "A" "abc" Scenario.alice Scenario.lobby).1 "abc"
    = [("A", {| userName := Scenario.alice; socketId := "A" |})].
Proof. vm_compute. done. Qed.

End JoinErrors.

(** * Leaving a room by switching *)

Section SwitchClaims.

(** C5 at a room switch.  [A] is the only participant of [x] and joins
    [y]: [x] leaves the registry, and the only calls on the collection are
    the lookup and the occupancy update of [y]; nothing is sent for [x],
    whose document stays active with a count of one. *)
Theorem switch_from_emptied_room_sends_no_signal :
  room_users Scenario.alone_in_x "x"
  = [("A", {| userName := Scenario.alice; socketId := "A" |})]
  ∧ let '(st', acts) :=
      on_join_room false false "A" "y" Scenario.alice Scenario.alone_in_x in
    activeRooms st' !! "x" = None
    ∧ db_calls acts = [FindById "y"; FindByIdAndUpdate "y" 1]
    ∧ Room st' !! "x" = Some {| isActive := true; participants := 1 |}.
Proof. vm_compute. done. Qed.

(** The disconnect handler deletes the document of the room it empties. *)
Example disconnect_from_emptied_room_trace :
  let '(st', acts) := disconnect false "A" Scenario.alone_in_x in
  activeRooms st' !! "x" = None
  ∧ acts = [ConsoleLog "User disconnected"; Db (FindByIdAndDelete "x")]
  ∧ Room st' !! "x" = None.
Proof. vm_compute. done. Qed.

(** C6 at a room switch.  [B] leaves [abc] for [y] while [A] stays: the
    [user-left] event [A] receives carries [B]'s socket id and no
    [userName]. *)
Theorem switch_user_left_has_no_name :
  sockets Scenario.two_in_abc !! "B"
  = Some {| socket_roomId := Some "abc"; socket_userName := Scenario.bob;
            socket_connected := true |}
  ∧ let '(st', acts) :=
      on_join_room false false "B" "y" Scenario.bob Scenario.two_in_abc in
    room_users st' "abc"
    = [("A", {| userName := Scenario.alice; socketId := "A" |})]
    ∧ delivered_to "A" acts = [EvUserLeft "B" None].
Proof. vm_compute. done. Qed.

(** The disconnect handler sends the name along. *)
Example disconnect_user_left_trace :
  (disconnect false "B" Scenario.two_in_abc).2
  = [ConsoleLog "User disconnected";
     Deliver "A" (EvUserLeft "B" (Some Scenario.bob));
     Db (FindByIdAndUpdate "abc" 1)].
Proof. vm_compute. reflexivity. Qed.

End SwitchClaims.

(** * The disconnect handler *)

Section DisconnectClaims.
Implicit Types (st : State) (sock : Socket) (id roomId : string).

Lemma reached_transport_close st id room B :
  B ≠ id → is_connected st B = true → in_adapter_room st B room = true →
  reached (transport_close id st) id room B.
Proof.
  intros Hne Hconn Hroom. split; [done|].
  unfold is_connected, in_adapter_room in *. simpl.
  by rewrite lookup_alter_ne, lookup_delete_ne.
Qed.

(** The disconnect handler on the last participant of a room: the room
    leaves the registry, one [findByIdAndDelete] is issued for it and
    nobody is notified. *)
Lemma disconnect_empties_room db_throws id st sock roomId roomUsers :
  sockets st !! id = Some sock →
  leaving_room sock = Some roomId →
  activeRooms st !! roomId = Some roomUsers →
  JSMap.delete id roomUsers = [] →
  let '(st', acts) := disconnect db_throws id st in
  activeRooms st' !! roomId = None
  ∧ db_calls acts = [FindByIdAndDelete roomId]
  ∧ ∀ to, delivered_to to acts = [].
Proof.
  intros Hsock [Hfield Htr]%leaving_room_Some Hreg Hdel.
  unfold disconnect, on_disconnect.
  assert (sockets (transport_close id st) !! id = Some (set_closed sock)) as ->.
  { simpl. by rewrite lookup_alter_eq, Hsock. }
  cbn [socket_roomId set_closed]. rewrite Hfield, Htr.
  change (activeRooms (transport_close id st)) with (activeRooms st).
  rewrite Hreg. cbn zeta. rewrite Hdel. simpl.
  destruct db_throws; simpl; by rewrite lookup_delete_eq.
Qed.

(** The disconnect handler while others remain: the room keeps them, every
    socket of the namespace sitting in the room is sent [user-left] with
    the id and the name, and the new size is reported once. *)
Lemma disconnect_notifies_room db_throws id st sock roomId roomUsers :
  sockets st !! id = Some sock →
  leaving_room sock = Some roomId →
  activeRooms st !! roomId = Some roomUsers →
  JSMap.delete id roomUsers ≠ [] →
  let '(st', acts) := disconnect db_throws id st in
  room_users st' roomId = JSMap.delete id roomUsers
  ∧ db_calls acts
    = [FindByIdAndUpdate roomId (JSMap.size (JSMap.delete id roomUsers))]
  ∧ ∀ B, B ≠ id → is_connected st B = true → in_adapter_room st B roomId = true →
         Deliver B (EvUserLeft id (Some (socket_userName sock))) ∈ acts.
Proof.
  intros Hsock [Hfield Htr]%leaving_room_Some Hreg Hdel.
  unfold disconnect, on_disconnect.
  assert (sockets (transport_close id st) !! id = Some (set_closed sock)) as ->.
  { simpl. by rewrite lookup_alter_eq, Hsock. }
  cbn [socket_roomId socket_userName set_closed]. rewrite Hfield, Htr.
  change (activeRooms (transport_close id st)) with (activeRooms st).
  rewrite Hreg. cbn zeta.
  rewrite decide_False by (by rewrite size_0_nil).
  assert (∀ tail, db_calls
            ([ConsoleLog "User disconnected"]
             ++ socket_to_emit
                  (with_activeRooms (<[roomId:=JSMap.delete id roomUsers]>)
                     (transport_close id st)) id roomId
                  (EvUserLeft id (Some (socket_userName sock))) ++ tail)
          = db_calls tail) as Hcalls.
  { intros tail. unfold socket_to_emit. simpl.
    generalize (recipients
      (with_activeRooms (<[roomId:=JSMap.delete id roomUsers]>)
         (transport_close id st)) id roomId).
    intros l. by induction l. }
  assert (∀ tail B, B ≠ id → is_connected st B = true →
            in_adapter_room st B roomId = true →
            Deliver B (EvUserLeft id (Some (socket_userName sock)))
              ∈ [ConsoleLog "User disconnected"]
                ++ socket_to_emit
                     (with_activeRooms (<[roomId:=JSMap.delete id roomUsers]>)
                        (transport_close id st)) id roomId
                     (EvUserLeft id (Some (socket_userName sock))) ++ tail) as Hsent.
  { intros tail B Hne Hconn Hroom. rewrite !elem_of_app. right. left.
    apply elem_of_socket_to_emit. exists B. split; [done|].
    by apply reached_transport_close. }
  destruct db_throws; cbn [fst snd]; split_and!.
  - unfold room_users. simpl. by rewrite lookup_insert_eq.
  - by rewrite Hcalls.
  - apply Hsent.
  - unfold room_users. simpl. by rewrite lookup_insert_eq.
  - by rewrite Hcalls.
  - apply Hsent.
Qed.

End DisconnectClaims.

(** * The registry over whole runs *)

Section RunClaims.
Implicit Types (st : State) (sock : Socket) (id roomId : string).

(** C2.  Starting from an empty registry over any collection, after any
    sequence of connections, joins (room switches included, with lookups
    and updates failing or not), relays and disconnects, a room id is in
    [activeRooms] exactly when it has at least one participant; and
    whichever event comes next, a room it leaves without participants is
    not in [activeRooms] once the event is handled. *)
Theorem room_present_iff_occupied db ops roomId :
  let st := (run ops (initial db)).1 in
  (is_Some (activeRooms st !! roomId) ↔ (1 ≤ occupancy st roomId)%nat)
  ∧ ∀ op, occupancy (step op st).1 roomId = 0 →
          activeRooms (step op st).1 !! roomId = None.
Proof.
  cbn zeta.
  assert (rooms_nonempty (activeRooms (run ops (initial db)).1)) as Hne.
  { apply run_rooms_nonempty. simpl. apply rooms_nonempty_empty. }
  split.
  - unfold occupancy, room_users, JSMap.size.
    destruct (activeRooms (run ops (initial db)).1 !! roomId) as [users|] eqn:E.
    + specialize (Hne _ _ E). destruct users; [done|]. simpl.
      split; [lia | eauto].
    + simpl. split; [by intros [? ?] | lia].
  - intros op. pose proof (step_rooms_nonempty op _ Hne) as Hne'.
    unfold occupancy, room_users, JSMap.size.
    destruct (activeRooms (step op (run ops (initial db)).1).1 !! roomId)
      as [users|] eqn:E; [|done].
    specialize (Hne' _ _ E). by destruct users.
Qed.

Lemma in_room_unique st id r1 r2 :
  membership_inv st → in_room st id r1 → in_room st id r2 → r1 = r2.
Proof.
  intros [I1 _ _] H1 H2.
  destruct (I1 _ _ H1) as (sock1 & Hs1 & Hf1 & _).
  destruct (I1 _ _ H2) as (sock2 & Hs2 & Hf2 & _).
  congruence.
Qed.

(** C3, as the code has it.  Over a collection whose ids are truthy
    strings, after any sequence of events: a socket id is in at most one
    room's participant map; the room that holds it is the one its
    [roomId] field names; a socket whose [roomId] was never set is in no
    room; a socket that is still connected and has a [roomId] is in that
    room; and a join that goes through leaves the socket in the room
    joined and in no other.  The field itself is never cleared. *)
Theorem membership_matches_roomId db ops id :
  ids_truthy db →
  let st := (run ops (initial db)).1 in
  (∀ r1 r2, in_room st id r1 → in_room st id r2 → r1 = r2)
  ∧ (∀ roomId, in_room st id roomId →
       ∃ sock, sockets st !! id = Some sock ∧ socket_roomId sock = Some roomId)
  ∧ (∀ sock, sockets st !! id = Some sock →
       match socket_roomId sock with
       | None => ∀ roomId, ¬ in_room st id roomId
       | Some roomId => socket_connected sock = true → in_room st id roomId
       end)
  ∧ (∀ update_throws roomId userName sock room,
       sockets st !! id = Some sock → Room st !! roomId = Some room →
       ∀ r, in_room (on_join_room false update_throws id roomId userName st).1 id r
            ↔ r = roomId).
Proof.
  intros Hdb. cbn zeta.
  pose proof (run_membership_inv ops _ (membership_inv_initial db Hdb)) as Hinv.
  set (st := (run ops (initial db)).1) in *.
  split_and!.
  - intros r1 r2. by apply in_room_unique.
  - intros roomId Hin. destruct Hinv as [I1 _ _].
    destruct (I1 _ _ Hin) as (sock & ? & ? & _). eauto.
  - intros sock Hsock. destruct (socket_roomId sock) as [roomId|] eqn:Hfield.
    + intros Hconn. destruct Hinv as [_ I2 _]. by eapply I2.
    + intros roomId Hin. destruct Hinv as [I1 _ _].
      destruct (I1 _ _ Hin) as (sock' & ? & ? & _). congruence.
  - intros update_throws roomId userName sock room Hsock Hroom r.
    pose proof (membership_inv_step
                  (JoinRoom false update_throws id roomId userName) st Hinv) as Hinv'.
    simpl in Hinv'.
    assert (in_room (on_join_room false update_throws id roomId userName st).1
              id roomId) as Hjoined.
    { rewrite (on_join_room_found _ _ _ _ _ _ _ Hsock Hroom). cbn [fst].
      destruct (join_found_state update_throws id sock roomId userName st)
        as (Hreg & _ & _).
      unfold in_room, room_users. rewrite Hreg.
      apply reg_in_room_add. by right. }
    split.
    + intros Hin. by eapply in_room_unique.
    + by intros ->.
Qed.

Lemma scenario_ids_truthy : ids_truthy Scenario.rooms.
Proof.
  intros r [doc H]. unfold Scenario.rooms in H.
  repeat (apply lookup_insert_Some in H as [[<- _]|[_ H]]; [done|]).
  by rewrite lookup_empty in H.
Qed.

Lemma membership_matches_roomId_witness :
  let st := (run Scenario.busy_day (initial Scenario.rooms)).1 in
  (∀ r1 r2, in_room st "A" r1 → in_room st "A" r2 → r1 = r2)
  ∧ (∀ roomId, in_room st "A" roomId →
       ∃ sock, sockets st !! "A" = Some sock ∧ socket_roomId sock = Some roomId)
  ∧ (∀ sock, sockets st !! "A" = Some sock →
       match socket_roomId sock with
       | None => ∀ roomId, ¬ in_room st "A" roomId
       | Some roomId => socket_connected sock = true → in_room st "A" roomId
       end)
  ∧ (∀ update_throws roomId userName sock room,
       sockets st !! "A" = Some sock → Room st !! roomId = Some room →
       ∀ r, in_room (on_join_room false update_throws "A" roomId userName st).1 "A" r
            ↔ r = roomId).
Proof.
  exact (membership_matches_roomId Scenario.rooms Scenario.busy_day "A"
           scenario_ids_truthy).
Defined.

(** C3 as worded fails once a socket has disconnected: its [roomId] still
    names [abc], and no room holds it. *)
Lemma roomId_survives_disconnect :
  ¬ field_matches_registry Scenario.after_disconnect "A".
Proof.
  intros [_ H].
  specialize (H {| socket_roomId := Some "abc"; socket_userName := Scenario.alice;
                   socket_connected := false |} ltac:(vm_compute; reflexivity)).
  simpl in H. unfold in_room in H.
  assert (room_users Scenario.after_disconnect "abc" = []) as Hnil
    by (vm_compute; reflexivity).
  rewrite Hnil in H. by apply elem_of_nil in H.
Qed.

Example after_disconnect_state :
  sockets Scenario.after_disconnect !! "A"
  = Some {| socket_roomId := Some "abc"; socket_userName := Scenario.alice;
            socket_connected := false |}
  ∧ activeRooms Scenario.after_disconnect = ∅.
Proof. vm_compute. done. Qed.

End RunClaims.

(** * Beyond the statements above: the rest of the signalling layer *)

(** ** More on [Map] *)

Section JSMapMore.
Context {V : Type}.
Implicit Types (m : list (string * V)) (k : string) (v : V).

Lemma elem_of_delete k k' v' m :
  (k', v') ∈ JSMap.delete k m ↔ (k', v') ∈ m ∧ k' ≠ k.
Proof. unfold JSMap.delete. rewrite list_elem_of_filter. simpl. tauto. Qed.

Lemma elem_of_set_inv k v k' v' m :
  NoDup m.*1 →
  (k', v') ∈ JSMap.set k v m → (k' = k ∧ v' = v) ∨ ((k', v') ∈ m ∧ k' ≠ k).
Proof.
  induction m as [|[a b] m IH]; simpl.
  - intros _ [= -> ->]%list_elem_of_singleton. by left.
  - intros [Hnotin Hnd]%NoDup_cons. case_decide as Hk.
    + subst a. intros [[= -> ->]|Hin]%elem_of_cons; [by left|].
      right. split; [by apply list_elem_of_further|].
      intros ->. apply Hnotin. apply list_elem_of_fmap. by exists (k, v').
    + intros [[= -> ->]|Hin]%elem_of_cons.
      * right. split; [apply list_elem_of_here | done].
      * destruct (IH Hnd Hin) as [?|[? ?]]; [by left|].
        right. split; [by apply list_elem_of_further | done].
Qed.

Lemma NoDup_keys_delete k m : NoDup m.*1 → NoDup (JSMap.delete k m).*1.
Proof.
  unfold JSMap.delete. induction m as [|[a b] m IH]; [done|].
  simpl. intros [Hnotin Hnd]%NoDup_cons. rewrite filter_cons. simpl.
  case_decide; [|by apply IH]. simpl. apply NoDup_cons. split; [|by apply IH].
  intros Hin. apply Hnotin.
  change (a ∈ (JSMap.delete k m).*1) in Hin.
  by apply elem_of_keys_delete in Hin as [? _].
Qed.

Lemma NoDup_keys_set k v m : NoDup m.*1 → NoDup (JSMap.set k v m).*1.
Proof.
  induction m as [|[a b] m IH]; simpl.
  - intros _. apply NoDup_singleton.
  - intros [Hnotin Hnd]%NoDup_cons. case_decide as Hk; simpl.
    + subst a. by apply NoDup_cons.
    + apply NoDup_cons. split; [|by apply IH].
      rewrite elem_of_keys_set. intros [?|?]; [done|]. by subst.
Qed.

Lemma size_set_new k v m : k ∉ m.*1 → JSMap.size (JSMap.set k v m) = S (JSMap.size m).
Proof.
  unfold JSMap.size. induction m as [|[a b] m IH]; simpl; [done|].
  rewrite not_elem_of_cons. intros [Hne Hnotin].
  rewrite decide_False by done. simpl. by rewrite IH.
Qed.

Lemma size_set_old k v m : k ∈ m.*1 → JSMap.size (JSMap.set k v m) = JSMap.size m.
Proof.
  unfold JSMap.size. induction m as [|[a b] m IH]; simpl.
  - by intros ?%elem_of_nil.
  - case_decide as Hk; [done|]. intros [?|Hin]%elem_of_cons; [by subst|].
    simpl. by rewrite IH.
Qed.

Lemma size_delete_member k m :
  NoDup m.*1 → k ∈ m.*1 → S (JSMap.size (JSMap.delete k m)) = JSMap.size m.
Proof.
  unfold JSMap.size, JSMap.delete. induction m as [|[a b] m IH]; simpl.
  - by intros _ ?%elem_of_nil.
  - intros [Hnotin Hnd]%NoDup_cons Hin. rewrite filter_cons. simpl.
    destruct (decide (a = k)) as [->|Hne].
    + rewrite decide_False by (by intros ?). f_equal.
      change (length (JSMap.delete k m) = length m).
      by rewrite delete_absent.
    + rewrite decide_True by done. simpl. f_equal. apply IH; [done|].
      apply elem_of_cons in Hin as [?|?]; [by subst|done].
Qed.

(** Setting a key that [delete] just removed puts the entry last. *)
Lemma set_after_delete k v m :
  JSMap.set k v (JSMap.delete k m) = JSMap.delete k m ++ [(k, v)].
Proof.
  assert (∀ l : list (string * V), k ∉ l.*1 → JSMap.set k v l = l ++ [(k, v)]) as H.
  { induction l as [|[a b] l IH]; simpl; [done|].
    rewrite not_elem_of_cons. intros [Hne Hnotin].
    rewrite decide_False by done. by rewrite IH. }
  apply H. rewrite elem_of_keys_delete. tauto.
Qed.

Lemma set_new_last k v m : k ∉ m.*1 → JSMap.set k v m = m ++ [(k, v)].
Proof. intros Hk. rewrite <- (delete_absent k m Hk) at 1 2. apply set_after_delete. Qed.

End JSMapMore.

(** ** What a join and a disconnect do to each room's list *)

Section Rosters.
Implicit Types (st : State) (sock : Socket) (id roomId r : string).
Implicit Types (reg : gmap string (list (string * Participant))).

Lemma room_users_remove reg id p r :
  default [] (registry_remove id p reg !! r)
  = if decide (r = p) then JSMap.delete id (default [] (reg !! r))
    else default [] (reg !! r).
Proof.
  unfold registry_remove. destruct (reg !! p) as [users|] eqn:Hp.
  - cbn zeta. case_decide as Hsize.
    + apply size_0_nil in Hsize. case_decide as Hr.
      * subst r. rewrite lookup_delete_eq, Hp. simpl. by rewrite Hsize.
      * by rewrite lookup_delete_ne.
    + case_decide as Hr.
      * subst r. by rewrite lookup_insert_eq, Hp.
      * by rewrite lookup_insert_ne.
  - case_decide as Hr; [|done]. subst r. by rewrite Hp.
Qed.

Lemma room_users_leave reg id sock r :
  default [] (registry_leave id sock reg !! r)
  = users_after_leave id sock r (default [] (reg !! r)).
Proof.
  unfold registry_leave, users_after_leave.
  destruct (leaving_room sock) as [p|].
  - rewrite room_users_remove.
    destruct (decide (r = p)) as [->|Hne].
    + by rewrite decide_True.
    + rewrite decide_False; [done|]. by intros [= ->].
  - by rewrite decide_False.
Qed.

Lemma room_users_add reg id roomId userName r :
  default [] (registry_add id roomId userName reg !! r)
  = if decide (r = roomId)
    then JSMap.set id {| userName := userName; socketId := id |}
           (default [] (reg !! r))
    else default [] (reg !! r).
Proof.
  unfold registry_add. case_decide as Hr.
  - subst r. by rewrite lookup_insert_eq.
  - by rewrite lookup_insert_ne.
Qed.

Lemma on_join_room_found_state update_throws id sock room roomId userName st :
  sockets st !! id = Some sock → Room st !! roomId = Some room →
  let st' := (on_join_room false update_throws id roomId userName st).1 in
  activeRooms st'
  = registry_add id roomId userName (registry_leave id sock (activeRooms st))
  ∧ sockets st' = alter (set_joined roomId userName) id (sockets st)
  ∧ adapter st' = adapter (joined_state id sock roomId userName st)
  ∧ Room st' = (if update_throws then Room st
                else alter (set_participants
                              (JSMap.size (room_users
                                 (joined_state id sock roomId userName st) roomId)))
                       roomId (Room st)).
Proof.
  intros Hsock Hroom.
  rewrite (on_join_room_found _ _ _ _ _ _ _ Hsock Hroom). cbn [fst].
  rewrite join_found_unfold. cbn zeta.
  destruct (joined_state_components id sock roomId userName st) as (Hreg & Hs & Hdb).
  destruct update_throws; cbn [fst]; split_and!; try done.
  change (Room (with_Room ?f ?s)) with (f (Room s)). by rewrite Hdb.
Qed.

(** Each room's list after a join that goes through. *)
Lemma room_users_joined update_throws id sock room roomId userName st r :
  sockets st !! id = Some sock → Room st !! roomId = Some room →
  room_users (on_join_room false update_throws id roomId userName st).1 r
  = users_after_join id sock roomId userName r (room_users st r).
Proof.
  intros Hsock Hroom.
  destruct (on_join_room_found_state update_throws id sock room roomId userName st
              Hsock Hroom) as (Hreg & _).
  unfold room_users. rewrite Hreg, room_users_add, room_users_leave.
  unfold users_after_join, users_after_leave. done.
Qed.

Lemma disconnect_state db_throws id st :
  let st' := (disconnect db_throws id st).1 in
  activeRooms st'
  = match sockets st !! id with
    | Some sock => registry_leave id sock (activeRooms st)
    | None => activeRooms st
    end
  ∧ sockets st' = alter set_closed id (sockets st)
  ∧ adapter st' = delete id (adapter st)
  ∧ db_shrinks (Room st) (Room st').
Proof.
  unfold disconnect. destruct (sockets st !! id) as [sock|] eqn:Hsock.
  - assert (sockets (transport_close id st) !! id = Some (set_closed sock)) as Hc.
    { simpl. by rewrite lookup_alter_eq, Hsock. }
    destruct (on_disconnect_state db_throws id _ _ Hc) as (Hreg & Hs & Ha & Hdb).
    cbn zeta. by rewrite Hreg, Hs, Ha.
  - assert (sockets (transport_close id st) !! id = None) as Hc.
    { simpl. by rewrite lookup_alter_eq, Hsock. }
    unfold on_disconnect. rewrite Hc. cbn zeta. simpl.
    split_and!; try done. apply db_shrinks_refl.
Qed.

(** Each room's list after a disconnect. *)
Lemma room_users_disconnected db_throws id sock st r :
  sockets st !! id = Some sock →
  room_users (disconnect db_throws id st).1 r
  = users_after_leave id sock r (room_users st r).
Proof.
  intros Hsock. destruct (disconnect_state db_throws id st) as (Hreg & _).
  unfold room_users. rewrite Hreg, Hsock. apply room_users_leave.
Qed.

End Rosters.

(** ** The adapter and the registry agree *)

Section ServerInvariant.
Implicit Types (st : State) (sock : Socket) (id roomId r s : string).

Lemma in_adapter_room_spec st s r :
  in_adapter_room st s r = true ↔ ∃ rooms, adapter st !! s = Some rooms ∧ r ∈ rooms.
Proof.
  unfold in_adapter_room. destruct (adapter st !! s) as [rooms|].
  - rewrite bool_decide_eq_true. naive_solver.
  - naive_solver.
Qed.

Lemma leave_previous_room_adapter id sock st :
  adapter (leave_previous_room id sock st).1
  = match leaving_room sock with
    | Some p => alter (filter (λ r, r ≠ p)) id (adapter st)
    | None => adapter st
    end.
Proof.
  unfold leave_previous_room, leaving_room.
  destruct (socket_roomId sock) as [p|]; [|done].
  destruct (truthy p); [|done]. cbn zeta.
  destruct (activeRooms (socket_leave id p st) !! p) as [roomUsers|]; [|done].
  by case_decide.
Qed.

Lemma in_adapter_room_joined id sock roomId userName st s r :
  in_adapter_room (joined_state id sock roomId userName st) s r = true
  ↔ (s = id ∧ r = roomId)
    ∨ (in_adapter_room st s r = true ∧ ¬ (s = id ∧ leaving_room sock = Some r)).
Proof.
  rewrite !in_adapter_room_spec. unfold joined_state, add_user. cbn.
  rewrite leave_previous_room_adapter.
  set (a1 := match leaving_room sock with
             | Some p => alter (filter (λ r0, r0 ≠ p)) id (adapter st)
             | None => adapter st
             end).
  assert (∀ x, x ∈ default [] (a1 !! id)
               ↔ (∃ rooms, adapter st !! id = Some rooms ∧ x ∈ rooms)
                 ∧ leaving_room sock ≠ Some x) as Hold.
  { intros x. unfold a1. destruct (leaving_room sock) as [p|].
    - rewrite lookup_alter_eq. destruct (adapter st !! id) as [rooms|]; simpl.
      + rewrite list_elem_of_filter. split.
        * intros [Hne Hin]. split; [eauto|]. by intros [= ->].
        * intros [(rooms' & [= <-] & Hin) Hne]. split; [|done]. by intros ->.
      + split; [by intros ?%elem_of_nil|]. by intros [(? & ? & _) _].
    - destruct (adapter st !! id) as [rooms|]; simpl.
      + split; [eauto|]. by intros [(rooms' & [= <-] & Hin) _].
      + split; [by intros ?%elem_of_nil|]. by intros [(? & ? & _) _]. }
  destruct (decide (s = id)) as [->|Hne].
  - rewrite lookup_insert_eq. split.
    + intros (rooms & [= <-] & Hin). case_bool_decide as Hmem.
      * apply Hold in Hin as [Hin Hl]. right. split; [done|]. by intros [_ ?].
      * apply elem_of_app in Hin as [Hin|Hin%list_elem_of_singleton]; [|by left].
        apply Hold in Hin as [Hin Hl]. right. split; [done|]. by intros [_ ?].
    + intros [[_ ->]|[Hin Hl]].
      * eexists. split; [done|]. case_bool_decide; [done|].
        apply elem_of_app. right. by apply list_elem_of_singleton.
      * eexists. split; [done|].
        assert (r ∈ default [] (a1 !! id)) as Hr.
        { apply Hold. split; [done|]. intros ?. by apply Hl. }
        case_bool_decide; [done|]. apply elem_of_app. by left.
  - rewrite lookup_insert_ne by done.
    assert (a1 !! s = adapter st !! s) as ->.
    { unfold a1. destruct (leaving_room sock); [|done]. by rewrite lookup_alter_ne. }
    split; [|intros [[? _]|[? _]]; done]. intros H. right. split; [done|].
    by intros [? _].
Qed.

Lemma in_room_users_after_join id sock roomId userName r s users :
  s ∈ (users_after_join id sock roomId userName r users).*1
  ↔ (s = id ∧ r = roomId) ∨ (s ∈ users.*1 ∧ ¬ (s = id ∧ leaving_room sock = Some r)).
Proof.
  unfold users_after_join. cbn zeta.
  repeat case_decide; rewrite ?elem_of_keys_set, ?elem_of_keys_delete; naive_solver.
Qed.

Lemma in_room_users_after_leave id sock r s users :
  s ∈ (users_after_leave id sock r users).*1
  ↔ s ∈ users.*1 ∧ ¬ (s = id ∧ leaving_room sock = Some r).
Proof.
  unfold users_after_leave.
  case_decide; rewrite ?elem_of_keys_delete; naive_solver.
Qed.

Lemma elem_of_users_after_join id sock roomId userName r users k p :
  NoDup users.*1 →
  (k, p) ∈ users_after_join id sock roomId userName r users →
  (k = id ∧ r = roomId ∧ p = {| userName := userName; socketId := id |})
  ∨ ((k, p) ∈ users ∧ (r = roomId → k ≠ id)).
Proof.
  intros Hnd. unfold users_after_join. cbn zeta.
  destruct (decide (r = roomId)) as [->|Hr];
    destruct (decide (leaving_room sock = Some _)) as [Hl|Hl].
  - intros [[-> ->]|[[Hin _]%elem_of_delete Hne]]%elem_of_set_inv;
      [by left|by right|by apply NoDup_keys_delete].
  - intros [[-> ->]|[Hin Hne]]%elem_of_set_inv; [by left|by right|done].
  - intros [Hin _]%elem_of_delete. by right.
  - intros Hin. by right.
Qed.

Lemma member_is_leaving st id sock r :
  membership_inv st → sockets st !! id = Some sock → in_room st id r →
  leaving_room sock = Some r.
Proof.
  intros [I1 _ _] Hsock Hin. destruct (I1 _ _ Hin) as (sock' & Hs & Hf & Ht).
  apply leaving_room_Some. rewrite Hsock in Hs. by simplify_eq.
Qed.

Lemma is_connected_alter st (f : Socket → Socket) id s g :
  (∀ sock, socket_connected (f sock) = socket_connected sock) →
  sockets g = alter f id (sockets st) →
  is_connected g s = is_connected st s.
Proof.
  intros Hf Hs. unfold is_connected. rewrite Hs.
  destruct (decide (s = id)) as [->|Hne].
  - rewrite lookup_alter_eq. destruct (sockets st !! id); simpl; [apply Hf|done].
  - by rewrite lookup_alter_ne.
Qed.

Lemma server_inv_join update_throws id sock room roomId userName st :
  sockets st !! id = Some sock → Room st !! roomId = Some room →
  server_inv st →
  server_inv (on_join_room false update_throws id roomId userName st).1.
Proof.
  intros Hsock Hroom [Imem Ine Iun Irec Iam Iao].
  pose proof (membership_inv_step
                (JoinRoom false update_throws id roomId userName) st Imem) as Imem'.
  pose proof (step_rooms_nonempty
                (JoinRoom false update_throws id roomId userName) st Ine) as Ine'.
  simpl in Imem', Ine'.
  pose proof (room_users_joined update_throws id sock room roomId userName st)
    as Husers.
  destruct (on_join_room_found_state update_throws id sock room roomId userName st
              Hsock Hroom) as (_ & Hsocks & Hadapter & _).
  set (st' := (on_join_room false update_throws id roomId userName st).1) in *.
  assert (∀ s r, in_room st' s r
                 ↔ (s = id ∧ r = roomId)
                   ∨ (in_room st s r ∧ s ≠ id)) as Hin.
  { intros s r. unfold in_room. rewrite Husers by done.
    rewrite in_room_users_after_join. split.
    - intros [?|[Hm Hn]]; [by left|]. right. split; [done|]. intros ->.
      apply Hn. split; [done|]. exact (member_is_leaving st id sock r Imem Hsock Hm).
    - intros [?|[Hm Hn]]; [by left|]. right. split; [done|]. by intros [? _]. }
  assert (∀ s, is_connected st' s = is_connected st s) as Hconn.
  { intros s. by apply (is_connected_alter st (set_joined roomId userName) id). }
  assert (∀ s r, in_adapter_room st' s r = true
                 ↔ (s = id ∧ r = roomId)
                   ∨ (in_adapter_room st s r = true
                      ∧ ¬ (s = id ∧ leaving_room sock = Some r))) as Had.
  { intros s r. rewrite <- in_adapter_room_joined.
    unfold in_adapter_room. by rewrite Hadapter. }
  split; try done.
  - intros r. rewrite Husers by done. unfold users_after_join. cbn zeta.
    repeat case_decide; auto using NoDup_keys_set, NoDup_keys_delete.
  - intros r k p. rewrite Husers by done. intros Hkp.
    assert (k ∈ (users_after_join id sock roomId userName r (room_users st r)).*1)
      as Hk.
    { apply list_elem_of_fmap. by exists (k, p). }
    rewrite <- Husers in Hk by done. fold (in_room st' k r) in Hk.
    rewrite Hsocks.
    destruct (elem_of_users_after_join _ _ _ _ _ _ _ _ (Iun r) Hkp)
      as [(-> & -> & ->)|[Hold Hne']].
    + split; [done|]. exists (set_joined roomId userName sock).
      by rewrite lookup_alter_eq, Hsock.
    + destruct (Irec _ _ _ Hold) as (Hid & sock' & Hs' & Hname).
      split; [done|]. exists sock'. rewrite lookup_alter_ne; [done|].
      intros ->. apply Hin in Hk as [[_ ->]|[_ ?]]; [|done]. by apply Hne'.
  - intros s r. rewrite Hconn, Hin, Had. intros Hc [?|[Hm Hne]]; [by left|].
    right. split; [by apply Iam|]. by intros [? _].
  - intros s r. rewrite Had, Hin. intros [[-> ->]|[Ha Hn]]; [by right; left|].
    destruct (Iao _ _ Ha) as [->|Hm]; [by left|].
    right. right. split; [done|]. intros ->. apply Hn. split; [done|].
    exact (member_is_leaving st id sock r Imem Hsock Hm).
Qed.

Lemma server_inv_disconnect db_throws id st :
  server_inv st → server_inv (disconnect db_throws id st).1.
Proof.
  intros [Imem Ine Iun Irec Iam Iao].
  pose proof (membership_inv_step (Disconnect db_throws id) st Imem) as Imem'.
  pose proof (step_rooms_nonempty (Disconnect db_throws id) st Ine) as Ine'.
  simpl in Imem', Ine'.
  destruct (disconnect_state db_throws id st) as (Hreg & Hsocks & Hadapter & _).
  set (st' := (disconnect db_throws id st).1) in *.
  assert (∀ r, room_users st' r
               = match sockets st !! id with
                 | Some sock => users_after_leave id sock r (room_users st r)
                 | None => room_users st r
                 end) as Husers.
  { intros r. unfold room_users. rewrite Hreg.
    destruct (sockets st !! id); [apply room_users_leave|done]. }
  assert (∀ s r, in_room st' s r ↔ in_room st s r ∧ s ≠ id) as Hin.
  { intros s r. unfold in_room. rewrite Husers.
    destruct (sockets st !! id) as [sock|] eqn:Hsock.
    - rewrite in_room_users_after_leave. split.
      + intros [Hm Hn]. split; [done|]. intros ->. apply Hn. split; [done|].
        exact (member_is_leaving st id sock r Imem Hsock Hm).
      + intros [Hm Hn]. split; [done|]. by intros [? _].
    - split; [|by intros [? _]]. intros Hm. split; [done|]. intros ->.
      destruct Imem as [I1 _ _]. destruct (I1 _ _ Hm) as (? & ? & _). congruence. }
  assert (∀ s, is_connected st' s = true ↔ is_connected st s = true ∧ s ≠ id)
    as Hconn.
  { intros s. unfold is_connected. rewrite Hsocks.
    destruct (decide (s = id)) as [->|Hne].
    - rewrite lookup_alter_eq. destruct (sockets st !! id); simpl; naive_solver.
    - rewrite lookup_alter_ne by done. naive_solver. }
  assert (∀ s r, in_adapter_room st' s r = true
                 ↔ in_adapter_room st s r = true ∧ s ≠ id) as Had.
  { intros s r. unfold in_adapter_room. rewrite Hadapter.
    destruct (decide (s = id)) as [->|Hne].
    - rewrite lookup_delete_eq. naive_solver.
    - rewrite lookup_delete_ne by done. naive_solver. }
  split; try done.
  - intros r. rewrite Husers. destruct (sockets st !! id) as [sock|]; [|done].
    unfold users_after_leave. case_decide; auto using NoDup_keys_delete.
  - intros r k p Hkp.
    assert ((k, p) ∈ room_users st r) as Hold.
    { rewrite Husers in Hkp. destruct (sockets st !! id) as [sock|]; [|done].
      unfold users_after_leave in Hkp. case_decide; [|done].
      by apply elem_of_delete in Hkp as [? _]. }
    destruct (Irec _ _ _ Hold) as (Hid & sock' & Hs' & Hname).
    split; [done|]. rewrite Hsocks. destruct (decide (k = id)) as [->|Hne].
    + exists (set_closed sock'). by rewrite lookup_alter_eq, Hs'.
    + exists sock'. by rewrite lookup_alter_ne.
  - intros s r. rewrite Hconn, Hin, Had. intros [Hc Hne] [Hm _]. auto.
  - intros s r. rewrite Had, Hin. intros [Ha Hne].
    destruct (Iao _ _ Ha) as [?|?]; auto.
Qed.

Lemma server_inv_connection id st :
  server_inv st → server_inv (on_connection id st).1.
Proof.
  intros Hinv.
  pose proof (membership_inv_step (Connection id) st (inv_membership _ Hinv)) as Imem'.
  simpl in Imem'. revert Imem'. unfold on_connection.
  destruct (sockets st !! id) as [sock|] eqn:Hsock; [done|]. intros Imem'.
  destruct Hinv as [Imem Ine Iun Irec Iam Iao].
  assert (∀ r, ¬ in_room st id r) as Hout.
  { intros r Hm. destruct Imem as [I1 _ _].
    destruct (I1 _ _ Hm) as (? & ? & _). congruence. }
  split; try done.
  - intros r k p Hkp. destruct (Irec _ _ _ Hkp) as (Hid & sock' & Hs' & Hname).
    split; [done|]. exists sock'. simpl. rewrite lookup_insert_ne; [done|].
    congruence.
  - intros s r. unfold is_connected, in_adapter_room. simpl.
    destruct (decide (s = id)) as [->|Hne].
    + intros _ Hm. by destruct (Hout r).
    + rewrite !lookup_insert_ne by done. apply Iam.
  - intros s r. unfold in_adapter_room. simpl.
    destruct (decide (s = id)) as [->|Hne].
    + rewrite lookup_insert_eq. intros Hr. left.
      apply bool_decide_eq_true in Hr. by apply list_elem_of_singleton in Hr.
    + rewrite lookup_insert_ne by done. apply Iao.
Qed.

Lemma server_inv_step op st : server_inv st → server_inv (step op st).1.
Proof.
  intros Hinv.
  destruct op as [id|ft ut id roomId userName|id t o|id t a|id t c|dt id]; simpl.
  - by apply server_inv_connection.
  - destruct (on_join_room_cases ft ut id roomId userName st)
      as [->|(sock & room & Hsock & Hroom & -> & _)]; [done|].
    by eapply server_inv_join.
  - unfold on_offer. by destruct (sockets st !! id).
  - unfold on_answer. by destruct (sockets st !! id).
  - unfold on_ice_candidate. by destruct (sockets st !! id).
  - by apply server_inv_disconnect.
Qed.

Lemma server_inv_initial db : ids_truthy db → server_inv (initial db).
Proof.
  intros Hdb. split.
  - by apply membership_inv_initial.
  - apply rooms_nonempty_empty.
  - intros r. unfold room_users. simpl. rewrite lookup_empty. apply NoDup_nil_2.
  - intros r k p. unfold room_users. simpl. rewrite lookup_empty.
    by intros ?%elem_of_nil.
  - intros s r _. unfold in_room, room_users. simpl. rewrite lookup_empty.
    by intros ?%elem_of_nil.
  - intros s r. unfold in_adapter_room. simpl. by rewrite lookup_empty.
Qed.

Lemma run_server_inv db ops : ids_truthy db → server_inv (run ops (initial db)).1.
Proof.
  intros Hdb. apply (run_invariant server_inv); [apply server_inv_step|].
  by apply server_inv_initial.
Qed.

End ServerInvariant.

(** ** Counting deliveries *)

Section Counting.
Implicit Types (st : State) (id room B : string) (ev : Event).

Lemma filter_eq_none {A} `{EqDecision A} (x : A) (l : list A) :
  x ∉ l → filter (λ a, a = x) l = [].
Proof.
  induction l as [|a l IH]; [done|]. rewrite not_elem_of_cons. intros [Hne Hl].
  rewrite filter_cons, decide_False by done. by apply IH.
Qed.

Lemma filter_eq_once {A} `{EqDecision A} (x : A) (l : list A) :
  NoDup l → x ∈ l → filter (λ a, a = x) l = [x].
Proof.
  induction l as [|a l IH]; [by intros _ ?%elem_of_nil|].
  intros [Hnotin Hnd]%NoDup_cons Hin. rewrite filter_cons.
  destruct (decide (a = x)) as [->|Hne].
  - f_equal. by apply filter_eq_none.
  - apply elem_of_cons in Hin as [?|?]; [by subst|]. by apply IH.
Qed.

Lemma NoDup_recipients st sender room : NoDup (recipients st sender room).
Proof. unfold recipients. apply NoDup_filter, NoDup_fst_map_to_list. Qed.

Lemma NoDup_socket_to_emit st sender room ev :
  NoDup (socket_to_emit st sender room ev).
Proof.
  unfold socket_to_emit. apply NoDup_fmap_2; [|apply NoDup_recipients].
  by intros x y [= ->].
Qed.

(** A socket reached by a broadcast is handed the event once. *)
Lemma socket_to_emit_once st sender room ev B :
  reached st sender room B →
  filter (λ a, a = Deliver B ev) (socket_to_emit st sender room ev) = [Deliver B ev].
Proof.
  intros Hr. apply filter_eq_once; [apply NoDup_socket_to_emit|].
  apply elem_of_socket_to_emit. by exists B.
Qed.

Lemma socket_to_emit_other st sender room ev a :
  (∀ to, a ≠ Deliver to ev) →
  filter (λ x, x = a) (socket_to_emit st sender room ev) = [].
Proof.
  intros Hne. apply filter_eq_none.
  intros (to & -> & _)%elem_of_socket_to_emit. by destruct (Hne to).
Qed.

(** Two servers with the same socket objects and the same adapter reach
    the same sockets. *)
Lemma socket_to_emit_ext st st' sender room ev :
  sockets st' = sockets st → adapter st' = adapter st →
  socket_to_emit st' sender room ev = socket_to_emit st sender room ev.
Proof.
  intros Hs Ha. unfold socket_to_emit, recipients, in_adapter_room, is_connected.
  by rewrite Hs, Ha.
Qed.

Lemma reached_ext st st' sender room B :
  sockets st' = sockets st → adapter st' = adapter st →
  reached st' sender room B ↔ reached st sender room B.
Proof.
  intros Hs Ha. unfold reached, in_adapter_room, is_connected. by rewrite Hs, Ha.
Qed.

End Counting.

(** ** Rosters of reachable servers *)

Section RosterFacts.
Implicit Types (st : State) (sock : Socket) (id roomId r B : string).

Lemma roster_socketIds st r :
  server_inv st →
  socketId <$> JSMap.values (room_users st r) = (room_users st r).*1.
Proof.
  intros Hinv. unfold JSMap.values. rewrite <- list_fmap_compose.
  apply list_fmap_ext. intros i [k p] Hkp%list_elem_of_lookup_2. simpl.
  by destruct (inv_records _ Hinv r k p Hkp) as [-> _].
Qed.

Lemma filter_none {A} (P : A → Prop) `{∀ x, Decision (P x)} (l : list A) :
  (∀ x, x ∈ l → ¬ P x) → filter P l = [].
Proof.
  induction l as [|a l IH]; [done|]. intros Hall. rewrite filter_cons.
  rewrite decide_False by (apply Hall, list_elem_of_here).
  apply IH. intros x Hx. by apply Hall, list_elem_of_further.
Qed.

Lemma filter_by_key {A K} `{EqDecision K} (f : A → K) (l : list A) (x : A) :
  NoDup (f <$> l) → x ∈ l → filter (λ y, f y = f x) l = [x].
Proof.
  induction l as [|a l IH]; [by intros _ ?%elem_of_nil|].
  simpl. intros [Hnotin Hnd]%NoDup_cons Hin. rewrite filter_cons.
  apply elem_of_cons in Hin as [->|Hin].
  - rewrite decide_True by done. f_equal. apply filter_none.
    intros y Hy Heq. apply Hnotin. rewrite <- Heq.
    apply list_elem_of_fmap. by exists y.
  - rewrite decide_False; [by apply IH|]. intros Heq. apply Hnotin.
    rewrite Heq. apply list_elem_of_fmap. by exists x.
Qed.

(** X1.  In every state a run reaches, a room's participant list holds
    at most one record per socket id, and each record is that of a socket
    the server knows, carries that socket's id and the [userName] the
    socket object holds, and sits in the room the socket's [roomId]
    names. *)
Theorem roster_records_are_sound db ops roomId :
  ids_truthy db →
  let st := (run ops (initial db)).1 in
  NoDup (socketId <$> JSMap.values (room_users st roomId))
  ∧ ∀ p, p ∈ JSMap.values (room_users st roomId) →
      ∃ sock, sockets st !! socketId p = Some sock
              ∧ userName p = socket_userName sock
              ∧ socket_roomId sock = Some roomId.
Proof.
  intros Hdb. cbn zeta. pose proof (run_server_inv db ops Hdb) as Hinv.
  set (st := (run ops (initial db)).1) in *. split.
  - rewrite roster_socketIds by done. apply (inv_unique _ Hinv).
  - intros p [[k q] [-> Hkp]]%list_elem_of_fmap. simpl.
    destruct (inv_records _ Hinv _ _ _ Hkp) as (Hid & sock & Hs & Hname).
    exists sock. rewrite Hid. split_and!; [done..|].
    assert (in_room st k roomId) as Hm.
    { apply list_elem_of_fmap. by exists (k, q). }
    destruct (inv_member_field _ (inv_membership _ Hinv) _ _ Hm)
      as (sock' & Hs' & Hf & _).
    congruence.
Qed.

Lemma roster_records_are_sound_witness :
  let st := (run Tour.meet (initial Scenario.rooms)).1 in
  NoDup (socketId <$> JSMap.values (room_users st "abc"))
  ∧ ∀ p, p ∈ JSMap.values (room_users st "abc") →
      ∃ sock, sockets st !! socketId p = Some sock
              ∧ userName p = socket_userName sock
              ∧ socket_roomId sock = Some "abc".
Proof.
  exact (roster_records_are_sound Scenario.rooms Tour.meet "abc" scenario_ids_truthy).
Defined.

End RosterFacts.

(** ** What a join tells the others *)

Section JoinNotices.
Implicit Types (st : State) (sock : Socket) (id roomId r p B : string).

Lemma leave_previous_room_acts_eq id sock st :
  (leave_previous_room id sock st).2
  = match leaving_room sock with
    | Some p =>
        match activeRooms st !! p with
        | Some users =>
            if decide (JSMap.size (JSMap.delete id users) = 0) then []
            else socket_to_emit (socket_leave id p st) id p (EvUserLeft id None)
        | None => []
        end
    | None => []
    end.
Proof.
  unfold leave_previous_room, leaving_room.
  destruct (socket_roomId sock) as [p|]; [|done].
  destruct (truthy p); [|done]. cbn zeta.
  change (activeRooms (socket_leave id p st)) with (activeRooms st).
  destruct (activeRooms st !! p) as [users|]; [|done].
  by case_decide.
Qed.

Lemma reached_socket_leave st id p room B :
  reached (socket_leave id p st) id room B ↔ reached st id room B.
Proof.
  unfold reached, is_connected, in_adapter_room. simpl.
  destruct (decide (B = id)) as [->|Hne]; [naive_solver|].
  by rewrite lookup_alter_ne.
Qed.

Lemma reached_joined_state st id sock roomId userName room B :
  reached (joined_state id sock roomId userName st) id room B
  ↔ reached st id room B.
Proof.
  unfold reached.
  destruct (joined_state_components id sock roomId userName st) as (_ & Hs & _).
  rewrite (is_connected_alter st (set_joined roomId userName) id B _ (λ _, eq_refl) Hs).
  assert (B ≠ id → in_adapter_room (joined_state id sock roomId userName st) B room
                   = in_adapter_room st B room) as Ha.
  { intros Hne. apply eq_true_iff_eq. rewrite in_adapter_room_joined. naive_solver. }
  split; intros (Hne & Hc & Hr); split_and!; try done.
  - by rewrite <- Ha.
  - by rewrite Ha.
Qed.

Lemma elem_of_socket_emit st id ev a :
  a ∈ socket_emit st id ev → a = Deliver id ev.
Proof.
  unfold socket_emit. destruct (is_connected st id).
  - by intros ?%list_elem_of_singleton.
  - by intros ?%elem_of_nil.
Qed.

(** The actions of a join that goes through, piece by piece. *)
Lemma join_acts update_throws id sock room roomId userName st :
  sockets st !! id = Some sock → Room st !! roomId = Some room →
  let st2 := joined_state id sock roomId userName st in
  ∃ tail,
    (on_join_room false update_throws id roomId userName st).2
    = [Db (FindById roomId)]
      ++ (leave_previous_room id sock st).2
      ++ socket_emit st2 id (EvRoomUsers (JSMap.values (room_users st2 roomId)))
      ++ socket_to_emit st2 id roomId (EvUserJoined userName id)
      ++ [Db (FindByIdAndUpdate roomId (JSMap.size (room_users st2 roomId)))]
      ++ tail
    ∧ (∀ a, a ∈ tail →
         a = ConsoleError "Error joining room:"
         ∨ a = Deliver id (EvError "Failed to join room")).
Proof.
  intros Hsock Hroom. cbn zeta.
  rewrite (on_join_room_found _ _ _ _ _ _ _ Hsock Hroom). cbn [snd].
  rewrite join_found_unfold. cbn zeta.
  destruct update_throws; cbn [snd].
  - eexists. split.
    + simpl. rewrite <- !app_assoc. reflexivity.
    + intros a [->|Ha%elem_of_socket_emit]%elem_of_cons; [by left|by right].
  - exists []. split; [by rewrite app_nil_r|]. by intros a ?%elem_of_nil.
Qed.

(** X2.  In a state a run reaches, when socket [id] joins a room in which
    a connected socket [B] already is, [B] is handed [user-joined] with
    the joiner's name and id exactly once, and the room's list after the
    join (the roster the joiner is sent) holds exactly one record for
    [B], with [B]'s name. *)
Theorem join_introduces_member_once
    db ops update_throws id sock room roomId userName B sockB :
  ids_truthy db →
  let st := (run ops (initial db)).1 in
  sockets st !! id = Some sock →
  Room st !! roomId = Some room →
  B ≠ id →
  sockets st !! B = Some sockB →
  socket_connected sockB = true →
  in_room st B roomId →
  let '(st', acts) := on_join_room false update_throws id roomId userName st in
  filter (λ a, a = Deliver B (EvUserJoined userName id)) acts
  = [Deliver B (EvUserJoined userName id)]
  ∧ filter (λ q, socketId q = B) (JSMap.values (room_users st' roomId))
    = [{| userName := socket_userName sockB; socketId := B |}].
Proof.
  intros Hdb. cbn zeta. pose proof (run_server_inv db ops Hdb) as Hinv.
  set (st := (run ops (initial db)).1) in *.
  intros Hsock Hroom Hne HsockB HconnB HinB.
  pose proof (server_inv_join update_throws id sock room roomId userName st
                Hsock Hroom Hinv) as Hinv'.
  pose proof (room_users_joined update_throws id sock room roomId userName st
                roomId Hsock Hroom) as Husers.
  destruct (on_join_room_found_state update_throws id sock room roomId userName st
              Hsock Hroom) as (_ & Hsocks & _ & _).
  destruct (join_acts update_throws id sock room roomId userName st Hsock Hroom)
    as (tail & Hacts & Htail).
  destruct (on_join_room false update_throws id roomId userName st)
    as [st' acts] eqn:E. cbn [fst snd] in *.
  assert (is_connected st B = true) as Hc.
  { unfold is_connected. by rewrite HsockB. }
  split.
  - rewrite Hacts, !filter_app.
    rewrite (socket_to_emit_once _ _ _ _ B).
    2:{ apply reached_joined_state. split_and!; [done..|].
        by apply (inv_adapter_member _ Hinv). }
    rewrite (filter_eq_none _ [Db (FindById roomId)]).
    2:{ by intros ?%list_elem_of_singleton. }
    rewrite (filter_eq_none _ (leave_previous_room id sock st).2).
    2:{ by intros [to ?]%leave_previous_room_acts. }
    rewrite (filter_eq_none _ (socket_emit _ _ _)).
    2:{ by intros ?%elem_of_socket_emit. }
    rewrite (filter_eq_none _ [Db _]).
    2:{ by intros ?%list_elem_of_singleton. }
    rewrite (filter_eq_none _ tail).
    2:{ intros Ht. destruct (Htail _ Ht) as [?|[= ? ?]]; done. }
    done.
  - assert (in_room st' B roomId) as HinB'.
    { unfold in_room. rewrite Husers. apply in_room_users_after_join.
      right. split; [done|]. by intros [? _]. }
    apply list_elem_of_fmap in HinB' as [[k q] [Hk Hkq]]. simpl in Hk. subst k.
    destruct (inv_records _ Hinv' _ _ _ Hkq) as (Hid & sock' & Hs' & Hname).
    rewrite Hsocks, lookup_alter_ne, HsockB in Hs' by done. simplify_eq.
    assert (q = {| userName := socket_userName sock'; socketId := socketId q |})
      as Hq by (destruct q; simpl in *; by subst).
    rewrite <- Hq.
    apply (filter_by_key socketId).
    + rewrite roster_socketIds by done. apply (inv_unique _ Hinv').
    + apply list_elem_of_fmap. by exists (socketId q, q).
Qed.

Lemma join_introduces_member_once_witness :
  let '(st', acts) :=
    on_join_room false false "B" "x" Scenario.bob
      (run Tour.solo (initial Scenario.rooms)).1 in
  filter (λ a, a = Deliver "A" (EvUserJoined Scenario.bob "B")) acts
  = [Deliver "A" (EvUserJoined Scenario.bob "B")]
  ∧ filter (λ q, socketId q = "A") (JSMap.values (room_users st' "x"))
    = [{| userName := Scenario.alice; socketId := "A" |}].
Proof.
  apply (join_introduces_member_once Scenario.rooms Tour.solo false "B"
           {| socket_roomId := None; socket_userName := JUndefined;
              socket_connected := true |}
           {| isActive := true; participants := 1 |} "x" Scenario.bob "A"
           {| socket_roomId := Some "x"; socket_userName := Scenario.alice;
              socket_connected := true |});
    first [exact scenario_ids_truthy | by_evaluation].
Defined.

(** X3.  In a state a run reaches, when socket [id], a member of room [p],
    joins a room that exists, every other connected member [B] of [p] is
    handed [user-left] with [id] and without a [userName] exactly once,
    and is never handed a [user-left] that carries a name; if the room
    joined is another one, [id] is out of [p] and [B] still in. *)
Theorem switch_tells_each_remaining_member_once
    db ops update_throws id sock room roomId userName p B :
  ids_truthy db →
  let st := (run ops (initial db)).1 in
  sockets st !! id = Some sock →
  Room st !! roomId = Some room →
  in_room st id p →
  B ≠ id →
  is_connected st B = true →
  in_room st B p →
  let '(st', acts) := on_join_room false update_throws id roomId userName st in
  filter (λ a, a = Deliver B (EvUserLeft id None)) acts
  = [Deliver B (EvUserLeft id None)]
  ∧ (∀ to name, Deliver to (EvUserLeft id (Some name)) ∉ acts)
  ∧ (p ≠ roomId → ¬ in_room st' id p ∧ in_room st' B p).
Proof.
  intros Hdb. cbn zeta. pose proof (run_server_inv db ops Hdb) as Hinv.
  set (st := (run ops (initial db)).1) in *.
  intros Hsock Hroom Hin Hne Hc HinB.
  pose proof (room_users_joined update_throws id sock room roomId userName st
                p Hsock Hroom) as Husers.
  destruct (join_acts update_throws id sock room roomId userName st Hsock Hroom)
    as (tail & Hacts & Htail).
  destruct (on_join_room false update_throws id roomId userName st)
    as [st' acts] eqn:E. cbn [fst snd] in *.
  pose proof (member_is_leaving st id sock p (inv_membership _ Hinv) Hsock Hin)
    as Hleaving.
  assert (∃ users, activeRooms st !! p = Some users ∧ B ∈ users.*1)
    as (users & Hreg & HB).
  { unfold in_room, room_users in HinB.
    destruct (activeRooms st !! p) as [users|]; [eauto|].
    by apply elem_of_nil in HinB. }
  assert ((leave_previous_room id sock st).2
          = socket_to_emit (socket_leave id p st) id p (EvUserLeft id None)) as Hleft.
  { rewrite leave_previous_room_acts_eq, Hleaving, Hreg.
    rewrite decide_False; [done|]. rewrite size_0_nil. intros Hnil.
    assert (B ∈ (JSMap.delete id users).*1) as HB'
      by (by apply elem_of_keys_delete).
    rewrite Hnil in HB'. by apply elem_of_nil in HB'. }
  split_and!.
  - rewrite Hacts, !filter_app, Hleft.
    rewrite (socket_to_emit_once _ _ _ _ B).
    2:{ apply reached_socket_leave. split_and!; [done..|].
        by apply (inv_adapter_member _ Hinv). }
    rewrite (filter_eq_none _ [Db (FindById roomId)]).
    2:{ by intros ?%list_elem_of_singleton. }
    rewrite (filter_eq_none _ (socket_emit _ _ _)).
    2:{ by intros ?%elem_of_socket_emit. }
    rewrite (socket_to_emit_other _ _ _ (EvUserJoined userName id)) by done.
    rewrite (filter_eq_none _ [Db _]).
    2:{ by intros ?%list_elem_of_singleton. }
    rewrite (filter_eq_none _ tail).
    2:{ intros Ht. destruct (Htail _ Ht) as [?|[= ? ?]]; done. }
    done.
  - intros to name. rewrite Hacts, !elem_of_app.
    intros [?%list_elem_of_singleton|[Hl|[?%elem_of_socket_emit|[Hj|[?%list_elem_of_singleton|Ht]]]]];
      try done.
    + by apply leave_previous_room_acts in Hl as [? ?].
    + by apply elem_of_socket_to_emit in Hj as (? & ? & _).
    + destruct (Htail _ Ht) as [?|?]; done.
  - intros Hpr. unfold in_room. rewrite Husers, !in_room_users_after_join. split.
    + intros [[_ ?]|[_ Hn]]; [done|]. by apply Hn.
    + right. split; [done|]. by intros [? _].
Qed.

Lemma switch_tells_each_remaining_member_once_witness :
  let '(st', acts) :=
    on_join_room false false "B" "y" Scenario.bob
      (run Tour.meet (initial Scenario.rooms)).1 in
  filter (λ a, a = Deliver "A" (EvUserLeft "B" None)) acts
  = [Deliver "A" (EvUserLeft "B" None)]
  ∧ (∀ to name, Deliver to (EvUserLeft "B" (Some name)) ∉ acts)
  ∧ ("abc" ≠ "y" → ¬ in_room st' "B" "abc" ∧ in_room st' "A" "abc").
Proof.
  apply (switch_tells_each_remaining_member_once Scenario.rooms Tour.meet false "B"
           {| socket_roomId := Some "abc"; socket_userName := Scenario.bob;
              socket_connected := true |}
           Scenario.fresh_room "y" Scenario.bob "abc" "A");
    first [exact scenario_ids_truthy | by_evaluation].
Defined.

End JoinNotices.

(** ** Occupancy *)

Section Occupancy.
Implicit Types (st : State) (sock : Socket) (id roomId r p B : string).

Lemma step_db_shrinks op st : db_shrinks (Room st) (Room (step op st).1).
Proof.
  destruct op as [id|ft ut id roomId userName|id t o|id t a|id t c|dt id]; simpl.
  - unfold on_connection. destruct (sockets st !! id); apply db_shrinks_refl.
  - destruct (on_join_room_cases ft ut id roomId userName st)
      as [->|(sock & room & _ & _ & _ & ->)]; [apply db_shrinks_refl|].
    by destruct (join_found_state ut id sock roomId userName st) as (_ & _ & ?).
  - unfold on_offer. destruct (sockets st !! id); apply db_shrinks_refl.
  - unfold on_answer. destruct (sockets st !! id); apply db_shrinks_refl.
  - unfold on_ice_candidate. destruct (sockets st !! id); apply db_shrinks_refl.
  - by destruct (disconnect_state dt id st) as (_ & _ & _ & ?).
Qed.

Lemma run_db_shrinks ops st : db_shrinks (Room st) (Room (run ops st).1).
Proof.
  revert st. induction ops as [|op ops IH]; intros st; simpl.
  - apply db_shrinks_refl.
  - pose proof (step_db_shrinks op st) as Hs. destruct (step op st) as [st1 acts].
    specialize (IH st1). destruct (run ops st1) as [st2 acts2]. simpl in *.
    intros r Hr. by apply Hs, IH.
Qed.

Lemma seat_freed st id sock r :
  server_inv st → sockets st !! id = Some sock →
  JSMap.size (users_after_leave id sock r (room_users st r))
    + (if decide (in_room st id r) then 1 else 0)
  = JSMap.size (room_users st r)
  ∧ id ∉ (users_after_leave id sock r (room_users st r)).*1.
Proof.
  intros Hinv Hsock. unfold users_after_leave.
  destruct (decide (in_room st id r)) as [Hin|Hout].
  - rewrite decide_True
      by exact (member_is_leaving st id sock r (inv_membership _ Hinv) Hsock Hin).
    split.
    + pose proof (size_delete_member id (room_users st r) (inv_unique _ Hinv r) Hin).
      lia.
    + rewrite elem_of_keys_delete. tauto.
  - case_decide.
    + rewrite delete_absent by done. split; [lia|done].
    + split; [lia|done].
Qed.

(** X4.  In a state a run reaches, a join that goes through takes one
    seat from the room the socket was in, if any, and adds one to the room
    joined, leaving every other room's occupancy as it was (re-joining the
    same room changes no count); and when the update does not throw the
    document of the room joined records exactly the new occupancy. *)
Theorem join_moves_one_seat db ops update_throws id sock room roomId userName r :
  ids_truthy db →
  let st := (run ops (initial db)).1 in
  sockets st !! id = Some sock →
  Room st !! roomId = Some room →
  let st' := (on_join_room false update_throws id roomId userName st).1 in
  occupancy st' r + (if decide (in_room st id r) then 1 else 0)
  = occupancy st r + (if decide (r = roomId) then 1 else 0)
  ∧ (update_throws = false →
     Room st' !! roomId = Some (set_participants (occupancy st' roomId) room)).
Proof.
  intros Hdb. cbn zeta. pose proof (run_server_inv db ops Hdb) as Hinv.
  set (st := (run ops (initial db)).1) in *. intros Hsock Hroom.
  pose proof (room_users_joined update_throws id sock room roomId userName st)
    as Husers.
  split.
  - unfold occupancy. rewrite Husers by done.
    destruct (seat_freed st id sock r Hinv Hsock) as [Hsize Hnotin].
    unfold users_after_join, users_after_leave in *. cbn zeta.
    destruct (decide (r = roomId)) as [->|Hr].
    + rewrite size_set_new by done. lia.
    + lia.
  - intros ->.
    destruct (on_join_room_found_state false id sock room roomId userName st
                Hsock Hroom) as (Hreg & _ & _ & Hdoc).
    destruct (joined_state_components id sock roomId userName st) as (Hreg2 & _).
    rewrite Hdoc, lookup_alter_eq, Hroom. simpl. do 2 f_equal.
    unfold occupancy, room_users. by rewrite Hreg, Hreg2.
Qed.

Lemma join_moves_one_seat_witness :
  let st := (run Tour.meet (initial Scenario.rooms)).1 in
  let st' := (on_join_room false false "B" "x" Scenario.bob st).1 in
  occupancy st' "abc" + (if decide (in_room st "B" "abc") then 1 else 0)
  = occupancy st "abc" + (if decide ("abc" = "x") then 1 else 0)
  ∧ (false = false →
     Room st' !! "x"
     = Some (set_participants (occupancy st' "x") Scenario.fresh_room)).
Proof.
  apply (join_moves_one_seat Scenario.rooms Tour.meet false "B"
           {| socket_roomId := Some "abc"; socket_userName := Scenario.bob;
              socket_connected := true |}
           Scenario.fresh_room "x" Scenario.bob "abc");
    first [exact scenario_ids_truthy | by_evaluation].
Defined.

(** X5.  In a state a run reaches, a disconnect takes one seat from the
    room the socket was in and none from any other room, leaves the socket
    in no room and out of the namespace, and changes no other socket
    object. *)
Theorem disconnect_frees_one_seat db ops db_throws id sock r :
  ids_truthy db →
  let st := (run ops (initial db)).1 in
  sockets st !! id = Some sock →
  let st' := (disconnect db_throws id st).1 in
  occupancy st' r + (if decide (in_room st id r) then 1 else 0) = occupancy st r
  ∧ ¬ in_room st' id r
  ∧ is_connected st' id = false
  ∧ ∀ B, B ≠ id → sockets st' !! B = sockets st !! B.
Proof.
  intros Hdb. cbn zeta. pose proof (run_server_inv db ops Hdb) as Hinv.
  set (st := (run ops (initial db)).1) in *. intros Hsock.
  pose proof (room_users_disconnected db_throws id sock st r Hsock) as Husers.
  destruct (seat_freed st id sock r Hinv Hsock) as [Hsize Hnotin].
  destruct (disconnect_state db_throws id st) as (_ & Hsocks & _ & _).
  split_and!.
  - unfold occupancy. by rewrite Husers.
  - unfold in_room. by rewrite Husers.
  - unfold is_connected. by rewrite Hsocks, lookup_alter_eq, Hsock.
  - intros B Hne. by rewrite Hsocks, lookup_alter_ne.
Qed.

Lemma disconnect_frees_one_seat_witness :
  let st := (run Tour.meet (initial Scenario.rooms)).1 in
  let st' := (disconnect false "B" st).1 in
  occupancy st' "abc" + (if decide (in_room st "B" "abc") then 1 else 0)
  = occupancy st "abc"
  ∧ ¬ in_room st' "B" "abc"
  ∧ is_connected st' "B" = false
  ∧ ∀ B, B ≠ "B" → sockets st' !! B = sockets st !! B.
Proof.
  apply (disconnect_frees_one_seat Scenario.rooms Tour.meet false "B"
           {| socket_roomId := Some "abc"; socket_userName := Scenario.bob;
              socket_connected := true |} "abc");
    first [exact scenario_ids_truthy | by_evaluation].
Defined.

End Occupancy.

(** ** What a disconnect tells the others *)

Section DisconnectNotices.
Implicit Types (st : State) (sock : Socket) (id roomId r p B : string).

Lemma disconnect_unfold db_throws id sock st r users :
  sockets st !! id = Some sock →
  leaving_room sock = Some r →
  activeRooms st !! r = Some users →
  disconnect db_throws id st
  = let base := transport_close id st in
    let users' := JSMap.delete id users in
    let log := ConsoleLog "User disconnected" in
    if decide (JSMap.size users' = 0) then
      let st1 := with_activeRooms (delete r) base in
      if db_throws then (st1, [log; Db (FindByIdAndDelete r); Unhandled])
      else (with_Room (delete r) st1, [log; Db (FindByIdAndDelete r)])
    else
      let st1 := with_activeRooms (<[r := users']>) base in
      let leaving := socket_to_emit base id r
                       (EvUserLeft id (Some (socket_userName sock))) in
      let update := Db (FindByIdAndUpdate r (JSMap.size users')) in
      if db_throws then (st1, [log] ++ leaving ++ [update; Unhandled])
      else (with_Room (alter (set_participants (JSMap.size users')) r) st1,
            [log] ++ leaving ++ [update]).
Proof.
  intros Hsock [Hfield Htr]%leaving_room_Some Hreg.
  unfold disconnect, on_disconnect.
  assert (sockets (transport_close id st) !! id = Some (set_closed sock)) as ->.
  { simpl. by rewrite lookup_alter_eq, Hsock. }
  cbn [socket_roomId socket_userName set_closed]. rewrite Hfield, Htr.
  change (activeRooms (transport_close id st)) with (activeRooms st).
  by rewrite Hreg.
Qed.

Lemma member_room_entry st id r :
  in_room st id r → ∃ users, activeRooms st !! r = Some users ∧ id ∈ users.*1.
Proof.
  unfold in_room, room_users. destruct (activeRooms st !! r) as [users|]; [eauto|].
  by intros ?%elem_of_nil.
Qed.

(** X6.  In a state a run reaches, when a member [id] of room [r]
    disconnects while another connected member [B] is there, [B] is
    handed [user-left] with [id] and the name the socket holds exactly
    once, [B] stays a member, the only call on the collection is one
    [findByIdAndUpdate] of [r] with the occupancy left, and when that
    call does not throw the document of [r] records that occupancy. *)
Theorem disconnect_tells_each_remaining_member_once
    db ops db_throws id sock r B :
  ids_truthy db →
  let st := (run ops (initial db)).1 in
  sockets st !! id = Some sock →
  in_room st id r →
  B ≠ id →
  is_connected st B = true →
  in_room st B r →
  let '(st', acts) := disconnect db_throws id st in
  filter (λ a, a = Deliver B (EvUserLeft id (Some (socket_userName sock)))) acts
  = [Deliver B (EvUserLeft id (Some (socket_userName sock)))]
  ∧ in_room st' B r
  ∧ db_calls acts = [FindByIdAndUpdate r (occupancy st' r)]
  ∧ (db_throws = false → ∀ room, Room st !! r = Some room →
       Room st' !! r = Some (set_participants (occupancy st' r) room)).
Proof.
  intros Hdb. cbn zeta. pose proof (run_server_inv db ops Hdb) as Hinv.
  set (st := (run ops (initial db)).1) in *.
  intros Hsock Hin Hne Hc HinB.
  pose proof (member_is_leaving st id sock r (inv_membership _ Hinv) Hsock Hin)
    as Hleaving.
  destruct (member_room_entry st B r HinB) as (users & Hreg & HB).
  rewrite (disconnect_unfold db_throws id sock st r users Hsock Hleaving Hreg).
  cbn zeta.
  assert (B ∈ (JSMap.delete id users).*1) as HB' by (by apply elem_of_keys_delete).
  rewrite decide_False.
  2:{ rewrite size_0_nil. intros Hnil. rewrite Hnil in HB'.
      by apply elem_of_nil in HB'. }
  assert (reached (transport_close id st) id r B) as Hreached.
  { apply reached_transport_close; [done..|]. by apply (inv_adapter_member _ Hinv). }
  assert (∀ tail,
    (∀ a, a ∈ tail → ∃ call, a = Db call ∨ a = Unhandled) →
    filter (λ a, a = Deliver B (EvUserLeft id (Some (socket_userName sock))))
      ([ConsoleLog "User disconnected"]
       ++ socket_to_emit (transport_close id st) id r
            (EvUserLeft id (Some (socket_userName sock))) ++ tail)
    = [Deliver B (EvUserLeft id (Some (socket_userName sock)))]) as Hcount.
  { intros tail Htail. rewrite !filter_app.
    rewrite (socket_to_emit_once _ _ _ _ B) by done.
    rewrite (filter_eq_none _ [ConsoleLog _]).
    2:{ by intros ?%list_elem_of_singleton. }
    rewrite (filter_eq_none _ tail); [done|].
    intros Ht. destruct (Htail _ Ht) as [call [?|?]]; done. }
  assert (∀ tail,
    db_calls ([ConsoleLog "User disconnected"]
              ++ socket_to_emit (transport_close id st) id r
                   (EvUserLeft id (Some (socket_userName sock))) ++ tail)
    = db_calls tail) as Hcalls.
  { intros tail. unfold socket_to_emit. simpl.
    generalize (recipients (transport_close id st) id r). intros l.
    by induction l. }
  destruct db_throws; cbn [fst snd]; split_and!.
  - apply Hcount. intros a [->|[->|?%elem_of_nil]%elem_of_cons]%elem_of_cons;
      [eexists; by left | exists (FindById r); by right | done].
  - unfold in_room, room_users. simpl. by rewrite lookup_insert_eq.
  - rewrite Hcalls. unfold occupancy, room_users. simpl. by rewrite lookup_insert_eq.
  - done.
  - apply Hcount. intros a [->|?%elem_of_nil]%elem_of_cons; [|done].
    eexists. by left.
  - unfold in_room, room_users. simpl. by rewrite lookup_insert_eq.
  - rewrite Hcalls. unfold occupancy, room_users. simpl. by rewrite lookup_insert_eq.
  - intros _ room Hroom. unfold occupancy, room_users. simpl.
    by rewrite lookup_alter_eq, Hroom, lookup_insert_eq.
Qed.

Lemma disconnect_tells_each_remaining_member_once_witness :
  let '(st', acts) :=
    disconnect false "B" (run Tour.meet (initial Scenario.rooms)).1 in
  filter (λ a, a = Deliver "A" (EvUserLeft "B" (Some Scenario.bob))) acts
  = [Deliver "A" (EvUserLeft "B" (Some Scenario.bob))]
  ∧ in_room st' "A" "abc"
  ∧ db_calls acts = [FindByIdAndUpdate "abc" (occupancy st' "abc")]
  ∧ (false = false → ∀ room,
       Room (run Tour.meet (initial Scenario.rooms)).1 !! "abc" = Some room →
       Room st' !! "abc" = Some (set_participants (occupancy st' "abc") room)).
Proof.
  apply (disconnect_tells_each_remaining_member_once Scenario.rooms Tour.meet false
           "B" {| socket_roomId := Some "abc"; socket_userName := Scenario.bob;
                  socket_connected := true |} "abc" "A");
    first [exact scenario_ids_truthy | by_evaluation].
Defined.

(** A join is turned away, with the server left as it was, when the
    lookup throws or finds no document. *)
Lemma join_rejected_state find_throws update_throws id roomId userName st :
  find_throws = true ∨ Room st !! roomId = None →
  (on_join_room find_throws update_throws id roomId userName st).1 = st.
Proof.
  intros Hrej. unfold on_join_room. destruct (sockets st !! id); [|done].
  destruct find_throws; [done|]. destruct Hrej as [? | ->]; done.
Qed.

(** X7.  In a state a run reaches, when the only member of room [r]
    disconnects, [r] leaves the registry, nobody is notified, and the only
    call on the collection is one [findByIdAndDelete] of [r]; when that
    call does not throw the document is gone for good: whatever events
    follow, every later join of [r] leaves the server unchanged. *)
Theorem last_disconnect_closes_room db ops db_throws id sock r :
  ids_truthy db →
  let st := (run ops (initial db)).1 in
  sockets st !! id = Some sock →
  in_room st id r →
  occupancy st r = 1 →
  let '(st', acts) := disconnect db_throws id st in
  activeRooms st' !! r = None
  ∧ db_calls acts = [FindByIdAndDelete r]
  ∧ (∀ to ev, Deliver to ev ∉ acts)
  ∧ (db_throws = false →
     ∀ later find_throws update_throws id' userName,
       let st'' := (run later st').1 in
       (on_join_room find_throws update_throws id' r userName st'').1 = st'').
Proof.
  intros Hdb. cbn zeta. pose proof (run_server_inv db ops Hdb) as Hinv.
  set (st := (run ops (initial db)).1) in *.
  intros Hsock Hin Hocc.
  pose proof (member_is_leaving st id sock r (inv_membership _ Hinv) Hsock Hin)
    as Hleaving.
  destruct (member_room_entry st id r Hin) as (users & Hreg & Hid).
  rewrite (disconnect_unfold db_throws id sock st r users Hsock Hleaving Hreg).
  cbn zeta.
  assert (JSMap.size (JSMap.delete id users) = 0) as Hzero.
  { pose proof (inv_unique _ Hinv r) as Hnd. unfold occupancy, room_users in *.
    rewrite Hreg in *. simpl in *.
    pose proof (size_delete_member id users Hnd Hid). lia. }
  rewrite decide_True by done.
  destruct db_throws; cbn [fst snd]; split_and!; try done.
  - simpl. by rewrite lookup_delete_eq.
  - intros to ev. rewrite !elem_of_cons.
    intros [?|[?|[?|?%elem_of_nil]]]; done.
  - simpl. by rewrite lookup_delete_eq.
  - intros to ev. rewrite !elem_of_cons. intros [?|[?|?%elem_of_nil]]; done.
  - intros _ later find_throws update_throws id' userName.
    apply join_rejected_state. right.
    set (st1 := with_Room (delete r)
                  (with_activeRooms (delete r) (transport_close id st))).
    destruct (Room (run later st1).1 !! r) as [doc|] eqn:Hdoc; [|done].
    assert (is_Some (Room st1 !! r)) as [? Habs].
    { apply (run_db_shrinks later st1). eauto. }
    simpl in Habs. by rewrite lookup_delete_eq in Habs.
Qed.

Lemma last_disconnect_closes_room_witness :
  let '(st', acts) :=
    disconnect false "A" (run Tour.solo (initial Scenario.rooms)).1 in
  activeRooms st' !! "x" = None
  ∧ db_calls acts = [FindByIdAndDelete "x"]
  ∧ (∀ to ev, Deliver to ev ∉ acts)
  ∧ (false = false →
     ∀ later find_throws update_throws id' userName,
       let st'' := (run later st').1 in
       (on_join_room find_throws update_throws id' "x" userName st'').1 = st'').
Proof.
  apply (last_disconnect_closes_room Scenario.rooms Tour.solo false "A"
           {| socket_roomId := Some "x"; socket_userName := Scenario.alice;
              socket_connected := true |} "x");
    first [exact scenario_ids_truthy | by_evaluation].
Defined.

End DisconnectNotices.

(** ** Joins that are turned away, and joins that come too late *)

Section JoinEdges.
Implicit Types (st : State) (sock : Socket) (id roomId r p B : string).

(** X8.  A join by a connected socket whose lookup throws, or finds no
    document, leaves the server exactly as it was; the only call on the
    collection is the lookup, and the only event is one [error] on the
    requester's own socket, ['Failed to join room'] (after a console line)
    when the lookup threw and ['Room not found'] when nothing was found. *)
Theorem rejected_join_changes_nothing
    find_throws update_throws id roomId userName st :
  is_connected st id = true →
  find_throws = true ∨ Room st !! roomId = None →
  on_join_room find_throws update_throws id roomId userName st
  = (st,
     [Db (FindById roomId)]
     ++ (if find_throws then [ConsoleError "Error joining room:"] else [])
     ++ [Deliver id (EvError (if find_throws then "Failed to join room"
                              else "Room not found"))]).
Proof.
  intros Hconn Hrej. unfold on_join_room, socket_emit. rewrite Hconn.
  unfold is_connected in Hconn. destruct (sockets st !! id) as [sock|]; [|done].
  destruct find_throws; [done|]. destruct Hrej as [? | ->]; done.
Qed.

Lemma rejected_join_changes_nothing_witness :
  on_join_room false false "A" "nowhere" Scenario.alice Scenario.lobby
  = (Scenario.lobby,
     [Db (FindById "nowhere")] ++ []
     ++ [Deliver "A" (EvError "Room not found")]).
Proof.
  apply (rejected_join_changes_nothing false false "A" "nowhere" Scenario.alice
           Scenario.lobby).
  - by_evaluation.
  - right. by_evaluation.
Defined.

Lemma in_room_step_other op st id r :
  op_socket op ≠ id →
  in_room (step op st).1 id r ↔ in_room st id r.
Proof.
  intros Hne.
  destruct op as [s|ft ut s roomId userName|s t o|s t a|s t c|dt s]; simpl in *.
  - unfold on_connection. by destruct (sockets st !! s).
  - destruct (on_join_room_cases ft ut s roomId userName st)
      as [->|(sock & room & _ & _ & _ & ->)]; [done|].
    destruct (join_found_state ut s sock roomId userName st) as (Hreg & _ & _).
    unfold in_room, room_users. rewrite Hreg.
    fold (reg_in_room (registry_add s roomId userName
            (registry_leave s sock (activeRooms st))) id r).
    rewrite reg_in_room_add, reg_in_room_leave. unfold reg_in_room. naive_solver.
  - unfold on_offer. by destruct (sockets st !! s).
  - unfold on_answer. by destruct (sockets st !! s).
  - unfold on_ice_candidate. by destruct (sockets st !! s).
  - destruct (disconnect_state dt s st) as (Hreg & _).
    unfold in_room, room_users. rewrite Hreg.
    destruct (sockets st !! s) as [sock|]; [|done].
    fold (reg_in_room (registry_leave s sock (activeRooms st)) id r).
    rewrite reg_in_room_leave. unfold reg_in_room. naive_solver.
Qed.

Lemma sockets_step_other op st id :
  op_socket op ≠ id → sockets (step op st).1 !! id = sockets st !! id.
Proof.
  intros Hne.
  destruct op as [s|ft ut s roomId userName|s t o|s t a|s t c|dt s]; simpl in *.
  - unfold on_connection. destruct (sockets st !! s); [done|].
    simpl. by rewrite lookup_insert_ne.
  - destruct (on_join_room_cases ft ut s roomId userName st)
      as [->|(sock & room & _ & _ & _ & ->)]; [done|].
    destruct (join_found_state ut s sock roomId userName st) as (_ & -> & _).
    by rewrite lookup_alter_ne.
  - unfold on_offer. by destruct (sockets st !! s).
  - unfold on_answer. by destruct (sockets st !! s).
  - unfold on_ice_candidate. by destruct (sockets st !! s).
  - destruct (disconnect_state dt s st) as (_ & -> & _).
    by rewrite lookup_alter_ne.
Qed.

Lemma adapter_step_other op st id :
  op_socket op ≠ id → adapter (step op st).1 !! id = adapter st !! id.
Proof.
  intros Hne.
  destruct op as [s|ft ut s roomId userName|s t o|s t a|s t c|dt s]; simpl in *.
  - unfold on_connection. destruct (sockets st !! s); [done|].
    simpl. by rewrite lookup_insert_ne.
  - destruct (on_join_room_cases ft ut s roomId userName st)
      as [->|(sock & room & Hsock & Hroom & -> & _)]; [done|].
    destruct (on_join_room_found_state ut s sock room roomId userName st
                Hsock Hroom) as (_ & _ & Ha & _).
    rewrite Ha. unfold joined_state, add_user. cbn.
    rewrite lookup_insert_ne by done. rewrite leave_previous_room_adapter.
    destruct (leaving_room sock); [|done]. by rewrite lookup_alter_ne.
  - unfold on_offer. by destruct (sockets st !! s).
  - unfold on_answer. by destruct (sockets st !! s).
  - unfold on_ice_candidate. by destruct (sockets st !! s).
  - destruct (disconnect_state dt s st) as (_ & _ & -> & _).
    by rewrite lookup_delete_ne.
Qed.

(** Over a run of other sockets' events. *)
Lemma run_others_alone ops st id :
  Forall (λ op, op_socket op ≠ id) ops →
  sockets (run ops st).1 !! id = sockets st !! id
  ∧ adapter (run ops st).1 !! id = adapter st !! id
  ∧ ∀ r, in_room (run ops st).1 id r ↔ in_room st id r.
Proof.
  revert st. induction ops as [|op ops IH]; intros st Hall; [done|].
  apply Forall_cons in Hall as [Hop Hall]. simpl.
  pose proof (sockets_step_other op st id Hop) as Hs.
  pose proof (adapter_step_other op st id Hop) as Ha.
  pose proof (in_room_step_other op st id) as Hr.
  destruct (step op st) as [st1 acts1]. specialize (IH st1 Hall).
  destruct (run ops st1) as [st2 acts2]. cbn [fst] in *.
  destruct IH as (IHs & IHa & IHr). split_and!.
  - by rewrite IHs.
  - by rewrite IHa.
  - intros r. rewrite IHr. by apply Hr.
Qed.

(** X9.  Events handled for other sockets leave a socket alone: over any
    run in which no event is the socket's own, its fields, the adapter
    rooms it sits in and the rooms it is a member of stay what they were. *)
Theorem other_sockets_leave_socket_alone ops st id :
  Forall (λ op, op_socket op ≠ id) ops →
  let st' := (run ops st).1 in
  sockets st' !! id = sockets st !! id
  ∧ adapter st' !! id = adapter st !! id
  ∧ ∀ r, in_room st' id r ↔ in_room st id r.
Proof.
  revert st. induction ops as [|op ops IH]; intros st Hall; cbn zeta; [done|].
  apply Forall_cons in Hall as [Hop Hall]. simpl.
  pose proof (sockets_step_other op st id Hop) as Hs.
  pose proof (adapter_step_other op st id Hop) as Ha.
  pose proof (in_room_step_other op st id) as Hr.
  destruct (step op st) as [st1 acts1]. specialize (IH st1 Hall). cbn zeta in IH.
  destruct (run ops st1) as [st2 acts2]. cbn [fst] in *.
  destruct IH as (IHs & IHa & IHr). split_and!.
  - by rewrite IHs.
  - by rewrite IHa.
  - intros r. rewrite IHr. by apply Hr.
Qed.

Lemma other_sockets_leave_socket_alone_witness :
  let st' := (run [JoinRoom false false "B" "x" Scenario.bob;
                   Offer "B" "A" Scenario.sdp; Disconnect false "B"]
                  Scenario.two_in_abc).1 in
  sockets st' !! "A" = sockets Scenario.two_in_abc !! "A"
  ∧ adapter st' !! "A" = adapter Scenario.two_in_abc !! "A"
  ∧ ∀ r, in_room st' "A" r ↔ in_room Scenario.two_in_abc "A" r.
Proof.
  apply (other_sockets_leave_socket_alone
           [JoinRoom false false "B" "x" Scenario.bob;
            Offer "B" "A" Scenario.sdp; Disconnect false "B"]
           Scenario.two_in_abc "A").
  repeat (apply Forall_cons; split; [simpl; discriminate|]). apply Forall_nil_2.
Defined.

(** X10.  A join that resumes after its socket has disconnected (the
    lookup was still pending when the transport closed) goes through all
    the same: the socket, out of the namespace, becomes a member of the
    room, and since no further event of that socket can come, it stays a
    member and the room stays in the registry over every later run of
    other sockets' events. *)
Theorem join_after_disconnect_leaves_ghost
    db_throws update_throws id sock roomId room userName later st :
  sockets st !! id = Some sock →
  let st1 := (disconnect db_throws id st).1 in
  Room st1 !! roomId = Some room →
  Forall (λ op, op_socket op ≠ id) later →
  let st2 := (on_join_room false update_throws id roomId userName st1).1 in
  let st3 := (run later st2).1 in
  in_room st3 id roomId
  ∧ is_connected st3 id = false
  ∧ is_Some (activeRooms st3 !! roomId).
Proof.
  intros Hsock. cbn zeta. intros Hroom Hall.
  destruct (disconnect_state db_throws id st) as (_ & Hsocks & _ & _).
  set (st1 := (disconnect db_throws id st).1) in *.
  assert (sockets st1 !! id = Some (set_closed sock)) as Hsock1.
  { by rewrite Hsocks, lookup_alter_eq, Hsock. }
  destruct (on_join_room_found_state update_throws id _ room roomId userName st1
              Hsock1 Hroom) as (Hreg & Hsocks2 & _ & _).
  set (st2 := (on_join_room false update_throws id roomId userName st1).1) in *.
  destruct (run_others_alone later st2 id Hall) as (Hs & _ & Hr).
  assert (in_room (run later st2).1 id roomId) as Hin.
  { apply Hr. unfold in_room, room_users. rewrite Hreg.
    apply reg_in_room_add. by right. }
  split_and!.
  - done.
  - unfold is_connected. by rewrite Hs, Hsocks2, lookup_alter_eq, Hsock1.
  - destruct (member_room_entry _ _ _ Hin) as (users & -> & _). eauto.
Qed.

Lemma join_after_disconnect_leaves_ghost_witness :
  let st1 := (disconnect false "B" Scenario.lobby).1 in
  let st2 := (on_join_room false false "B" "abc" Scenario.bob st1).1 in
  let st3 := (run [JoinRoom false false "A" "abc" Scenario.alice;
                   Disconnect false "A"] st2).1 in
  in_room st3 "B" "abc"
  ∧ is_connected st3 "B" = false
  ∧ is_Some (activeRooms st3 !! "abc").
Proof.
  apply (join_after_disconnect_leaves_ghost false false "B"
           {| socket_roomId := None; socket_userName := JUndefined;
              socket_connected := true |}
           "abc" Scenario.fresh_room Scenario.bob
           [JoinRoom false false "A" "abc" Scenario.alice; Disconnect false "A"]
           Scenario.lobby).
  - by_evaluation.
  - by_evaluation.
  - repeat (apply Forall_cons; split; [simpl; discriminate|]). apply Forall_nil_2.
Defined.

End JoinEdges.

(** ** A close, and what may still come after it *)

Section RepeatedLeave.
Implicit Types (st : State) (sock : Socket) (id : string).

Lemma alter_absent {A} (f : A → A) (k : string) (m : gmap string A) :
  m !! k = None → alter f k m = m.
Proof.
  intros Hk. apply map_eq. intros k'. destruct (decide (k' = k)) as [->|Hne].
  - by rewrite lookup_alter_eq, Hk.
  - by rewrite lookup_alter_ne.
Qed.

Lemma socket_leave_absent id room st :
  adapter st !! id = None → socket_leave id room st = st.
Proof.
  intros Hid. unfold socket_leave, with_adapter. rewrite alter_absent by done.
  by destruct st.
Qed.

(** A socket that has been closed stays closed: ids are not reused, and
    no handler sets [connected]. *)
Lemma closed_step op st id :
  (∃ sock, sockets st !! id = Some sock ∧ socket_connected sock = false) →
  ∃ sock, sockets (step op st).1 !! id = Some sock
          ∧ socket_connected sock = false.
Proof.
  intros (sock & Hsock & Hclosed).
  destruct (decide (op_socket op = id)) as [Hop|Hop].
  2:{ exists sock. by rewrite sockets_step_other. }
  destruct op as [s|ft ut s roomId userName|s t o|s t a|s t c|dt s];
    simpl in Hop; subst s; simpl.
  - unfold on_connection. rewrite Hsock. eauto.
  - destruct (on_join_room_cases ft ut id roomId userName st)
      as [->|(sock' & room & Hsock' & _ & _ & ->)]; [eauto|].
    destruct (join_found_state ut id sock' roomId userName st) as (_ & -> & _).
    rewrite lookup_alter_eq, Hsock. simpl. eauto.
  - unfold on_offer. rewrite Hsock. eauto.
  - unfold on_answer. rewrite Hsock. eauto.
  - unfold on_ice_candidate. rewrite Hsock. eauto.
  - destruct (disconnect_state dt id st) as (_ & -> & _).
    rewrite lookup_alter_eq, Hsock. simpl. eauto.
Qed.

Lemma run_closed ops st id :
  (∃ sock, sockets st !! id = Some sock ∧ socket_connected sock = false) →
  is_connected (run ops st).1 id = false.
Proof.
  intros Hclosed.
  destruct (run_invariant
              (λ st, ∃ sock, sockets st !! id = Some sock
                             ∧ socket_connected sock = false)
              (λ op st, closed_step op st id) ops st Hclosed)
    as (sock & Hsock & Hc).
  unfold is_connected. by rewrite Hsock.
Qed.

(** The leave of lines 66-79 for a socket that is out of the namespace
    and in no room: nothing changes, and the room its [roomId] names, if
    it is still in the registry, is told [user-left] with the id alone. *)
Lemma redundant_leave st id sock :
  server_inv st →
  adapter st !! id = None →
  (∀ r, ¬ in_room st id r) →
  leave_previous_room id sock st
  = (st, match leaving_room sock with
         | Some r =>
             match activeRooms st !! r with
             | Some _ => socket_to_emit st id r (EvUserLeft id None)
             | None => []
             end
         | None => []
         end).
Proof.
  intros Hinv Hadapter Hout. unfold leave_previous_room, leaving_room.
  destruct (socket_roomId sock) as [r|]; [|done].
  destruct (truthy r); [|done]. cbn zeta.
  rewrite socket_leave_absent by done.
  destruct (activeRooms st !! r) as [users|] eqn:Hr; [|done].
  assert (JSMap.delete id users = users) as ->.
  { apply delete_absent. intros Hin. apply (Hout r).
    unfold in_room, room_users. by rewrite Hr. }
  rewrite decide_False.
  2:{ rewrite size_0_nil. by apply (inv_nonempty _ Hinv r). }
  f_equal. unfold with_activeRooms. rewrite insert_id by done. by destruct st.
Qed.

(** C7, as the code has it.  Once a connected socket of a reachable state
    has been closed, (1) every further close notification for it,
    whatever was handled in between, does nothing at all, because
    Socket.IO runs the [disconnect] listener once per socket; (2) the
    leave of lines 66-79 that a join-room pending at the close runs
    when it resumes, no other event of the socket having been handled
    since, changes nothing in the server and calls nothing, but is silent
    only when the socket has no truthy [roomId] or the room it names has
    left the registry: while that room has participants it is sent
    [user-left] with the socket's id again, and every connected member
    receives it, whatever room the resumed join-room finds. *)
Theorem repeated_close_and_leave_effects db ops db_throws id :
  ids_truthy db →
  let st := (run ops (initial db)).1 in
  is_connected st id = true →
  let st1 := (socket_onclose db_throws id st).1 in
  (∀ events db_throws',
     let st' := (run events st1).1 in
     socket_onclose db_throws' id st' = (st', []))
  ∧ (∀ events,
       Forall (λ op, op_socket op ≠ id) events →
       let st' := (run events st1).1 in
       ∃ sock,
         sockets st' !! id = Some sock
         ∧ socket_connected sock = false
         ∧ leave_previous_room id sock st'
           = (st', match leaving_room sock with
                   | Some r =>
                       match activeRooms st' !! r with
                       | Some _ => socket_to_emit st' id r (EvUserLeft id None)
                       | None => []
                       end
                   | None => []
                   end)
         ∧ ∀ r B, leaving_room sock = Some r →
                  is_connected st' B = true → in_room st' B r →
                  Deliver B (EvUserLeft id None)
                    ∈ (leave_previous_room id sock st').2
                  ∧ ∀ update_throws roomId room userName,
                      Room st' !! roomId = Some room →
                      Deliver B (EvUserLeft id None)
                        ∈ (on_join_room false update_throws id roomId
                             userName st').2).
Proof.
  intros Hdb. cbn zeta. pose proof (run_server_inv db ops Hdb) as Hinv.
  set (st := (run ops (initial db)).1) in *. intros Hconn.
  assert (socket_onclose db_throws id st = disconnect db_throws id st) as ->
    by (unfold socket_onclose; by rewrite Hconn).
  assert (∃ sock0, sockets st !! id = Some sock0) as [sock0 Hsock0].
  { unfold is_connected in Hconn. destruct (sockets st !! id); [eauto|done]. }
  destruct (disconnect_state db_throws id st) as (_ & Hsocks & Hadapter & _).
  pose proof (server_inv_disconnect db_throws id st Hinv) as Hinv1.
  assert (∀ r, ¬ in_room (disconnect db_throws id st).1 id r) as Hout1.
  { intros r. unfold in_room.
    rewrite (room_users_disconnected db_throws id sock0 st r Hsock0).
    apply (seat_freed st id sock0 r Hinv Hsock0). }
  set (st1 := (disconnect db_throws id st).1) in *.
  assert (sockets st1 !! id = Some (set_closed sock0)) as Hsock1.
  { by rewrite Hsocks, lookup_alter_eq, Hsock0. }
  split.
  - intros events db_throws'. unfold socket_onclose.
    rewrite run_closed; [done|]. exists (set_closed sock0). by split.
  - intros events Hothers.
    destruct (run_others_alone events st1 id Hothers) as (Hs & Ha & Hr).
    pose proof (run_invariant server_inv server_inv_step events st1 Hinv1) as Hinv'.
    set (st' := (run events st1).1) in *.
    assert (adapter st' !! id = None) as Hadapter'.
    { by rewrite Ha, Hadapter, lookup_delete_eq. }
    assert (∀ r, ¬ in_room st' id r) as Hout'.
    { intros r Hin. apply (Hout1 r). by apply Hr. }
    exists (set_closed sock0).
    pose proof (redundant_leave st' id (set_closed sock0) Hinv' Hadapter' Hout')
      as Hleave.
    split_and!.
    + by rewrite Hs.
    + done.
    + done.
    + intros r B Hroom HB Hin.
      assert (Deliver B (EvUserLeft id None)
                ∈ (leave_previous_room id (set_closed sock0) st').2) as Hsent.
      { rewrite Hleave, Hroom. cbn [snd].
        destruct (member_room_entry st' B r Hin) as (users & -> & _).
        apply elem_of_socket_to_emit. exists B. split; [done|].
        split_and!.
        - intros ->. by apply (Hout' r).
        - done.
        - by apply (inv_adapter_member _ Hinv'). }
      split; [done|]. intros update_throws roomId room userName Hfound.
      assert (sockets st' !! id = Some (set_closed sock0)) as Hsock'
        by (by rewrite Hs).
      destruct (join_acts update_throws id _ room roomId userName st' Hsock' Hfound)
        as (tail & -> & _).
      rewrite !elem_of_app. right. by left.
Qed.

Lemma repeated_close_and_leave_effects_witness :
  let st := (run Tour.meet (initial Scenario.rooms)).1 in
  let st1 := (socket_onclose false "B" st).1 in
  (∀ events db_throws',
     let st' := (run events st1).1 in
     socket_onclose db_throws' "B" st' = (st', []))
  ∧ (∀ events,
       Forall (λ op, op_socket op ≠ "B") events →
       let st' := (run events st1).1 in
       ∃ sock,
         sockets st' !! "B" = Some sock
         ∧ socket_connected sock = false
         ∧ leave_previous_room "B" sock st'
           = (st', match leaving_room sock with
                   | Some r =>
                       match activeRooms st' !! r with
                       | Some _ => socket_to_emit st' "B" r (EvUserLeft "B" None)
                       | None => []
                       end
                   | None => []
                   end)
         ∧ ∀ r B, leaving_room sock = Some r →
                  is_connected st' B = true → in_room st' B r →
                  Deliver B (EvUserLeft "B" None)
                    ∈ (leave_previous_room "B" sock st').2
                  ∧ ∀ update_throws roomId room userName,
                      Room st' !! roomId = Some room →
                      Deliver B (EvUserLeft "B" None)
                        ∈ (on_join_room false update_throws "B" roomId
                             userName st').2).
Proof.
  apply (repeated_close_and_leave_effects Scenario.rooms Tour.meet false "B").
  - exact scenario_ids_truthy.
  - by_evaluation.
Defined.

(** C7 as worded fails: [B] is closed while [A] stays in [abc]; [B]'s
    [roomId] still names [abc], and the leave that a pending join-room of
    [B] runs when it resumes sends [A] a second [user-left]. *)
Lemma redundant_leave_notifies_again :
  ¬ repeated_leave_is_noop Scenario.two_in_abc "B".
Proof.
  intros H.
  specialize (H false false
                {| socket_roomId := Some "abc"; socket_userName := Scenario.bob;
                   socket_connected := false |}).
  cbn zeta in H. destruct H as [_ (_ & Hnone & _)]; [by_evaluation|].
  apply (Hnone "A" (EvUserLeft "B" None)).
  vm_compute. apply list_elem_of_here.
Qed.

(** The whole of it: [B], in [abc] with [A], asks to join [x] and is
    closed before [Room.findById] answers; the disconnect tells [A], and
    so does the join when it resumes ([B]'s own roster goes nowhere). *)
Example resumed_join_trace :
  let st1 := (socket_onclose false "B" Scenario.two_in_abc).1 in
  (socket_onclose false "B" Scenario.two_in_abc).2
  = [ConsoleLog "User disconnected";
     Deliver "A" (EvUserLeft "B" (Some Scenario.bob));
     Db (FindByIdAndUpdate "abc" 1)]
  ∧ (on_join_room false false "B" "x" Scenario.bob st1).2
    = [Db (FindById "x");
       Deliver "A" (EvUserLeft "B" None);
       Db (FindByIdAndUpdate "x" 1)]
  ∧ socket_onclose false "B" st1 = (st1, []).
Proof. vm_compute. done. Qed.

End RepeatedLeave.

(** ** Room broadcasts and screen sharing *)

Section RoomBroadcasts.
Implicit Types (st : State) (sock : Socket) (id roomId r p B : string).

(** X11.  In a state a run reaches, what a socket sends to the adapter
    room named after a room reaches every other connected member of that
    room, and reaches nobody else, save a socket whose own id is that
    name. *)
Theorem room_broadcast_reaches_members db ops sender r B :
  ids_truthy db →
  let st := (run ops (initial db)).1 in
  (B ≠ sender → is_connected st B = true → in_room st B r →
   reached st sender r B)
  ∧ (reached st sender r B →
     B ≠ sender ∧ is_connected st B = true ∧ (in_room st B r ∨ B = r)).
Proof.
  intros Hdb. cbn zeta. pose proof (run_server_inv db ops Hdb) as Hinv. split.
  - intros Hne Hc Hin. split_and!; [done..|]. by apply (inv_adapter_member _ Hinv).
  - intros (Hne & Hc & Ha). split_and!; [done..|].
    destruct (inv_adapter_only _ Hinv _ _ Ha) as [->|?]; auto.
Qed.

Lemma room_broadcast_reaches_members_witness :
  let st := (run Tour.meet (initial Scenario.rooms)).1 in
  ("B" ≠ "A" → is_connected st "B" = true → in_room st "B" "abc" →
   reached st "A" "abc" "B")
  ∧ (reached st "A" "abc" "B" →
     "B" ≠ "A" ∧ is_connected st "B" = true ∧ (in_room st "B" "abc" ∨ "B" = "abc")).
Proof.
  exact (room_broadcast_reaches_members Scenario.rooms Tour.meet "A" "abc" "B"
           scenario_ids_truthy).
Defined.

Lemma filter_tagged_once {E} (e : E) (l : list string) (B : string) :
  NoDup l → B ∈ l →
  filter (λ d : string * E, d.1 = B) ((λ to, (to, e)) <$> l) = [(B, e)].
Proof.
  intros Hnd Hin. apply (filter_by_key fst _ (B, e)).
  - rewrite <- list_fmap_compose. by rewrite list_fmap_id.
  - apply list_elem_of_fmap. by exists B.
Qed.

(** X12.  Screen-share notices.  A socket whose [roomId] was never set
    reaches nobody.  In a state a run reaches, a socket whose [roomId]
    names [r] hands [screen-share-started] (with its id and name) and
    [screen-share-stopped] (with its id) exactly once to every other
    connected member of [r]; nothing goes to the sender, and nothing to a
    socket that is neither a member of [r] nor named [r]. *)
Theorem screen_share_reaches_the_room db ops id sock :
  ids_truthy db →
  let st := (run ops (initial db)).1 in
  sockets st !! id = Some sock →
  (socket_roomId sock = None →
   on_screen_share_started id st = [] ∧ on_screen_share_stopped id st = [])
  ∧ ∀ r, socket_roomId sock = Some r →
      (∀ B, B ≠ id → is_connected st B = true → in_room st B r →
         filter (λ d, d.1 = B) (on_screen_share_started id st)
         = [(B, EvScreenShareStarted id (socket_userName sock))]
         ∧ filter (λ d, d.1 = B) (on_screen_share_stopped id st)
           = [(B, EvScreenShareStopped id)])
      ∧ (∀ B ev,
           (B, ev) ∈ on_screen_share_started id st ++ on_screen_share_stopped id st →
           B ≠ id ∧ is_connected st B = true ∧ (in_room st B r ∨ B = r)).
Proof.
  intros Hdb. cbn zeta. pose proof (run_server_inv db ops Hdb) as Hinv.
  set (st := (run ops (initial db)).1) in *. intros Hsock.
  unfold on_screen_share_started, on_screen_share_stopped. rewrite Hsock. split.
  - by intros ->.
  - intros r ->. simpl. split.
    + intros B Hne Hc Hin.
      assert (B ∈ recipients st id r) as HB.
      { apply elem_of_recipients. split_and!; [done..|].
        by apply (inv_adapter_member _ Hinv). }
      split; apply filter_tagged_once; auto using NoDup_recipients.
    + intros B ev [Hd|Hd]%elem_of_app;
        apply list_elem_of_fmap in Hd as (to & [= -> ->] & Hto);
        apply elem_of_recipients in Hto as (Hne & Hc & Ha);
        (split_and!; [done..|]);
        destruct (inv_adapter_only _ Hinv _ _ Ha) as [->|?]; auto.
Qed.

Lemma screen_share_reaches_the_room_witness :
  let st := (run Tour.meet (initial Scenario.rooms)).1 in
  (Some "abc" = None →
   on_screen_share_started "A" st = [] ∧ on_screen_share_stopped "A" st = [])
  ∧ ∀ r, Some "abc" = Some r →
      (∀ B, B ≠ "A" → is_connected st B = true → in_room st B r →
         filter (λ d, d.1 = B) (on_screen_share_started "A" st)
         = [(B, EvScreenShareStarted "A" Scenario.alice)]
         ∧ filter (λ d, d.1 = B) (on_screen_share_stopped "A" st)
           = [(B, EvScreenShareStopped "A")])
      ∧ (∀ B ev,
           (B, ev) ∈ on_screen_share_started "A" st ++ on_screen_share_stopped "A" st →
           B ≠ "A" ∧ is_connected st B = true ∧ (in_room st B r ∨ B = r)).
Proof.
  apply (screen_share_reaches_the_room Scenario.rooms Tour.meet "A"
           {| socket_roomId := Some "abc"; socket_userName := Scenario.alice;
              socket_connected := true |});
    first [exact scenario_ids_truthy | by_evaluation].
Defined.

Example screen_share_trace :
  on_screen_share_started "A" (run Tour.meet (initial Scenario.rooms)).1
  = [("B", EvScreenShareStarted "A" Scenario.alice)]
  ∧ on_screen_share_stopped "C" (run Tour.meet (initial Scenario.rooms)).1 = [].
Proof. vm_compute. done. Qed.

End RoomBroadcasts.

(** * The REST routes *)

(** ** Tokens *)

Section Tokens.
Implicit Types (pat rep s t : string).

Lemma append_cons c s t : String c s +:+ t = String c (s +:+ t).
Proof. reflexivity. Qed.

Lemma append_empty_l s : EmptyString +:+ s = s.
Proof. reflexivity. Qed.

Lemma append_empty_r s : s +:+ EmptyString = s.
Proof.
  induction s as [|c s IH]; [reflexivity|]. by rewrite append_cons, IH.
Qed.

Lemma strip_app pat t : Api.strip pat (pat +:+ t) = Some t.
Proof.
  induction pat as [|a pat IH]; [reflexivity|].
  rewrite append_cons. simpl. by rewrite decide_True.
Qed.

Lemma strip_Some pat s rest : Api.strip pat s = Some rest → s = pat +:+ rest.
Proof.
  revert s. induction pat as [|a pat IH]; intros s; simpl.
  - by intros [= ->].
  - destruct s as [|b s]; [done|]. case_decide; [|done]. subst b.
    intros Hs. by rewrite append_cons, <- (IH _ Hs).
Qed.

Lemma replace_first_unfold pat rep s :
  Api.replace_first pat rep s
  = match Api.strip pat s with
    | Some rest => rep +:+ rest
    | None =>
        match s with
        | EmptyString => EmptyString
        | String c s' => String c (Api.replace_first pat rep s')
        end
    end.
Proof. by destruct s. Qed.

Lemma replace_first_prefix pat rep t :
  Api.replace_first pat rep (pat +:+ t) = rep +:+ t.
Proof. by rewrite replace_first_unfold, strip_app. Qed.

Lemma replace_first_absent pat rep s :
  Api.occurs pat s = false → Api.replace_first pat rep s = s.
Proof.
  induction s as [|c s IH]; simpl.
  - by destruct (Api.strip pat EmptyString).
  - destruct (Api.strip pat (String c s)); [done|]. intros Hs. by rewrite IH.
Qed.

Lemma append_cancel_r pat rest : pat +:+ rest = pat → rest = EmptyString.
Proof.
  induction pat as [|a pat IH]; [done|]. rewrite append_cons. intros [= ?]. auto.
Qed.

Lemma replace_first_empty_iff pat s :
  pat ≠ EmptyString →
  Api.replace_first pat EmptyString s = EmptyString ↔ s = EmptyString ∨ s = pat.
Proof.
  intros Hpat. rewrite replace_first_unfold.
  destruct (Api.strip pat s) as [rest|] eqn:Hstrip.
  - rewrite append_empty_l. apply strip_Some in Hstrip. subst s. split.
    + intros ->. right. apply append_empty_r.
    + intros [Hnil|Heq].
      * destruct pat; [done|]. by rewrite append_cons in Hnil.
      * by apply append_cancel_r in Heq.
  - destruct s as [|c s].
    + split; [by left|done].
    + split; [done|]. intros [? | Heq]; [done|]. rewrite Heq in Hstrip.
      pose proof (strip_app pat EmptyString) as H.
      rewrite append_empty_r in H. congruence.
Qed.

Lemma no_token_bearer authorization :
  Api.no_token (Api.bearer authorization) = true
  ↔ authorization = None ∨ authorization = Some EmptyString
    ∨ authorization = Some "Bearer ".
Proof.
  destruct authorization as [h|]; simpl; [|naive_solver].
  pose proof (replace_first_empty_iff "Bearer " h) as Hiff.
  destruct (Api.replace_first "Bearer " EmptyString h) eqn:E; simpl.
  - split; [|done]. intros _. destruct Hiff as [[-> | ->] _]; auto.
  - split; [done|]. intros [?|[[= ->]|[= ->]]]; [done| |].
    + destruct Hiff as [_ Hiff]; [done|]. by specialize (Hiff (or_introl eq_refl)).
    + destruct Hiff as [_ Hiff]; [done|]. by specialize (Hiff (or_intror eq_refl)).
Qed.

(** X13.  The middleware answers 401 ['Access token required'] exactly
    when the [Authorization] header is missing, empty, or the bare string
    ['Bearer ']; whether the token verifies plays no part in that. *)
Theorem token_required_iff verify valid_id authorization db :
  Api.authenticateToken verify valid_id authorization db
  = Api.Unauthorized "Access token required"
  ↔ authorization = None ∨ authorization = Some EmptyString
    ∨ authorization = Some "Bearer ".
Proof.
  rewrite <- no_token_bearer. unfold Api.authenticateToken. cbn zeta.
  destruct (Api.no_token (Api.bearer authorization)); [done|].
  split; [|done].
  destruct (verify _) as [|userId]; [done|].
  by destruct (Api.User_findById valid_id db userId) as [| |[? ?]].
Qed.

(** X14.  The ['Bearer '] prefix is optional: a header that is the bare
    token (in which ['Bearer '] does not occur) is treated by the
    middleware, and by the private-room check of [GET /room/:roomId],
    exactly as the header ['Bearer ' + token]. *)
Theorem bearer_prefix_is_optional verify valid_id token db :
  Api.occurs "Bearer " token = false →
  Api.authenticateToken verify valid_id (Some ("Bearer " +:+ token)) db
  = Api.authenticateToken verify valid_id (Some token) db
  ∧ ∀ db_throws id,
      Api.get_room db_throws verify valid_id (Some ("Bearer " +:+ token)) id db
      = Api.get_room db_throws verify valid_id (Some token) id db.
Proof.
  intros Habs.
  assert (Api.bearer (Some ("Bearer " +:+ token)) = Api.bearer (Some token)) as Hb.
  { unfold Api.bearer. cbn [fmap option_fmap option_map].
    by rewrite replace_first_prefix, append_empty_l, replace_first_absent. }
  split.
  - unfold Api.authenticateToken. by rewrite Hb.
  - intros db_throws id. unfold Api.get_room. by rewrite Hb.
Qed.

Lemma bearer_prefix_is_optional_witness :
  Api.authenticateToken Site.verify Site.valid_id
    (Some ("Bearer " +:+ "token-ann")) Site.db
  = Api.authenticateToken Site.verify Site.valid_id (Some "token-ann") Site.db
  ∧ ∀ db_throws id,
      Api.get_room db_throws Site.verify Site.valid_id
        (Some ("Bearer " +:+ "token-ann")) id Site.db
      = Api.get_room db_throws Site.verify Site.valid_id (Some "token-ann") id
          Site.db.
Proof.
  apply (bearer_prefix_is_optional Site.verify Site.valid_id "token-ann" Site.db).
  by_evaluation.
Defined.

Example middleware_trace :
  Api.authenticateToken Site.verify Site.valid_id (Some "Bearer token-ann") Site.db
  = Api.Next "ann"
  ∧ Api.authenticateToken Site.verify Site.valid_id (Some "token-ann") Site.db
    = Api.Next "ann"
  ∧ Api.authenticateToken Site.verify Site.valid_id (Some "Bearer token-zed") Site.db
    = Api.Unauthorized "Invalid token"
  ∧ Api.authenticateToken Site.verify Site.valid_id (Some "Bearer ") Site.db
    = Api.Unauthorized "Access token required".
Proof. vm_compute. done. Qed.

End Tokens.

(** ** The public listing *)

Section PublicListing.
Implicit Types (db : Api.Db) (page limit : positive).

Lemma ceiling_gt (p total : Z) limit :
  (p < Qround.Qceiling (QArith_base.Qmake total limit))%Z
  ↔ (p * Z.pos limit < total)%Z.
Proof.
  set (q := QArith_base.Qmake total limit).
  assert (QArith_base.Qlt (QArith_base.inject_Z p) q ↔ (p * Z.pos limit < total)%Z)
    as Hkey.
  { unfold QArith_base.Qlt, q. simpl. lia. }
  rewrite <- Hkey. split.
  - intros Hlt. eapply QArith_base.Qle_lt_trans; [|apply (Qround.Qceiling_lt q)].
    rewrite <- QArith_base.Zle_Qle. lia.
  - intros Hlt. rewrite QArith_base.Zlt_Qlt.
    eapply QArith_base.Qlt_le_trans; [exact Hlt|apply Qround.Qle_ceiling].
Qed.

Lemma ceiling_covers (total : nat) limit :
  (total ≤ Z.to_nat (Qround.Qceiling
                       (QArith_base.Qmake (Z.of_nat total) limit))
           * Pos.to_nat limit)%nat.
Proof.
  set (c := Qround.Qceiling (QArith_base.Qmake (Z.of_nat total) limit)).
  assert (¬ (c * Z.pos limit < Z.of_nat total)%Z) as Hc.
  { intros H. apply ceiling_gt in H. fold c in H. lia. }
  assert (0 ≤ c)%Z.
  { destruct (decide (0 ≤ c)%Z); [done|]. exfalso. apply Hc. nia. }
  nia.
Qed.

Lemma chunks {A} (l : list A) (size k : nat) :
  concat ((λ p, take size (drop ((p - 1) * size) l)) <$> seq 1 k)
  = take (k * size) l.
Proof.
  induction k as [|k IH]; [done|].
  rewrite seq_S, fmap_app, concat_app, IH. simpl.
  rewrite app_nil_r. replace (k - 0)%nat with k by lia.
  rewrite take_take_drop. f_equal. lia.
Qed.

Lemma StronglySorted_take {A} (R : relation A) (l : list A) n :
  StronglySorted R l → StronglySorted R (take n l).
Proof.
  intros H. rewrite <- (take_drop n l) in H. by apply StronglySorted_app_1_l in H.
Qed.

Lemma StronglySorted_drop {A} (R : relation A) (l : list A) n :
  StronglySorted R l → StronglySorted R (drop n l).
Proof.
  intros H. rewrite <- (take_drop n l) in H. by apply StronglySorted_app_1_r in H.
Qed.

Lemma newer_first_total : Total Api.newer_first.
Proof. intros a b. unfold Api.newer_first. lia. Qed.

Lemma newer_first_trans : Transitive Api.newer_first.
Proof. intros a b c. unfold Api.newer_first. lia. Qed.

Lemma public_rooms_perm db :
  Api.public_rooms db
  ≡ₚ filter (λ r, Api.isPublic r = true ∧ Api.isActive r = true) (Api.rooms db).
Proof. apply merge_sort_Permutation. Qed.

Lemma elem_of_public_rooms db r :
  r ∈ Api.public_rooms db
  ↔ r ∈ Api.rooms db ∧ Api.isPublic r = true ∧ Api.isActive r = true.
Proof. rewrite public_rooms_perm, list_elem_of_filter. tauto. Qed.

Lemma get_public_unfold (pg lim : Api.QueryValue) db :
  let skip :=
    ((Pos.to_nat (Api.as_number pg) - 1) * Pos.to_nat (Api.as_number lim))%nat in
  let rooms :=
    Api.window skip (Pos.to_nat (Api.as_integer lim)) (Api.public_rooms db) in
  let total := length (Api.public_rooms db) in
  Api.get_public false false pg lim db
  = match mapM (Api.format false false false db) rooms with
    | Some formattedRooms =>
        {| Api.status := 200;
           Api.body :=
             Api.RoomsBody formattedRooms
               (Some {| Api.currentPage := Api.as_integer pg;
                        Api.totalPages :=
                          Qround.Qceiling
                            (QArith_base.Qmake (Z.of_nat total) (Api.as_number lim));
                        Api.totalRooms := total;
                        Api.hasNext := bool_decide (skip + length rooms < total)%nat |}) |}
    | None =>
        {| Api.status := 500;
           Api.body := Api.Message "Server error while fetching public rooms" |}
    end.
Proof.
  cbn zeta. unfold Api.get_public. cbn zeta.
  by rewrite (Permutation_length (public_rooms_perm db)).
Qed.

(** A rejected [Room.find] or [Room.countDocuments] lands in the [catch]. *)
Lemma get_public_rejected find_throws count_throws (pg lim : Api.QueryValue) db :
  find_throws = true ∨ count_throws = true →
  Api.get_public find_throws count_throws pg lim db
  = {| Api.status := 500;
       Api.body := Api.Message "Server error while fetching public rooms" |}.
Proof.
  unfold Api.get_public. cbn zeta.
  destruct find_throws, count_throws; try done. by intros [|].
Qed.

Lemma get_public_not_500 find_throws count_throws (pg lim : Api.QueryValue) db :
  Api.status (Api.get_public find_throws count_throws pg lim db) ≠ 500 →
  find_throws = false ∧ count_throws = false.
Proof.
  intros Hok. destruct find_throws, count_throws; try done;
    by rewrite get_public_rejected in Hok by auto.
Qed.

(** X15.  A [GET /public] answered 200 lists at most [parseInt(limit)]
    rooms, every one of them public and active, newest first;
    [currentPage] is [parseInt(page)], [totalRooms] is the number of
    public active rooms and [totalPages] the ceiling of [totalRooms /
    limit]; [hasNext] says whether rooms remain after those skipped and
    listed; a page that the arithmetic reads past [totalPages] is empty;
    and when [limit] reads the same to the arithmetic and to [parseInt],
    [hasNext] is true exactly when the page, as the arithmetic reads it,
    is below [totalPages]. *)
Theorem public_page_is_consistent
    find_throws count_throws (pg lim : Api.QueryValue) db listing pagination :
  Api.get_public find_throws count_throws pg lim db
  = {| Api.status := 200; Api.body := Api.RoomsBody listing (Some pagination) |} →
  let total :=
    length (filter (λ r, Api.isPublic r = true ∧ Api.isActive r = true)
              (Api.rooms db)) in
  let skip :=
    ((Pos.to_nat (Api.as_number pg) - 1) * Pos.to_nat (Api.as_number lim))%nat in
  (length listing ≤ Pos.to_nat (Api.as_integer lim))%nat
  ∧ (∀ j, j ∈ listing →
       ∃ r, r ∈ Api.rooms db ∧ Api.isPublic r = true ∧ Api.isActive r = true
            ∧ Api.j_id j = Api._id r ∧ Api.j_roomId j = Api.roomId r)
  ∧ Sorted (λ a b, Api.j_createdAt b ≤ Api.j_createdAt a)%nat listing
  ∧ Api.currentPage pagination = Api.as_integer pg
  ∧ Api.totalRooms pagination = total
  ∧ Api.totalPages pagination
    = Qround.Qceiling (QArith_base.Qmake (Z.of_nat total) (Api.as_number lim))
  ∧ (Api.hasNext pagination = true ↔ (skip + length listing < total)%nat)
  ∧ ((Api.totalPages pagination < Z.pos (Api.as_number pg))%Z → listing = [])
  ∧ (Api.as_integer lim = Api.as_number lim →
     (Api.hasNext pagination = true
      ↔ (Z.pos (Api.as_number pg) < Api.totalPages pagination)%Z)).
Proof.
  intros Hresp. cbn zeta.
  destruct (get_public_not_500 find_throws count_throws pg lim db) as [-> ->].
  { by rewrite Hresp. }
  revert Hresp. rewrite get_public_unfold. cbn zeta.
  rewrite <- (Permutation_length (public_rooms_perm db)).
  set (skip := ((Pos.to_nat (Api.as_number pg) - 1)
                * Pos.to_nat (Api.as_number lim))%nat).
  set (found := Api.public_rooms db).
  destruct (mapM _ (Api.window skip (Pos.to_nat (Api.as_integer lim)) found))
    as [formatted|] eqn:Hmap; [|done].
  intros [= <- <-]. simpl.
  apply mapM_Some in Hmap.
  pose proof (Forall2_length _ _ _ Hmap) as Hlen.
  assert (length (Api.window skip (Pos.to_nat (Api.as_integer lim)) found)
          = Nat.min (Pos.to_nat (Api.as_integer lim)) (length found - skip))
    as Hwin.
  { unfold Api.window. by rewrite length_take, length_drop. }
  assert (StronglySorted Api.newer_first found) as Hsorted.
  { apply StronglySorted_merge_sort;
      [apply newer_first_trans | apply newer_first_total]. }
  split_and!.
  - lia.
  - intros j Hj. apply list_elem_of_lookup in Hj as [i Hi].
    destruct (Forall2_lookup_r _ _ _ _ _ Hmap Hi) as (r & Hr & Hfmt).
    exists r. assert (r ∈ found) as Hin.
    { apply list_elem_of_lookup_2 in Hr. unfold Api.window in Hr.
      by apply subseteq_take, subseteq_drop in Hr. }
    apply elem_of_public_rooms in Hin as (? & ? & ?).
    unfold Api.format in Hfmt.
    destruct (Api.populated_host db r); simplify_eq/=. done.
  - assert (StronglySorted Api.newer_first
              (Api.window skip (Pos.to_nat (Api.as_integer lim)) found)) as Hw.
    { unfold Api.window. apply StronglySorted_take, StronglySorted_drop, Hsorted. }
    apply StronglySorted_Sorted.
    clear Hlen Hwin. revert Hmap Hw.
    generalize (Api.window skip (Pos.to_nat (Api.as_integer lim)) found).
    intros w Hmap Hw. induction Hmap as [|r j w k Hrj Hlk IH].
    + constructor.
    + apply StronglySorted_inv in Hw as [Hw Hall]. constructor; [by apply IH|].
      rewrite Forall_forall. intros j' Hj'.
      apply list_elem_of_lookup in Hj' as [i Hi].
      destruct (Forall2_lookup_r _ _ _ _ _ Hlk Hi) as (r' & Hr' & Hfmt').
      apply list_elem_of_lookup_2 in Hr'. rewrite Forall_forall in Hall.
      specialize (Hall _ Hr'). unfold Api.newer_first in Hall.
      unfold Api.format in Hrj, Hfmt'.
      destruct (Api.populated_host db r), (Api.populated_host db r');
        simplify_eq/=. done.
  - done.
  - done.
  - done.
  - rewrite bool_decide_eq_true. by rewrite Hlen.
  - intros Hpast.
    assert (¬ (Z.pos (Api.as_number pg) - 1
               < Qround.Qceiling
                   (QArith_base.Qmake (Z.of_nat (length found))
                      (Api.as_number lim)))%Z) as Hno by lia.
    rewrite ceiling_gt in Hno.
    assert (length formatted = 0)%nat as Hzero by (unfold skip in *; nia).
    by destruct formatted.
  - intros Hsame. rewrite bool_decide_eq_true.
    rewrite (ceiling_gt (Z.pos (Api.as_number pg)) (Z.of_nat (length found))
               (Api.as_number lim)).
    rewrite Hwin, Hsame. unfold skip in *. nia.
Qed.

Lemma public_page_is_consistent_witness :
  let response := Api.get_public false false (Api.plain 1) (Api.plain 1) Site.db in
  let listing := listed response in
  let pagination := Site.pagination_of response in
  let total :=
    length (filter (λ r, Api.isPublic r = true ∧ Api.isActive r = true)
              (Api.rooms Site.db)) in
  let skip := ((Pos.to_nat 1 - 1) * Pos.to_nat 1)%nat in
  (length listing ≤ Pos.to_nat 1)%nat
  ∧ (∀ j, j ∈ listing →
       ∃ r, r ∈ Api.rooms Site.db ∧ Api.isPublic r = true ∧ Api.isActive r = true
            ∧ Api.j_id j = Api._id r ∧ Api.j_roomId j = Api.roomId r)
  ∧ Sorted (λ a b, Api.j_createdAt b ≤ Api.j_createdAt a)%nat listing
  ∧ Api.currentPage pagination = 1%positive
  ∧ Api.totalRooms pagination = total
  ∧ Api.totalPages pagination
    = Qround.Qceiling (QArith_base.Qmake (Z.of_nat total) 1)
  ∧ (Api.hasNext pagination = true ↔ (skip + length listing < total)%nat)
  ∧ ((Api.totalPages pagination < Z.pos 1)%Z → listing = [])
  ∧ (1%positive = 1%positive →
     (Api.hasNext pagination = true
      ↔ (Z.pos 1 < Api.totalPages pagination)%Z)).
Proof.
  apply (public_page_is_consistent false false (Api.plain 1) (Api.plain 1) Site.db).
  by_evaluation.
Defined.

Example public_page_trace :
  Api.status (Api.get_public false false (Api.plain 1) (Api.plain 1) Site.db) = 200
  ∧ Api.j_name
      <$> listed (Api.get_public false false (Api.plain 1) (Api.plain 1) Site.db)
    = ["Lounge"]
  ∧ Api.j_name
      <$> listed (Api.get_public false false (Api.plain 2) (Api.plain 1) Site.db)
    = ["Standup"]
  ∧ Api.j_name
      <$> listed (Api.get_public false false (Api.plain 3) (Api.plain 1) Site.db)
    = []
  ∧ Site.pagination_of
      (Api.get_public false false (Api.plain 1) (Api.plain 1) Site.db)
    = {| Api.currentPage := 1; Api.totalPages := 2; Api.totalRooms := 2;
         Api.hasNext := true |}.
Proof. vm_compute. done. Qed.

(** [limit=1e1] is 10 to the arithmetic and 1 to [parseInt]: the first
    page of two public rooms lists one room, counts one page in all and
    still announces a next one. *)
Example exponent_limit_trace :
  let response :=
    Api.get_public false false (Api.plain 1)
      {| Api.as_number := 10; Api.as_integer := 1 |} Site.db in
  Api.j_name <$> listed response = ["Lounge"]
  ∧ Site.pagination_of response
    = {| Api.currentPage := 1; Api.totalPages := 1; Api.totalRooms := 2;
         Api.hasNext := true |}.
Proof. vm_compute. done. Qed.

Lemma strictly_newer_first (l : list nat) :
  StronglySorted (λ a b, b ≤ a)%nat l → NoDup l →
  StronglySorted (λ a b, b < a)%nat l.
Proof.
  induction 1 as [|a l Hl IH Ha]; intros Hnd; [constructor|].
  apply NoDup_cons in Hnd as [Hnew Hnd]. constructor; [by apply IH|].
  apply Forall_forall. intros b Hb.
  assert (b ≤ a)%nat by by eapply Forall_forall in Ha.
  assert (b ≠ a) by by intros ->. lia.
Qed.

Lemma format_fields (a b c : bool) db (l : list Api.RoomRecord) k :
  mapM (Api.format a b c db) l = Some k →
  Api.j_id <$> k = Api._id <$> l
  ∧ Api.j_createdAt <$> k = Api.createdAt <$> l.
Proof.
  intros Hall%mapM_Some. induction Hall as [|r j l k Hrj Hlk [IHid IHat]]; [done|].
  rewrite !fmap_cons, IHid, IHat. unfold Api.format in Hrj.
  destruct (Api.populated_host db r); simplify_eq/=. done.
Qed.

Lemma format_window db everything skip n :
  mapM (Api.format false false false db) (Api.public_rooms db) = Some everything →
  mapM (Api.format false false false db) (Api.window skip n (Api.public_rooms db))
  = Some (take n (drop skip everything)).
Proof.
  intros Hall%mapM_Some. apply mapM_Some. unfold Api.window.
  by apply Forall2_take, Forall2_drop.
Qed.

(** A page of the listing when every room has its host and no call
    rejects. *)
Lemma get_public_page (pg lim : Api.QueryValue) db everything :
  mapM (Api.format false false false db) (Api.public_rooms db) = Some everything →
  let skip :=
    ((Pos.to_nat (Api.as_number pg) - 1) * Pos.to_nat (Api.as_number lim))%nat in
  Api.status (Api.get_public false false pg lim db) = 200
  ∧ listed (Api.get_public false false pg lim db)
    = take (Pos.to_nat (Api.as_integer lim)) (drop skip everything).
Proof.
  intros Hall. cbn zeta. rewrite get_public_unfold. cbn zeta.
  by rewrite (format_window db everything _ _ Hall).
Qed.

(** X16.  When no call rejects, the host of every public active room is a
    user and no two of these rooms were created in the same millisecond
    (so that the sort leaves one order), page 1 of [GET /public] for a
    plain [limit] is answered 200, and so is every other page; the pages
    1 to the [totalPages] that page 1 announces, taken one after the
    other with the same [limit], list every public active room exactly
    once, strictly newest first: together they are the whole sorted
    listing. *)
Theorem public_pages_cover_the_listing limit db :
  (∀ r, r ∈ Api.rooms db → Api.isPublic r = true → Api.isActive r = true →
        is_Some (Api.users db !! Api.host r)) →
  NoDup (Api.createdAt
           <$> filter (λ r, Api.isPublic r = true ∧ Api.isActive r = true)
                 (Api.rooms db)) →
  let request p :=
    Api.get_public false false (Api.plain p) (Api.plain limit) db in
  ∃ first pagination everything,
    request 1%positive
    = {| Api.status := 200; Api.body := Api.RoomsBody first (Some pagination) |}
    ∧ (∀ p, Api.status (request p) = 200)
    ∧ concat ((λ p, listed (request (Pos.of_nat p)))
                <$> seq 1 (Z.to_nat (Api.totalPages pagination)))
      = everything
    ∧ Api.j_id <$> everything
      ≡ₚ Api._id <$> filter (λ r, Api.isPublic r = true ∧ Api.isActive r = true)
                       (Api.rooms db)
    ∧ StronglySorted (λ a b, b < a)%nat (Api.j_createdAt <$> everything).
Proof.
  intros Hhosts Hdistinct. cbn zeta.
  assert (is_Some (mapM (Api.format false false false db) (Api.public_rooms db)))
    as [everything Hall].
  { apply mapM_is_Some, Forall_forall. intros r Hr.
    apply elem_of_public_rooms in Hr as (Hin & Hpub & Hact).
    destruct (Hhosts r Hin Hpub Hact) as [u Hu].
    unfold compose, Api.format, Api.populated_host. rewrite Hu. simpl. eauto. }
  pose proof (λ pg, get_public_page pg (Api.plain limit) db everything Hall)
    as Hpage. cbn zeta in Hpage.
  assert (∃ first pagination,
            Api.get_public false false (Api.plain 1) (Api.plain limit) db
            = {| Api.status := 200;
                 Api.body := Api.RoomsBody first (Some pagination) |}
            ∧ Api.totalPages pagination
              = Qround.Qceiling
                  (QArith_base.Qmake (Z.of_nat (length (Api.public_rooms db)))
                     limit)) as (first & pagination & Hfirst & Hpages).
  { rewrite get_public_unfold. cbn zeta.
    rewrite (format_window db everything _ _ Hall). eexists _, _. by split. }
  exists first, pagination, everything.
  destruct (format_fields _ _ _ db _ _ Hall) as [Hids Hats].
  apply mapM_Some in Hall.
  pose proof (Forall2_length _ _ _ Hall) as Hlen.
  split_and!.
  - done.
  - intros p. apply (Hpage (Api.plain p)).
  - rewrite Hpages.
    rewrite <- (take_ge everything
                 (Z.to_nat (Qround.Qceiling
                    (QArith_base.Qmake (Z.of_nat (length (Api.public_rooms db))) limit))
                  * Pos.to_nat limit)).
    2:{ rewrite <- Hlen. apply ceiling_covers. }
    rewrite <- chunks. f_equal. apply list_fmap_ext. intros i p Hp.
    apply lookup_seq in Hp as [-> Hi].
    destruct (Hpage (Api.plain (Pos.of_nat (1 + i)))) as [_ ->]. simpl.
    by rewrite Nat2Pos.id.
  - by rewrite <- public_rooms_perm, Hids.
  - rewrite Hats. apply strictly_newer_first.
    + apply (StronglySorted_fmap _ Api.newer_first); [done|].
      apply StronglySorted_merge_sort;
        [apply newer_first_trans | apply newer_first_total].
    + by rewrite public_rooms_perm.
Qed.

Lemma public_pages_cover_the_listing_witness :
  let request p :=
    Api.get_public false false (Api.plain p) (Api.plain 1) Site.db in
  ∃ first pagination everything,
    request 1%positive
    = {| Api.status := 200; Api.body := Api.RoomsBody first (Some pagination) |}
    ∧ (∀ p, Api.status (request p) = 200)
    ∧ concat ((λ p, listed (request (Pos.of_nat p)))
                <$> seq 1 (Z.to_nat (Api.totalPages pagination)))
      = everything
    ∧ Api.j_id <$> everything
      ≡ₚ Api._id <$> filter (λ r, Api.isPublic r = true ∧ Api.isActive r = true)
                       (Api.rooms Site.db)
    ∧ StronglySorted (λ a b, b < a)%nat (Api.j_createdAt <$> everything).
Proof.
  apply (public_pages_cover_the_listing 1 Site.db).
  - intros r Hr _ _. unfold Site.db in Hr. simpl in Hr.
    repeat (apply elem_of_cons in Hr as [->|Hr]; [by vm_compute; eauto|]).
    by apply elem_of_nil in Hr.
  - by_evaluation.
Defined.

(** X17.  [GET /public] is answered 200 exactly when neither
    [Room.find] nor [Room.countDocuments] rejects and every room on the
    requested page has a host that is still a user; in every other case,
    so also when a public active room on that page has lost its host, it
    is answered 500 ['Server error while fetching public rooms']. *)
Theorem public_page_needs_every_host
    find_throws count_throws (pg lim : Api.QueryValue) db :
  let skip :=
    ((Pos.to_nat (Api.as_number pg) - 1) * Pos.to_nat (Api.as_number lim))%nat in
  let rooms :=
    Api.window skip (Pos.to_nat (Api.as_integer lim)) (Api.public_rooms db) in
  let response := Api.get_public find_throws count_throws pg lim db in
  (Api.status response = 200
   ↔ find_throws = false ∧ count_throws = false
     ∧ ∀ r, r ∈ rooms → is_Some (Api.users db !! Api.host r))
  ∧ (Api.status response ≠ 200 →
     response
     = {| Api.status := 500;
          Api.body := Api.Message "Server error while fetching public rooms" |}).
Proof.
  cbn zeta.
  destruct (decide (find_throws = true ∨ count_throws = true)) as [Hrej|Hfine].
  { rewrite get_public_rejected by done. simpl. split; [|done].
    split; [done|]. intros (-> & -> & _). by destruct Hrej. }
  assert (find_throws = false ∧ count_throws = false) as [-> ->].
  { destruct find_throws, count_throws; try done; destruct Hfine; auto. }
  rewrite get_public_unfold. cbn zeta.
  set (rooms := Api.window _ _ _).
  assert (is_Some (mapM (Api.format false false false db) rooms)
          ↔ ∀ r, r ∈ rooms → is_Some (Api.users db !! Api.host r)) as Hiff.
  { rewrite mapM_is_Some, Forall_forall. apply forall_proper. intros r.
    apply forall_proper. intros _. unfold compose, Api.format, Api.populated_host.
    rewrite !fmap_is_Some. done. }
  destruct (mapM (Api.format false false false db) rooms) as [formatted|]; simpl.
  - split; [|done]. split; [|done]. intros _. split_and!; [done..|].
    apply Hiff. eauto.
  - split; [|done]. split; [done|]. intros (_ & _ & Hall). apply Hiff in Hall.
    by destruct Hall.
Qed.

Example orphan_breaks_its_page :
  Api.get_public false false (Api.plain 3) (Api.plain 1) Site.db_with_orphan
  = {| Api.status := 500;
       Api.body := Api.Message "Server error while fetching public rooms" |}
  ∧ Api.status
      (Api.get_public false false (Api.plain 1) (Api.plain 1) Site.db_with_orphan)
    = 200
  ∧ Api.status
      (Api.get_public false false (Api.plain 1) (Api.plain 20) Site.db_with_orphan)
    = 500
  ∧ Api.status
      (Api.get_public false true (Api.plain 1) (Api.plain 1) Site.db_with_orphan)
    = 500.
Proof. vm_compute. done. Qed.

End PublicListing.

(** ** Deleting a room, and looking one up *)

Section DeleteAndLookup.
Implicit Types (db : Api.Db) (room r : Api.RoomRecord) (l : list Api.RoomRecord).

Lemma findOne_Some (P : Api.RoomRecord → Prop) `{∀ r, Decision (P r)} l r :
  Api.findOne P l = Some r → r ∈ l ∧ P r.
Proof.
  unfold Api.findOne. intros Hh%head_Some_elem_of.
  apply list_elem_of_filter in Hh. tauto.
Qed.

Lemma findOne_None (P : Api.RoomRecord → Prop) `{∀ r, Decision (P r)} l :
  Api.findOne P l = None ↔ ∀ r, r ∈ l → ¬ P r.
Proof.
  unfold Api.findOne. split.
  - intros Hnone r Hr HP.
    assert (r ∈ filter P l) as Hin by (by apply list_elem_of_filter).
    destruct (filter P l); [by apply elem_of_nil in Hin|done].
  - intros Hall. rewrite (filter_none P l); [done|]. exact Hall.
Qed.

Lemma elem_of_save room l x :
  x ∈ Api.save room l
  ↔ (x = room ∧ ∃ r, r ∈ l ∧ Api._id r = Api._id room)
    ∨ (x ∈ l ∧ Api._id x ≠ Api._id room).
Proof.
  unfold Api.save. rewrite list_elem_of_fmap. split.
  - intros (r & -> & Hr). case_decide; [left|right]; eauto.
  - intros [(-> & r & Hr & Hid)|(Hx & Hne)].
    + exists r. by rewrite decide_True.
    + exists x. by rewrite decide_False.
Qed.

Lemma save_ids room l : Api._id <$> Api.save room l = Api._id <$> l.
Proof.
  unfold Api.save. rewrite <- list_fmap_compose. apply list_fmap_ext.
  intros i r _. simpl. by case_decide.
Qed.

Lemma NoDup_fmap_eq {A B} (f : A → B) (l : list A) x y :
  NoDup (f <$> l) → x ∈ l → y ∈ l → f x = f y → x = y.
Proof.
  induction l as [|a l IH]; [by intros _ ?%elem_of_nil|].
  rewrite fmap_cons. intros [Hnotin Hnd]%NoDup_cons.
  intros [->|Hx]%elem_of_cons [->|Hy]%elem_of_cons Heq; try done.
  - exfalso. apply Hnotin. rewrite Heq. apply list_elem_of_fmap. eauto.
  - exfalso. apply Hnotin. rewrite <- Heq. apply list_elem_of_fmap. eauto.
  - by apply IH.
Qed.

Lemma delete_room_ok now user id db db' response :
  Api.delete_room false now user id db = (db', response) →
  Api.status response = 200 →
  ∃ room, Api.findOne (λ r, Api.roomId r = id ∧ Api.host r = user) (Api.rooms db)
          = Some room
          ∧ db' = {| Api.rooms := Api.save (Api.ended now room) (Api.rooms db);
                     Api.users := Api.users db |}.
Proof.
  unfold Api.delete_room.
  destruct (Api.findOne _ (Api.rooms db)) as [room|]; intros [= <- <-]; [|done].
  eauto.
Qed.

(** After a soft delete no active document carries the room id. *)
Lemma deleted_room_inactive now user id db db' response r :
  Api.keys_unique db →
  Api.delete_room false now user id db = (db', response) →
  Api.status response = 200 →
  r ∈ Api.rooms db' → Api.roomId r = id → Api.isActive r = false.
Proof.
  intros [Huuid _] Hdel Hok Hr Hid.
  destruct (delete_room_ok _ _ _ _ _ _ Hdel Hok) as (room & Hfind & ->).
  apply findOne_Some in Hfind as (Hroom & Hrid & _).
  simpl in Hr. apply elem_of_save in Hr as [[-> _]|[Hr Hne]]; [done|].
  exfalso. apply Hne. simpl. f_equal.
  apply (NoDup_fmap_eq Api.roomId (Api.rooms db)); [done..|]. congruence.
Qed.

(** X18.  Once [DELETE /:roomId] has answered 200 (room ids being
    unique), the room is gone from the REST side: [GET /room/:roomId]
    answers 404 whatever the caller's token (500 when its [findOne]
    rejects), and neither [GET /public] nor anyone's [GET /my-rooms]
    lists it, whether or not their calls reject.  The document itself
    stays, flagged inactive, and the signalling layer still finds it by
    [_id]: a [join-room] for it goes through and the socket becomes a
    member. *)
Theorem deleted_room_hidden_but_joinable now user id db db' response :
  Api.keys_unique db →
  Api.delete_room false now user id db = (db', response) →
  Api.status response = 200 →
  (∀ db_throws verify valid_id authorization,
     Api.get_room db_throws verify valid_id authorization id db'
     = if db_throws
       then {| Api.status := 500;
               Api.body := Api.Message "Server error while fetching room" |}
       else {| Api.status := 404; Api.body := Api.Message "Room not found" |})
  ∧ (∀ find_throws count_throws (pg lim : Api.QueryValue) j,
       j ∈ listed (Api.get_public find_throws count_throws pg lim db') →
       Api.j_roomId j ≠ id)
  ∧ (∀ db_throws anyone j,
       j ∈ listed (Api.my_rooms db_throws anyone db') → Api.j_roomId j ≠ id)
  ∧ ∃ room,
      room ∈ Api.rooms db ∧ Api.roomId room = id ∧ Api.host room = user
      ∧ Api.signalling_view db' !! Api._id room
        = Some {| isActive := false; participants := Api.participants room |}
      ∧ ∀ st sid sock userName,
          Room st = Api.signalling_view db' →
          sockets st !! sid = Some sock →
          in_room (on_join_room false false sid (Api._id room) userName st).1
            sid (Api._id room).
Proof.
  intros Hkeys Hdel Hok.
  pose proof (deleted_room_inactive now user id db db' response) as Hinactive.
  destruct (delete_room_ok _ _ _ _ _ _ Hdel Hok) as (room & Hfind & Hdb').
  apply findOne_Some in Hfind as (Hroom & Hrid & Hhost).
  split_and!.
  - intros db_throws verify valid_id authorization. unfold Api.get_room.
    destruct db_throws; [done|]. cbn zeta.
    rewrite (proj2 (findOne_None _ (Api.rooms db'))); [done|].
    intros r Hr [Hid Hact]. rewrite (Hinactive r) in Hact; done.
  - intros find_throws count_throws pg lim j Hj Hid.
    destruct (decide (find_throws = true ∨ count_throws = true)) as [Hrej|Hfine].
    { rewrite get_public_rejected in Hj by done. by apply elem_of_nil in Hj. }
    assert (find_throws = false ∧ count_throws = false) as [-> ->].
    { destruct find_throws, count_throws; try done; destruct Hfine; auto. }
    unfold listed in Hj.
    rewrite get_public_unfold in Hj. cbn zeta in Hj.
    destruct (mapM _ _) as [formatted|] eqn:Hmap; simpl in Hj;
      [|by apply elem_of_nil in Hj].
    apply mapM_Some in Hmap. apply list_elem_of_lookup in Hj as [i Hi].
    destruct (Forall2_lookup_r _ _ _ _ _ Hmap Hi) as (r & Hr & Hfmt).
    apply list_elem_of_lookup_2 in Hr. unfold Api.window in Hr.
    apply subseteq_take, subseteq_drop, elem_of_public_rooms in Hr
      as (Hr & _ & Hact).
    unfold Api.format in Hfmt.
    destruct (Api.populated_host db' r); simplify_eq/=.
    rewrite (Hinactive r) in Hact; done.
  - intros db_throws anyone j Hj Hid. unfold listed, Api.my_rooms in Hj.
    destruct db_throws; [by apply elem_of_nil in Hj|]. cbn zeta in Hj.
    destruct (mapM _ _) as [formatted|] eqn:Hmap; simpl in Hj;
      [|by apply elem_of_nil in Hj].
    apply mapM_Some in Hmap. apply list_elem_of_lookup in Hj as [i Hi].
    destruct (Forall2_lookup_r _ _ _ _ _ Hmap Hi) as (r & Hr & Hfmt).
    apply list_elem_of_lookup_2 in Hr.
    rewrite merge_sort_Permutation in Hr.
    apply list_elem_of_filter in Hr as [[_ Hact] Hr].
    unfold Api.format in Hfmt.
    destruct (Api.populated_host db' r); simplify_eq/=.
    rewrite (Hinactive r) in Hact; done.
  - exists room. split_and!; try done.
    + subst db'. unfold Api.signalling_view. simpl.
      apply elem_of_list_to_map.
      * rewrite <- list_fmap_compose.
        change (NoDup (Api._id <$> Api.save (Api.ended now room) (Api.rooms db))).
        rewrite save_ids. apply Hkeys.
      * apply list_elem_of_fmap. exists (Api.ended now room). split; [done|].
        apply elem_of_save. left. eauto.
    + assert (Api.signalling_view db' !! Api._id room
              = Some {| isActive := false; participants := Api.participants room |})
        as Hview.
      { subst db'. unfold Api.signalling_view. simpl.
        apply elem_of_list_to_map.
        - rewrite <- list_fmap_compose.
          change (NoDup (Api._id <$> Api.save (Api.ended now room) (Api.rooms db))).
          rewrite save_ids. apply Hkeys.
        - apply list_elem_of_fmap. exists (Api.ended now room). split; [done|].
          apply elem_of_save. left. eauto. }
      intros st sid sock userName HRoom Hsock.
      rewrite <- HRoom in Hview.
      destruct (on_join_room_found_state false sid sock _ _ userName st Hsock Hview)
        as (Hreg & _).
      unfold in_room, room_users. rewrite Hreg.
      apply reg_in_room_add. by right.
Qed.

Lemma site_keys_unique : Api.keys_unique Site.db.
Proof.
  split; simpl;
    repeat (apply NoDup_cons; split; [set_solver|]); apply NoDup_nil_2.
Qed.

Lemma deleted_room_hidden_but_joinable_witness :
  let db' := (Api.delete_room false 999 "ann" "uuid-standup" Site.db).1 in
  (∀ db_throws verify valid_id authorization,
     Api.get_room db_throws verify valid_id authorization "uuid-standup" db'
     = if db_throws
       then {| Api.status := 500;
               Api.body := Api.Message "Server error while fetching room" |}
       else {| Api.status := 404; Api.body := Api.Message "Room not found" |})
  ∧ (∀ find_throws count_throws (pg lim : Api.QueryValue) j,
       j ∈ listed (Api.get_public find_throws count_throws pg lim db') →
       Api.j_roomId j ≠ "uuid-standup")
  ∧ (∀ db_throws anyone j,
       j ∈ listed (Api.my_rooms db_throws anyone db') →
       Api.j_roomId j ≠ "uuid-standup")
  ∧ ∃ room,
      room ∈ Api.rooms Site.db ∧ Api.roomId room = "uuid-standup"
      ∧ Api.host room = "ann"
      ∧ Api.signalling_view db' !! Api._id room
        = Some {| isActive := false; participants := Api.participants room |}
      ∧ ∀ st sid sock userName,
          Room st = Api.signalling_view db' →
          sockets st !! sid = Some sock →
          in_room (on_join_room false false sid (Api._id room) userName st).1
            sid (Api._id room).
Proof.
  apply (deleted_room_hidden_but_joinable 999 "ann" "uuid-standup" Site.db _
           (Api.delete_room false 999 "ann" "uuid-standup" Site.db).2).
  - exact site_keys_unique.
  - by_evaluation.
  - by_evaluation.
Defined.

(** X19.  [DELETE /:roomId] changes nothing unless it answers 200, and it
    answers 200 exactly when no model call rejects and the caller hosts a
    room of that id; a caller who hosts none is answered 404.  In every
    case the users, the number of documents and their [_id]s are
    untouched: the route never removes a document. *)
Theorem delete_needs_the_host db_throws now user id db :
  let '(db', response) := Api.delete_room db_throws now user id db in
  (Api.status response = 200
   ↔ db_throws = false
     ∧ ∃ r, r ∈ Api.rooms db ∧ Api.roomId r = id ∧ Api.host r = user)
  ∧ (Api.status response ≠ 200 → db' = db)
  ∧ (db_throws = false →
     (∀ r, r ∈ Api.rooms db → Api.roomId r = id → Api.host r ≠ user) →
     response = {| Api.status := 404;
                   Api.body := Api.Message "Room not found or you are not the host" |})
  ∧ Api.users db' = Api.users db
  ∧ Api._id <$> Api.rooms db' = Api._id <$> Api.rooms db.
Proof.
  unfold Api.delete_room. destruct db_throws.
  - split_and!; try done. split; [done | by intros [? _]].
  - destruct (Api.findOne _ (Api.rooms db)) as [room|] eqn:Hfind.
    + apply findOne_Some in Hfind as (Hroom & Hrid & Hhost).
      split_and!; try done.
      * split; [|done]. intros _. split; [done|]. eauto.
      * intros _ Hnone. by destruct (Hnone room Hroom Hrid).
      * simpl. apply save_ids.
    + rewrite findOne_None in Hfind. split_and!; try done.
      split; [done|]. intros [_ (r & Hr & Hrid & Hhost)].
      by destruct (Hfind r Hr).
Qed.

Lemma findOne_save (P : Api.RoomRecord → Prop) `{∀ r, Decision (P r)}
    (f : Api.RoomRecord → Api.RoomRecord) l room :
  NoDup (Api._id <$> l) →
  Api.findOne P l = Some room →
  P (f room) → Api._id (f room) = Api._id room →
  Api.findOne P (Api.save (f room) l) = Some (f room).
Proof.
  intros Hnd Hfind HP Hid. unfold Api.findOne, Api.save in *.
  rewrite Hid. clear Hid.
  induction l as [|x l IH]; [done|].
  rewrite fmap_cons in Hnd. apply NoDup_cons in Hnd as [Hnotin Hnd].
  rewrite filter_cons in Hfind. rewrite fmap_cons, filter_cons.
  destruct (decide (P x)) as [HPx|HPx].
  - simpl in Hfind. simplify_eq.
    destruct (decide (Api._id room = Api._id room)); [|done].
    by rewrite decide_True.
  - assert (room ∈ l) as Hin.
    { apply head_Some_elem_of, list_elem_of_filter in Hfind. tauto. }
    destruct (decide (Api._id x = Api._id room)) as [Heq|_].
    { exfalso. apply Hnotin. rewrite Heq. apply list_elem_of_fmap. eauto. }
    rewrite decide_False by done. by apply IH.
Qed.

(** X20.  Deleting is repeatable: after a [DELETE /:roomId] that answered
    200 (ids being unique), the same call by the same host answers 200
    again, for the lookup does not look at [isActive]; the room stays
    inactive and its [endedAt] moves to the time of the later call. *)
Theorem delete_again_moves_endedAt now later user id db db' response :
  Api.keys_unique db →
  Api.delete_room false now user id db = (db', response) →
  Api.status response = 200 →
  let '(db'', response') := Api.delete_room false later user id db' in
  response' = {| Api.status := 200;
                 Api.body := Api.Message "Room deleted successfully" |}
  ∧ ∀ r, r ∈ Api.rooms db'' → Api.roomId r = id →
         Api.isActive r = false ∧ Api.endedAt r = Some later.
Proof.
  intros Hkeys Hdel Hok.
  destruct (delete_room_ok _ _ _ _ _ _ Hdel Hok) as (room & Hfind & ->).
  pose proof (findOne_Some _ _ _ Hfind) as (Hroom & Hrid & Hhost).
  unfold Api.delete_room. cbn [Api.rooms Api.users].
  rewrite (findOne_save _ (Api.ended now) (Api.rooms db) room);
    [|apply Hkeys|done|done|done].
  split; [done|]. cbn [Api.rooms]. intros r Hr Hid.
  apply elem_of_save in Hr as [[-> _]|[Hr Hne]]; [done|].
  exfalso. simpl in Hne.
  apply elem_of_save in Hr as [[-> _]|[Hr Hne']]; [done|].
  apply Hne. f_equal.
  apply (NoDup_fmap_eq Api.roomId (Api.rooms db)); [apply Hkeys|done..|congruence].
Qed.

Lemma delete_again_moves_endedAt_witness :
  let db' := (Api.delete_room false 999 "ann" "uuid-standup" Site.db).1 in
  let '(db'', response') := Api.delete_room false 1234 "ann" "uuid-standup" db' in
  response' = {| Api.status := 200;
                 Api.body := Api.Message "Room deleted successfully" |}
  ∧ ∀ r, r ∈ Api.rooms db'' → Api.roomId r = "uuid-standup" →
         Api.isActive r = false ∧ Api.endedAt r = Some 1234.
Proof.
  apply (delete_again_moves_endedAt 999 1234 "ann" "uuid-standup" Site.db _
           (Api.delete_room false 999 "ann" "uuid-standup" Site.db).2).
  - exact site_keys_unique.
  - by_evaluation.
  - by_evaluation.
Defined.

(** X21.  A private room's details go to any caller whose token verifies:
    when [Room.findOne] does not reject, the room is active, its host is
    a user and the payload's [userId] does not make [User.findById]
    throw, [GET /room/:roomId] answers 200 with [requiresAuth] true,
    whether or not a user of that id exists; the room's password is never
    asked for. *)
Theorem private_room_open_to_any_verified_token
    verify valid_id authorization id db room token userId :
  Api.findOne (λ r, Api.roomId r = id ∧ Api.isActive r = true) (Api.rooms db)
  = Some room →
  Api.isPublic room = false →
  is_Some (Api.users db !! Api.host room) →
  Api.bearer authorization = Some token →
  truthy token = true →
  verify token = Api.Payload userId →
  Api.User_findById valid_id db userId ≠ Api.Throws →
  ∃ details,
    Api.get_room false verify valid_id authorization id db
    = {| Api.status := 200; Api.body := Api.RoomBody details |}
    ∧ Api.j_roomId details = id
    ∧ Api.j_requiresAuth details = Some true
    ∧ Api.j_isPublic details = Some false.
Proof.
  intros Hfind Hprivate [host Hhost] Htoken Htruthy Hverify Hlookup.
  pose proof (findOne_Some _ _ _ Hfind) as (_ & Hrid & _).
  unfold Api.get_room. cbn zeta. rewrite Hfind, Hprivate, Htoken. cbn zeta.
  unfold Api.no_token. rewrite Htruthy. simpl. rewrite Hverify.
  unfold Api.format, Api.populated_host. rewrite Hhost. simpl.
  destruct (Api.User_findById valid_id db userId) as [| |[? ?]]; [done|..];
    (eexists; split; [reflexivity|]; simpl; by rewrite Hprivate).
Qed.

Lemma private_room_open_to_any_verified_token_witness :
  Api.users Site.db !! "zed" = None
  ∧ ∃ details,
      Api.get_room false Site.verify Site.valid_id (Some "Bearer token-zed")
        "uuid-board" Site.db
      = {| Api.status := 200; Api.body := Api.RoomBody details |}
      ∧ Api.j_roomId details = "uuid-board"
      ∧ Api.j_requiresAuth details = Some true
      ∧ Api.j_isPublic details = Some false.
Proof.
  split; [by_evaluation|].
  apply (private_room_open_to_any_verified_token Site.verify Site.valid_id
           (Some "Bearer token-zed") "uuid-board" Site.db Site.board
           "token-zed" (Some "zed")); try by_evaluation.
Defined.

Example private_room_trace :
  Api.status (Api.get_room false Site.verify Site.valid_id None "uuid-board" Site.db)
  = 401
  ∧ Api.status (Api.get_room false Site.verify Site.valid_id (Some "Bearer nope")
                  "uuid-board" Site.db) = 401
  ∧ Api.status (Api.get_room false Site.verify Site.valid_id None "uuid-lounge"
                  Site.db) = 200
  ∧ Api.status (Api.get_room false Site.verify Site.valid_id None "uuid-orphan"
                  Site.db_with_orphan) = 500
  ∧ Api.status (Api.get_room true Site.verify Site.valid_id None "uuid-lounge"
                  Site.db) = 500.
Proof. vm_compute. done. Qed.

(** X22.  [GET /my-rooms] behind the middleware: a caller the middleware
    lets through is answered 500 ['Server error while fetching rooms']
    when [Room.find] rejects and 200 in every other case (the host of the
    rooms found is the caller, so no populated host is missing); the
    listing then holds exactly the active rooms that caller hosts, each
    with the caller as its host, newest first. *)
Theorem my_rooms_lists_own_active_rooms
    db_throws verify valid_id authorization db user :
  Api.authenticateToken verify valid_id authorization db = Api.Next user →
  ∃ listing,
    Api.route_my_rooms db_throws verify valid_id authorization db
    = (if db_throws
       then {| Api.status := 500;
               Api.body := Api.Message "Server error while fetching rooms" |}
       else {| Api.status := 200; Api.body := Api.RoomsBody listing None |})
    ∧ Api.j_id <$> listing
      ≡ₚ Api._id <$> filter (λ r, Api.host r = user ∧ Api.isActive r = true)
                       (Api.rooms db)
    ∧ (∀ j, j ∈ listing →
         Api.h_id (Api.j_host j) = user ∧ Api.j_isActive j = Some true)
    ∧ Sorted (λ a b, Api.j_createdAt b ≤ Api.j_createdAt a)%nat listing.
Proof.
  intros Hauth. unfold Api.route_my_rooms. rewrite Hauth.
  assert (is_Some (Api.users db !! user)) as [u Hu].
  { unfold Api.authenticateToken in Hauth. cbn zeta in Hauth.
    destruct (Api.no_token _); [done|]. destruct (verify _) as [|userId]; [done|].
    unfold Api.User_findById in Hauth. destruct userId as [uid|]; [|done].
    destruct (valid_id uid); [|done].
    destruct (Api.users db !! uid) as [u|] eqn:Hu; [|done]. simplify_eq. eauto. }
  unfold Api.my_rooms. cbn zeta.
  set (found := merge_sort Api.newer_first _).
  assert (∀ r, r ∈ found → Api.host r = user ∧ Api.isActive r = true) as Hfound.
  { intros r Hr. unfold found in Hr. rewrite merge_sort_Permutation in Hr.
    apply list_elem_of_filter in Hr. tauto. }
  assert (StronglySorted Api.newer_first found) as Hsorted.
  { apply StronglySorted_merge_sort;
      [apply newer_first_trans | apply newer_first_total]. }
  assert (found ≡ₚ filter (λ r, Api.host r = user ∧ Api.isActive r = true)
                     (Api.rooms db)) as Hperm by apply merge_sort_Permutation.
  assert (is_Some (mapM (Api.format true true false db) found)) as [listing Hmap].
  { apply mapM_is_Some, Forall_forall. intros r Hr.
    destruct (Hfound r Hr) as [Hhost _].
    unfold compose, Api.format, Api.populated_host. rewrite Hhost, Hu. simpl. eauto. }
  exists listing. split; [destruct db_throws; [done|by rewrite Hmap]|].
  apply mapM_Some in Hmap.
  cut (Api.j_id <$> listing = Api._id <$> found
       ∧ (∀ j, j ∈ listing →
            Api.h_id (Api.j_host j) = user ∧ Api.j_isActive j = Some true)
       ∧ Sorted (λ a b, Api.j_createdAt b ≤ Api.j_createdAt a)%nat listing).
  { intros (-> & ? & ?). split; [by rewrite Hperm | done]. }
  clear Hperm. clearbody found.
  induction Hmap as [|r j l k Hrj Hlk IH].
  - split_and!; [done| by intros j ?%elem_of_nil | constructor].
  - apply StronglySorted_inv in Hsorted as [Hsorted Hall].
    destruct IH as (IHeq & IHelem & IHsorted); [|done|].
    { intros r' Hr'. apply Hfound. by apply list_elem_of_further. }
    destruct (Hfound r (list_elem_of_here _ _)) as [Hhost Hact].
    unfold Api.format, Api.populated_host in Hrj.
    rewrite Hhost, Hu in Hrj. simpl in Hrj. simplify_eq.
    split_and!.
    + rewrite !fmap_cons. simpl. by f_equal.
    + intros j [->|Hj]%elem_of_cons; [by simpl; rewrite Hact | by apply IHelem].
    + constructor; [done|]. destruct k as [|j' k]; constructor. simpl.
      apply Forall2_cons_inv_r in Hlk as (r' & l' & Hr'j' & _ & ->).
      apply Forall_cons in Hall as [Hrr' _]. unfold Api.newer_first in Hrr'.
      unfold Api.format in Hr'j'.
      destruct (Api.populated_host db r'); simplify_eq/=. done.
Qed.

Lemma my_rooms_lists_own_active_rooms_witness :
  ∃ listing,
    Api.route_my_rooms false Site.verify Site.valid_id (Some "Bearer token-ann")
      Site.db
    = {| Api.status := 200; Api.body := Api.RoomsBody listing None |}
    ∧ Api.j_id <$> listing
      ≡ₚ Api._id <$> filter (λ r, Api.host r = "ann" ∧ Api.isActive r = true)
                       (Api.rooms Site.db)
    ∧ (∀ j, j ∈ listing →
         Api.h_id (Api.j_host j) = "ann" ∧ Api.j_isActive j = Some true)
    ∧ Sorted (λ a b, Api.j_createdAt b ≤ Api.j_createdAt a)%nat listing.
Proof.
  apply (my_rooms_lists_own_active_rooms false Site.verify Site.valid_id
           (Some "Bearer token-ann") Site.db "ann").
  by_evaluation.
Defined.

End DeleteAndLookup.
